(** * SciOly-ID: media selection, retrying fetch, push decoding, reconciliation

    A shallow embedding of the media acquisition code of [sciolyid/core.py]
    and of the background tasks of [sciolyid/web/tasks/git_tasks.py],
    together with the properties the specification states about them; then
    of the delivery of an image ([send_image]) and of the score keeping of
    [sciolyid/functions.py], with further properties read off the code.

    Conventions of the embedding:
    - Python [int] is [Z]; [%] with a positive modulus is [Z.modulo].
    - Python [str] is [string]; paths are ASCII or UTF-8 bytes.  The image
      filter applies [split(".")] and [lower()] followed by membership in a
      set of ASCII words; on UTF-8 bytes these agree with the code-point
      versions (no non-ASCII letter lower-cases to one of the letters of
      jpg, png, jpeg, gif), so the filter uses the ASCII [lower] below.
      Everywhere else (the item handed to [get_files], the part on
      functions.py) [str.lower], [str.strip] and [string.capwords] are
      parameters, about which nothing is assumed; [len] is [String.length]:
      a string there is a sequence of code points below 256.
    - [logger.info] calls are kept: every function returns the list of log
      entries it emitted, which doubles as its trace.
    - Exceptions are values of [exn]; a fallible function returns [result]. *)

From Stdlib Require Import ZArith Ascii String Lia.
From stdpp Require Import gmap strings list fin_maps.
From Equations Require Import Equations.

Set Warnings "-clear-no-such-hyp".

Local Open Scope string_scope.
Local Open Scope list_scope.
Local Open Scope Z_scope.

(** ** Exceptions, results, log entries *)

Inductive exn : Type :=
| GenericError (msg : string) (code : Z)
| ValueError
| IndexError
| KeyError (key : string)
| FileNotFoundError (path : string)
| UnboundLocalError.

Inductive result (A : Type) : Type :=
| Ok (a : A)
| Raise (e : exn).
Arguments Ok {A} a.
Arguments Raise {A} e.

(** Sequencing: an exception skips the rest; written [x ← r; k]. *)
#[global] Instance result_bind : MBind result := fun A B k r =>
  match r with
  | Ok a => k a
  | Raise e => Raise e
  end.


(** The values [json.dumps] is applied to: [None], a number, a string, a
    list of strings. *)
Inductive json : Type :=
| JNull
| JNum (z : Z)
| JStr (s : string)
| JList (l : list string).

(** A hash field of the key-value store.  Redis keeps bytes; a field written
    from an integer ([20], [str(j)], [int(time.time())]) is kept as [FInt], so
    that reading it back with [int(...)] is the identity; a field written
    from [json.dumps(v)] is kept as [FJson v]; any other field as [FStr]. *)
Inductive field : Type :=
| FInt (z : Z)
| FStr (s : string)
| FJson (v : json).

#[global] Instance json_eq_dec : EqDecision json.
Proof. solve_decision. Defined.

#[global] Instance field_eq_dec : EqDecision field.
Proof. solve_decision. Defined.

(** One entry per [logger.info] call: a fixed message, a label followed by
    the rendering of an integer, a string or a list of strings, or a
    dictionary of fields; or a [logger.error] call. *)
Inductive log_entry : Type :=
| Info (msg : string)
| InfoZ (label : string) (z : Z)
| InfoS (label : string) (s : string)
| InfoL (label : string) (l : list string)
| InfoD (d : gmap string field)
| Error (msg : string).

(** ** Python primitives used by the code *)

(** [l[i]] with Python's indexing: negative indices count from the end. *)
Definition py_index {A} (l : list A) (i : Z) : option A :=
  let n := Z.of_nat (length l) in
  if (0 <=? i) && (i <? n) then l !! Z.to_nat i
  else if (- n <=? i) && (i <? 0) then l !! Z.to_nat (n + i)
  else None.

(** [s.split(sep)] for a one-character separator. *)
Fixpoint split (sep : ascii) (s : string) : list string :=
  match s with
  | EmptyString => [EmptyString]
  | String c s' =>
      if Ascii.eqb c sep then EmptyString :: split sep s'
      else match split sep s' with
           | w :: ws => String c w :: ws
           | [] => [String c EmptyString]
           end
  end.

(** [l[-1]] on the non-empty result of [split]. *)
Definition last_field (l : list string) : string := List.last l EmptyString.

Definition lower_ascii (c : ascii) : ascii :=
  let n := nat_of_ascii c in
  if (65 <=? n)%nat && (n <=? 90)%nat then ascii_of_nat (n + 32) else c.

(** [s.lower()] on ASCII letters; every other byte is kept. *)
Fixpoint lower (s : string) : string :=
  match s with
  | EmptyString => EmptyString
  | String c s' => String (lower_ascii c) (lower s')
  end.


(** * core.py *)

Module Core.

(** [valid_image_extensions = {"jpg", "png", "jpeg", "gif"}] *)
Definition valid_image_extensions : gset string :=
  {[ "jpg"; "png"; "jpeg"; "gif" ]}.

(** [image_link.split(".")[-1]] *)
Definition extension_of (image_link : string) : string :=
  last_field (split "." image_link).

(** The condition of the [if] in the scan loop of [get_image]. *)
Definition passes (extension : string) (st_size : Z) : bool :=
  bool_decide (lower extension ∈ valid_image_extensions) && (st_size <? 4000000).

(** The hashes of the store, by key and field. *)
Definition hget (db : gmap string (gmap string field)) (key fld : string)
  : option field :=
  h ← db !! key; h !! fld.

Definition hset (db : gmap string (gmap string field)) (key fld : string)
    (v : field) : gmap string (gmap string field) :=
  <[key := <[fld := v]> (default ∅ (db !! key))]> db.

(** [int(str(database.hget(key, "prevJ"))[2:-1])]: the integer the field
    holds; a missing field renders as ["None"], whose slice is not a number. *)
Definition read_int (o : option field) : result Z :=
  match o with
  | Some (FInt z) => Ok z
  | _ => Raise ValueError
  end.

(** [channel_setup] of functions.py, on a channel id already rendered. *)
Definition channel_setup (channel_id : string)
    (db : gmap string (gmap string field)) : gmap string (gmap string field) :=
  if bool_decide (is_Some (db !! ("channel:" +:+ channel_id))) then db
  else <["channel:" +:+ channel_id :=
          {[ "item" := FStr ""; "answered" := FInt 1;
             "prevJ" := FInt 20; "prevI" := FStr "" ]}]> db.

(** The local variables of [get_image] that are live after the loop. *)
Record locals : Type := Locals {
  y : Z;
  image_link : string;
  extension : string
}.

Section Selector.
(** [os.stat(path).st_size]; the candidates come from [os.listdir], so the
    call is taken to succeed. *)
Variable st_size : string -> Z.

Definition valid_image (image_link : string) : bool :=
  passes (extension_of image_link) (st_size image_link).

(** The [for x in range(0, len(images))] loop over the remaining values
    [xs] of [x].  [cur] holds the loop's variables as bound so far.  The
    result is the log of the iterations run and either the variables at the
    exit of the loop (by [break] or by exhaustion) or the exception. *)
Fixpoint scan (images : list string) (prevJ j : Z) (xs : list Z)
    (cur : option locals) : list log_entry * result (option locals) :=
  match xs with
  | [] => ([], Ok cur)
  | x :: xs' =>
      let y := (x + j) mod (Z.of_nat (length images)) in
      match py_index images y with
      | None => ([], Raise IndexError)
      | Some image_link =>
          let extension := extension_of image_link in
          let size := st_size image_link in
          let lg := [InfoS "extension: " extension; InfoZ "size: " size] in
          if passes extension size then
            (lg ++ [Info "found one!"], Ok (Some (Locals y image_link extension)))
          else if y =? prevJ then
            (lg, Raise (GenericError "No Valid Images Found" 999))
          else
            let '(lg', r) :=
              scan images prevJ j xs' (Some (Locals y image_link extension)) in
            (lg ++ lg', r)
      end
  end.

(** The body of [get_image] after [images = await get_files(item)], with
    the variables at the [return]. *)
Definition get_image_locals (images : list string) (channel_id : string)
    (db : gmap string (gmap string field))
  : list log_entry * result (gmap string (gmap string field) * locals) :=
  let key := "channel:" +:+ channel_id in
  let lg0 := [InfoL "images: " images] in
  match read_int (hget db key "prevJ") with
  | Raise e => (lg0, Raise e)
  | Ok prevJ =>
      match images with
      | [] => (lg0, Raise (GenericError "No Images Found" 100))
      | _ :: _ =>
          let n := Z.of_nat (length images) in
          let j := (prevJ + 1) mod n in
          let lg1 := [InfoZ "prevJ: " prevJ; InfoZ "j: " j] in
          let '(lg2, r) := scan images prevJ j (seqZ 0 n) None in
          (lg0 ++ lg1 ++ lg2,
           match r with
           | Raise e => Raise e
           | Ok None => Raise UnboundLocalError
           | Ok (Some v) => Ok (hset db key "prevJ" (FInt j), v)
           end)
      end
  end.

(** [get_image], given the list [get_files] returned: the store after the
    call and [[image_link, extension]]. *)
Definition get_image (images : list string) (channel_id : string)
    (db : gmap string (gmap string field))
  : list log_entry * result (gmap string (gmap string field) * (string * string)) :=
  let '(lg, r) := get_image_locals images channel_id db in
  (lg, v ← r; Ok (v.1, (image_link v.2, extension v.2))).

(** The entries the loop examined: one [os.stat] per iteration, logged as
    ["size: ..."]. *)
Definition is_size_entry (e : log_entry) : bool :=
  match e with
  | InfoZ "size: " _ => true
  | _ => false
  end.

Definition examined (lg : list log_entry) : nat :=
  length (filter (fun e => is_size_entry e = true) lg).


(** *** Rotation order *)

(** The index the loop visits at offset [x] when it starts at [j]. *)
Definition rot (images : list string) (j x : Z) : Z :=
  (x + j) mod Z.of_nat (length images).

(** [x] is the first offset, in rotation order from [j], whose candidate
    passes the filter, and [img] is that candidate. *)
Definition first_valid_at (images : list string) (j x : Z) (img : string) : Prop :=
  0 <= x < Z.of_nat (length images) /\
  images !! Z.to_nat (rot images j x) = Some img /\
  valid_image img = true /\
  forall x', 0 <= x' < x ->
    exists img', images !! Z.to_nat (rot images j x') = Some img' /\
                 valid_image img' = false.

End Selector.

(** ** The retrying fetcher *)

Section Fetcher.
(** The state of the disk and of the remote repository. *)
Context {world : Type}.
(** [os.listdir(directory)]; [None] stands for [FileNotFoundError]. *)
Variable listdir : world -> string -> option (list string).
(** [get_category] of sciolyid.data. *)
Variable get_category : string -> string.
(** [Repo.clone_from(url, dir)] and [Repo(dir).remote("origin").pull()],
    taken to complete. *)
Variables _clone _pull : world -> world.
(** [config.options['download_dir']] *)
Variable download_dir : string.
(** [str.lower], Unicode's lower-casing. *)
Variable str_lower : string -> string.

Definition download_github (w : world) : list log_entry * world :=
  match listdir w (download_dir +:+ "/") with
  | None =>
      ([Info "syncing github"; Info "doesn't exist, cloning"; Info "done cloning"],
       _clone w)
  | Some _ =>
      ([Info "syncing github"; Info "exists, pulling"; Info "done pulling"],
       _pull w)
  end.

(** [f"github_download/{category}/{item}/"], for [item] as lower-cased by
    [get_files]. *)
Definition directory_of (item : string) : string :=
  "github_download/" +:+ get_category item +:+ "/" +:+ item +:+ "/".

(** The body of the [try]: the log, and the files, or [None] when the body
    raised one of the two exceptions the [except] clause catches
    ([FileNotFoundError] from [os.listdir], [GenericError] for no entries). *)
Definition try_listing (w : world) (directory : string)
  : list log_entry * option (list string) :=
  match listdir w directory with
  | None => ([Info "trying"], None)
  | Some files_dir =>
      if (Z.of_nat (length files_dir) =? 0) then
        ([Info "trying"; InfoS "" directory], None)
      else
        ([Info "trying"; InfoS "" directory],
         Some (map (fun path => directory +:+ path) files_dir))
  end.

Equations? get_files (item : string) (retries : Z) (w : world)
  : list log_entry * world * list string by wf (Z.to_nat (3 - retries)) lt :=
get_files item retries w with try_listing w (directory_of (str_lower item)) => {
  | (lg, Some files) => ([InfoZ "get_files retries: " retries] ++ lg, w, files);
  | (lg, None) with Z_lt_dec retries 3 => {
      | left _ =>
          let r := get_files (str_lower item) (retries + 1) (download_github w).2 in
          ([InfoZ "get_files retries: " retries] ++ lg
             ++ [Info "fetching files"; InfoS "item: " (str_lower item)]
             ++ (download_github w).1 ++ r.1.1,
           r.1.2, r.2);
      | right _ =>
          ([InfoZ "get_files retries: " retries] ++ lg
             ++ [Info "fetching files"; InfoS "item: " (str_lower item);
                 Info "More than 3 retries"],
           w, [])
    }
}.
Proof. lia. Qed.

End Fetcher.

End Core.

(** * web/tasks/git_tasks.py *)

Module GitTasks.

Definition GIT_PUSHINFO_FLAGS : list string :=
  [ "ERROR";            (* 1024 *)
    "UP_TO_DATE";       (* 512 *)
    "FAST_FORWARD";     (* 256 *)
    "FORCED_UPDATE";    (* 128 *)
    "DELETED";          (* 64 *)
    "REMOTE_FAILURE";   (* 32 *)
    "REMOTE_REJECTED";  (* 16 *)
    "REJECTED";         (* 8 *)
    "NO_MATCH";         (* 4 *)
    "NEW_HEAD";         (* 2 *)
    "NEW_TAG" ].        (* 1 *)

Definition GIT_PUSH_OPCODES : list string :=
  [ "CHECKING_OUT";     (* 256 *)
    "FINDING_SOURCES";  (* 128 *)
    "RESOLVING";        (* 64 *)
    "RECEIVING";        (* 32 *)
    "WRITING";          (* 16 *)
    "COMPRESSING";      (* 8 *)
    "COUNTING";         (* 4 *)
    "END";              (* 2 *)
    "BEGIN" ].          (* 1 *)

(** ** Formatting an integer in binary: [f"{w:0>11b}"] *)

(** The binary digits of a positive number, most significant first. *)
Fixpoint bin_pos (p : positive) : string :=
  match p with
  | xH => "1"
  | xO p' => bin_pos p' +:+ "0"
  | xI p' => bin_pos p' +:+ "1"
  end.

(** [format(w, "b")]: a minus sign before the digits of a negative number. *)
Definition format_b (w : Z) : string :=
  match w with
  | Z0 => "0"
  | Zpos p => bin_pos p
  | Zneg p => "-" +:+ bin_pos p
  end.

Fixpoint zeros (k : nat) : string :=
  match k with
  | O => ""
  | S k' => String "0" (zeros k')
  end.

(** [format(w, "0>{width}b")]: right-aligned, filled with ["0"] on the left
    up to [width] characters; a longer rendering is kept whole. *)
Definition format_0b (width : nat) (w : Z) : string :=
  zeros (width - String.length (format_b w)) +:+ format_b w.

(** [int(c)] for a one-character string. *)
Definition int_of_char (c : ascii) : result Z :=
  let n := nat_of_ascii c in
  if (48 <=? n)%nat && (n <=? 57)%nat then Ok (Z.of_nat (n - 48))
  else Raise ValueError.

(** The loop of [_push_helper] over [enumerate(digits)], from position [i]. *)
Fixpoint decode_flags (i : Z) (digits : string) (set_flags : list string)
  : result (list string) :=
  match digits with
  | EmptyString => Ok set_flags
  | String flag rest =>
      b ← int_of_char flag;
      if b =? 0 then decode_flags (i + 1) rest set_flags
      else match py_index GIT_PUSHINFO_FLAGS i with
           | Some name => decode_flags (i + 1) rest (set_flags ++ [name])
           | None => Raise IndexError
           end
  end.

(** The set comprehension of [wrapped_progress] over [enumerate(digits)]:
    [{GIT_PUSH_OPCODES[i] if int(code) else None for i, code in ...}]. *)
Fixpoint opcode_comprehension (i : Z) (digits : string)
  : result (gset (option string)) :=
  match digits with
  | EmptyString => Ok ∅
  | String code rest =>
      b ← int_of_char code;
      e ← (if b =? 0 then Ok None
           else match py_index GIT_PUSH_OPCODES i with
                | Some name => Ok (Some name)
                | None => Raise IndexError
                end);
      s ← opcode_comprehension (i + 1) rest;
      Ok ({[ e ]} ∪ s)
  end.

(** ** The key-value store *)

(** Hashes, sorted sets (member to score), other keys, and times to live, by
    key.  A key holds one kind of value. *)
Record redis : Type := Redis {
  hashes : gmap string (gmap string field);
  zsets : gmap string (gmap string Z);
  values : gmap string string;
  expires : gmap string Z
}.

(** [database.hset(key, mapping=m)] *)
Definition hset_mapping (key : string) (m : gmap string field) (r : redis) : redis :=
  Redis (<[key := m ∪ default ∅ (hashes r !! key)]> (hashes r))
        (zsets r) (values r) (expires r).

(** [database.delete(key)] *)
Definition delete_key (key : string) (r : redis) : redis :=
  Redis (delete key (hashes r)) (delete key (zsets r))
        (delete key (values r)) (delete key (expires r)).

Definition exists_key (key : string) (r : redis) : bool :=
  bool_decide (is_Some (hashes r !! key)) ||
  bool_decide (is_Some (zsets r !! key)) ||
  bool_decide (is_Some (values r !! key)).

(** [database.expire(key, seconds)]: no effect on a missing key. *)
Definition expire (key : string) (seconds : Z) (r : redis) : redis :=
  if exists_key key r then
    Redis (hashes r) (zsets r) (values r) (<[key := seconds]> (expires r))
  else r.

(** [database.zrangebyscore(key, lo, "+inf")]: the members of score at least
    [lo]. *)
Definition zrangebyscore (key : string) (lo : Z) (r : redis) : list string :=
  (map_to_list (filter (fun kv => lo <= kv.2) (default ∅ (zsets r !! key)))).*1.

(** [database.zremrangebyscore(key, lo, "+inf")]; a sorted set left empty is
    removed with its time to live. *)
Definition zremrangebyscore (key : string) (lo : Z) (r : redis) : redis :=
  let rest := filter (fun kv => ~ lo <= kv.2) (default ∅ (zsets r !! key)) in
  if bool_decide (rest = ∅) then
    Redis (hashes r) (delete key (zsets r)) (values r) (delete key (expires r))
  else Redis (hashes r) (<[key := rest]> (zsets r)) (values r) (expires r).

(** ** The state the tasks run in *)

Inductive fs_op : Type :=
| Remove (path : string)
| Copy (src dst : string).

Record world : Type := World {
  db : redis;                (* the key-value store *)
  files : gset string;       (* the paths present in the verification tree *)
  ops : list fs_op;          (* the [os.remove] and [shutil.copy] calls made *)
  draws : nat;               (* the number of [random.randint] calls made *)
  clock : Z;                 (* [int(time.time())] *)
  log : list log_entry       (* the log entries written *)
}.

(** A computation on the state that returns or raises. *)
Definition M (A : Type) : Type := world -> world * result A.

#[global] Instance M_ret : MRet M := fun A a w => (w, Ok a).

#[global] Instance M_bind : MBind M := fun A B k m w =>
  match m w with
  | (w', Ok a) => k a w'
  | (w', Raise e) => (w', Raise e)
  end.

Definition raise {A} (e : exn) : M A := fun w => (w, Raise e).

Definition lift {A} (r : result A) : M A := fun w => (w, r).

Definition get_world : M world := fun w => (w, Ok w).

Definition with_db (f : redis -> redis) : M unit := fun w =>
  (World (f (db w)) (files w) (ops w) (draws w) (clock w) (log w), Ok tt).

Definition logger (e : log_entry) : M unit := fun w =>
  (World (db w) (files w) (ops w) (draws w) (clock w) (log w ++ [e]), Ok tt).

(** [for a in l: f(a)] *)
Fixpoint for_each {A} (f : A -> M unit) (l : list A) : M unit :=
  match l with
  | [] => mret tt
  | a :: l' => f a;; for_each f l'
  end.

(** [os.remove(path)] *)
Definition os_remove (path : string) : M unit := fun w =>
  if bool_decide (path ∈ files w) then
    (World (db w) (files w ∖ {[ path ]}) (ops w ++ [Remove path])
           (draws w) (clock w) (log w), Ok tt)
  else (w, Raise (FileNotFoundError path)).

(** [shutil.copy(src, dst)] *)
Definition shutil_copy (src dst : string) : M unit := fun w =>
  if bool_decide (src ∈ files w) then
    (World (db w) (files w) (ops w ++ [Copy src dst])
           (draws w) (clock w) (log w), Ok tt)
  else (w, Raise (FileNotFoundError src)).

(** [d[key]] on a dictionary *)
Definition dict_get (d : gmap string string) (key : string) : M string :=
  match d !! key with
  | Some v => mret v
  | None => raise (KeyError key)
  end.

(** ** The git operations, from outside *)

Inductive repo : Type := verify_repo | image_repo.

(** One call of the progress callback by the push. *)
Record progress_event : Type := ProgressEvent {
  op_code : Z;
  cur_count : json;
  max_count : json;
  message : string
}.

(** What pull, stage, commit and push did: the progress events the push
    reported, in order, and the [flags] of each entry of its result. *)
Record git_outcome : Type := GitOutcome {
  progress_events : list progress_event;
  push_result : list Z
}.

Section Tasks.
(** The remote operations of a repository for a commit message, in a state. *)
Variable git : repo -> string -> world -> git_outcome.
(** The value its [k]-th call of [random.randint(1, 4)] returns. *)
Variable randint : nat -> Z.
(** [filename_lookup(root)] of sciolyid.web.functions.images, on the files
    present: a path for each image identifier. *)
Variable filename_lookup : string -> gset string -> gmap string string.
(** The absolute path of the verification tree. *)
Variable root : string.
(** [os.path.dirname(os.path.relpath(path, root))] *)
Variable item_of : string -> string.
(** [get_category] of sciolyid.data. *)
Variable get_category : string -> string.
(** [image_repo.working_tree_dir] and [os.path.join]. *)
Variable image_dir : string.
Variable path_join : string -> string -> string.

Definition random_randint : M Z := fun w =>
  (World (db w) (files w) (ops w) (S (draws w)) (clock w) (log w),
   Ok (randint (draws w))).

Definition status_key (user_id : string) : string :=
  "sciolyid.upload.status:" +:+ user_id.

Definition save_key (user_id : string) : string :=
  "sciolyid.upload.save:" +:+ user_id.

(** The callback [gen_progress(user_id)] returns. *)
Definition wrapped_progress (user_id : string) (ev : progress_event) : M unit :=
  coded ← lift (opcode_comprehension 0 (format_0b 9 (op_code ev)));
  let readable_opcode : gset (option string) := coded ∖ {[ None ]} in
  let data : gmap string field :=
    {[ "op_code" := FJson (JList (omap id (elements readable_opcode)));
       "cur_count" := FJson (cur_count ev);
       "max_count" := FJson (max_count ev);
       "message" := FJson (JStr (message ev)) ]} in
  with_db (hset_mapping (status_key user_id) data);;
  d ← random_randint;
  if (d =? 1) || bool_decide (Some "BEGIN" ∈ readable_opcode)
              || bool_decide (Some "END" ∈ readable_opcode)
  then logger (InfoD data)
  else mret tt.

Definition gen_progress (user_id : string) : progress_event -> M unit :=
  wrapped_progress user_id.

Definition _push_helper (r : repo) (commit_message : string)
    (progress : option (progress_event -> M unit)) : M (option (list string)) :=
  w ← get_world;
  let out := git r commit_message w in
  match progress with
  | Some callback => for_each callback (progress_events out)
  | None => mret tt
  end;;
  if Z.of_nat (length (push_result out)) =? 0 then mret None
  else
    match py_index (push_result out) 0 with
    | None => raise IndexError
    | Some flags =>
        set_flags ← lift (decode_flags 0 (format_0b 11 flags) []);
        logger (InfoL "" set_flags);;
        mret (Some set_flags)
    end.

Definition push (commit_message user_id : string) : M unit :=
  logger (Info "pushing!");;
  result ← _push_helper verify_repo commit_message (Some (gen_progress user_id));
  w ← get_world;
  match result with
  | None =>
      with_db (hset_mapping (status_key user_id)
                 {[ "status" := FJson (JList ["FAIL"]); "end" := FInt (clock w) ]});;
      logger (Error "push operation failed completely!")
  | Some flags =>
      with_db (hset_mapping (status_key user_id)
                 {[ "status" := FJson (JList flags); "end" := FInt (clock w) ]})
  end;;
  with_db (delete_key (save_key user_id));;
  with_db (expire (status_key user_id) 60).

(** The body of the loop over [valid]. *)
Definition move_one (lookup : gmap string string) (delete : gset string)
    (image : string) : M unit :=
  if bool_decide (image ∈ delete) then mret tt
  else
    path ← dict_get lookup image;
    let item := item_of path in
    let category := get_category item in
    shutil_copy path (path_join image_dir category);;
    os_remove path.

(** The body of the loop over [delete]. *)
Definition delete_one (lookup : gmap string string) (image : string) : M unit :=
  path ← dict_get lookup image;
  os_remove path.

Definition report (name : string) (outcome : option (list string)) : M unit :=
  match outcome with
  | None => logger (Info (name +:+ " failed completely!"))
  | Some _ => logger (Info (name +:+ " push success!"))
  end.

Definition move_images : M unit :=
  logger (Info "checking for move");;
  w ← get_world;
  let lookup := filename_lookup root (files w) in
  let delete : gset string :=
    list_to_set (zrangebyscore "sciolyid.verify.images:invalid" 3 (db w)
                 ++ zrangebyscore "sciolyid.verify.images:duplicate" 3 (db w)) in
  (if bool_decide (delete ≠ ∅) then
     with_db (zremrangebyscore "sciolyid.verify.images:invalid" 3);;
     with_db (zremrangebyscore "sciolyid.verify.images:duplicate" 3);;
     for_each (delete_one lookup) (elements delete)
   else mret tt);;
  w1 ← get_world;
  let valid : gset string :=
    list_to_set (zrangebyscore "sciolyid.verify.images:valid" 3 (db w1)) in
  (if bool_decide (valid ≠ ∅) then
     with_db (zremrangebyscore "sciolyid.verify.images:valid" 3);;
     for_each (move_one lookup delete) (elements valid)
   else mret tt);;
  if bool_decide (valid ≠ ∅) || bool_decide (delete ≠ ∅) then
    verify_push ← _push_helper verify_repo "Update through verification!" None;
    image_push ← _push_helper image_repo "Update through verification!" None;
    report "verify repo" verify_push;;
    report "image repo" image_push
  else logger (Info "no changes to update!").

End Tasks.

End GitTasks.

(** * Properties of the selector *)

Module CoreProps.
Import Core.

Lemma py_index_nonneg {A} (l : list A) (i : Z) :
  0 <= i < Z.of_nat (length l) -> py_index l i = l !! Z.to_nat i.
Proof.
  intros [H0 H1]. unfold py_index.
  destruct (Z.leb_spec 0 i); [|lia].
  destruct (Z.ltb_spec i (Z.of_nat (length l))); [|lia].
  reflexivity.
Qed.

Lemma lookup_in_range {A} (l : list A) (i : Z) :
  0 <= i < Z.of_nat (length l) -> is_Some (l !! Z.to_nat i).
Proof. intros H. apply lookup_lt_is_Some. lia. Qed.

Section Rotation.
Variable images : list string.
Let n := Z.of_nat (length images).
Hypothesis Hn : 0 < n.

Lemma rot_range j x : 0 <= rot images j x < n.
Proof. unfold rot. apply Z.mod_pos_bound. exact Hn. Qed.

Lemma rot_succ j x : rot images ((j + 1) mod n) x = rot images j (x + 1).
Proof.
  unfold rot. fold n. rewrite Z.add_mod_idemp_r by lia. f_equal. lia.
Qed.

(** Starting at [(p + 1) mod n] with [p] a valid index, the scan is back at
    [p] exactly at its last offset. *)
Lemma rot_back p x :
  0 <= p < n -> 0 <= x < n ->
  rot images ((p + 1) mod n) x = p <-> x = n - 1.
Proof.
  intros Hp Hx. rewrite rot_succ. unfold rot. fold n. split.
  - intros H.
    destruct (Z_lt_dec (x + 1 + p) n) as [Hlt|Hge].
    + rewrite Z.mod_small in H by lia. lia.
    + assert (Heq : (x + 1 + p) mod n = x + 1 + p - n).
      { symmetry. apply (Z.mod_unique _ _ 1); lia. }
      lia.
  - intros ->. replace (n - 1 + 1 + p) with (p + 1 * n) by lia.
    rewrite Z.mod_add by lia. apply Z.mod_small. lia.
Qed.

(** Any index is visited at some offset of the rotation. *)
Lemma rot_surj j i : 0 <= i < n -> exists x, 0 <= x < n /\ rot images j x = i.
Proof.
  intros Hi. exists ((i - j) mod n). split.
  - apply Z.mod_pos_bound. exact Hn.
  - unfold rot. fold n. rewrite Z.add_mod_idemp_l by lia.
    replace (i - j + j) with i by lia. apply Z.mod_small. exact Hi.
Qed.

Lemma rot_inj j x x' :
  0 <= x < n -> 0 <= x' < n -> rot images j x = rot images j x' -> x = x'.
Proof.
  unfold rot. fold n. intros Hx Hx' H.
  assert (Hd : (x - x') mod n = 0).
  { replace (x - x') with ((x + j) - (x' + j)) by lia.
    rewrite Zminus_mod, H, Z.sub_diag. apply Z.mod_0_l. lia. }
  apply Z.mod_divide in Hd; [|lia]. destruct Hd as [k Hk].
  assert (k = 0) by nia. lia.
Qed.
End Rotation.

Lemma examined_app (l1 l2 : list log_entry) :
  examined (l1 ++ l2) = (examined l1 + examined l2)%nat.
Proof. unfold examined. rewrite filter_app, length_app. reflexivity. Qed.

Section Scan.
Variable st_size : string -> Z.
Variable images : list string.
Variables prevJ j : Z.

(** The two entries an iteration logs before it branches. *)
Definition step_log (img : string) : list log_entry :=
  [InfoS "extension: " (extension_of img); InfoZ "size: " (st_size img)].

Definition bound_at (x : Z) (img : string) : option locals :=
  Some (Locals (rot images j x) img (extension_of img)).

(** Offset [x] holds [img], which fails the filter. *)
Definition invalid_at (x : Z) (img : string) : Prop :=
  images !! Z.to_nat (rot images j x) = Some img /\ valid_image st_size img = false.

Hypothesis Hn : 0 < Z.of_nat (length images).

Lemma examined_step_log img lg :
  examined (step_log img ++ lg) = S (examined lg).
Proof. reflexivity. Qed.

Lemma scan_cons_hit x xs cur img :
  images !! Z.to_nat (rot images j x) = Some img ->
  valid_image st_size img = true ->
  scan st_size images prevJ j (x :: xs) cur =
    (step_log img ++ [Info "found one!"], Ok (bound_at x img)).
Proof.
  intros Hl Hv. cbn [scan]. fold (rot images j x).
  rewrite py_index_nonneg by (apply rot_range; exact Hn).
  rewrite Hl. unfold valid_image in Hv. rewrite Hv. reflexivity.
Qed.

Lemma scan_cons_raise x xs cur img :
  invalid_at x img -> rot images j x = prevJ ->
  scan st_size images prevJ j (x :: xs) cur =
    (step_log img, Raise (GenericError "No Valid Images Found" 999)).
Proof.
  intros [Hl Hv] Hp. cbn [scan]. fold (rot images j x).
  rewrite py_index_nonneg by (apply rot_range; exact Hn).
  rewrite Hl. unfold valid_image in Hv. rewrite Hv.
  rewrite Hp, Z.eqb_refl. reflexivity.
Qed.

Lemma scan_cons_skip x xs cur img :
  invalid_at x img -> rot images j x <> prevJ ->
  scan st_size images prevJ j (x :: xs) cur =
    (step_log img ++ (scan st_size images prevJ j xs (bound_at x img)).1,
     (scan st_size images prevJ j xs (bound_at x img)).2).
Proof.
  intros [Hl Hv] Hp. cbn [scan]. fold (rot images j x).
  rewrite py_index_nonneg by (apply rot_range; exact Hn).
  rewrite Hl. unfold valid_image in Hv. rewrite Hv.
  apply Z.eqb_neq in Hp. rewrite Hp.
  unfold bound_at. destruct (scan _ _ _ _ _ _). reflexivity.
Qed.

(** The loop over offsets [a, a + k) when the first passing candidate is at
    offset [x] and no earlier offset is at [prevJ]: it breaks at [x], having
    examined [x - a + 1] candidates. *)
Lemma scan_found (k : nat) : forall a cur x img,
  a <= x < a + Z.of_nat k ->
  (forall x', a <= x' < x ->
     exists img', invalid_at x' img' /\ rot images j x' <> prevJ) ->
  images !! Z.to_nat (rot images j x) = Some img ->
  valid_image st_size img = true ->
  exists lg,
    scan st_size images prevJ j (seqZ a (Z.of_nat k)) cur = (lg, Ok (bound_at x img)) /\
    Z.of_nat (examined lg) = x - a + 1.
Proof.
  induction k as [|k IH]; intros a cur x img Hx Hskip Hl Hv; [lia|].
  rewrite seqZ_cons by lia.
  replace (Z.pred (Z.of_nat (S k))) with (Z.of_nat k) by lia.
  destruct (Z.eq_dec a x) as [->|Hne].
  - rewrite (scan_cons_hit _ _ _ img) by assumption.
    eexists; split; [reflexivity|].
    rewrite examined_step_log.
    change (examined [Info "found one!"]) with 0%nat. lia.
  - destruct (Hskip a) as (img' & Hinv & Hp); [lia|].
    rewrite (scan_cons_skip _ _ _ img') by assumption.
    destruct (IH (Z.succ a) (bound_at a img') x img) as (lg & Hs & He);
      [lia | intros; apply Hskip; lia | assumption | assumption |].
    rewrite Hs. eexists; split; [reflexivity|].
    rewrite examined_step_log. cbn [fst]. lia.
Qed.

(** The loop when every candidate up to offset [x] fails the filter and [x]
    is the first offset at [prevJ]: it raises there. *)
Lemma scan_raises (k : nat) : forall a cur x img,
  a <= x < a + Z.of_nat k ->
  (forall x', a <= x' < x ->
     exists img', invalid_at x' img' /\ rot images j x' <> prevJ) ->
  invalid_at x img -> rot images j x = prevJ ->
  exists lg,
    scan st_size images prevJ j (seqZ a (Z.of_nat k)) cur =
      (lg, Raise (GenericError "No Valid Images Found" 999)) /\
    Z.of_nat (examined lg) = x - a + 1.
Proof.
  induction k as [|k IH]; intros a cur x img Hx Hskip Hinv Hp; [lia|].
  rewrite seqZ_cons by lia.
  replace (Z.pred (Z.of_nat (S k))) with (Z.of_nat k) by lia.
  destruct (Z.eq_dec a x) as [->|Hne].
  - rewrite (scan_cons_raise _ _ _ img) by assumption.
    eexists; split; [reflexivity|].
    rewrite <- (app_nil_r (step_log img)), examined_step_log.
    change (examined []) with 0%nat. lia.
  - destruct (Hskip a) as (img' & Hinv' & Hp'); [lia|].
    rewrite (scan_cons_skip _ _ _ img') by assumption.
    destruct (IH (Z.succ a) (bound_at a img') x img) as (lg & Hs & He);
      [lia | intros; apply Hskip; lia | assumption | assumption |].
    rewrite Hs. eexists; split; [reflexivity|].
    rewrite examined_step_log. cbn [fst]. lia.
Qed.

(** The loop when every offset of [a, a + k) fails the filter and none is
    at [prevJ]: it runs to exhaustion and leaves the last candidate bound. *)
Lemma scan_exhausted (k : nat) : forall a cur,
  (forall x', a <= x' < a + Z.of_nat k ->
     exists img', invalid_at x' img' /\ rot images j x' <> prevJ) ->
  exists lg r,
    scan st_size images prevJ j (seqZ a (Z.of_nat k)) cur = (lg, Ok r) /\
    examined lg = k /\
    (k = 0%nat -> r = cur) /\
    (k <> 0%nat -> exists img, invalid_at (a + Z.of_nat k - 1) img /\
                              r = bound_at (a + Z.of_nat k - 1) img).
Proof.
  induction k as [|k IH]; intros a cur Hskip.
  - exists [], cur. repeat split; done.
  - rewrite seqZ_cons by lia.
    replace (Z.pred (Z.of_nat (S k))) with (Z.of_nat k) by lia.
    destruct (Hskip a) as (img' & Hinv' & Hp'); [lia|].
    rewrite (scan_cons_skip _ _ _ img') by assumption.
    destruct (IH (Z.succ a) (bound_at a img')) as (lg & r & Hs & He & H0 & H1);
      [intros; apply Hskip; lia|].
    rewrite Hs. eexists _, r; split; [reflexivity|].
    rewrite examined_step_log. cbn [fst].
    split; [lia|]. split; [congruence|]. intros _.
    destruct k as [|k'].
    + exists img'. rewrite (H0 eq_refl).
      replace (a + Z.of_nat 1 - 1) with a by lia. split; [assumption|reflexivity].
    + destruct H1 as (img & Hi & Hr); [congruence|].
      exists img.
      replace (a + Z.of_nat (S (S k')) - 1) with (Z.succ a + Z.of_nat (S k') - 1) by lia.
      split; assumption.
Qed.
End Scan.

Section FirstValid.
Variable st_size : string -> Z.
Variable images : list string.

Let n := Z.of_nat (length images).
Hypothesis Hn : 0 < n.

(** Whether the candidate the rotation from [j0] reaches at offset [x]
    passes the filter. *)
Definition valid_at (j0 x : Z) : bool :=
  match images !! Z.to_nat (rot images j0 x) with
  | Some img => valid_image st_size img
  | None => false
  end.

Lemma valid_at_true j0 x :
  valid_at j0 x = true <->
  exists img, images !! Z.to_nat (rot images j0 x) = Some img /\
              valid_image st_size img = true.
Proof.
  unfold valid_at. destruct (images !! _) as [img|]; split.
  - intros H. exists img. split; [reflexivity | exact H].
  - intros (img' & [= <-] & H). exact H.
  - discriminate.
  - intros (img' & [=] & _).
Qed.

Lemma valid_at_false j0 x :
  valid_at j0 x = false <->
  exists img, invalid_at st_size images j0 x img.
Proof.
  unfold valid_at, invalid_at.
  destruct (lookup_in_range images (rot images j0 x)) as [img Hl];
    [apply rot_range; exact Hn|].
  rewrite Hl. split.
  - intros H. exists img. split; [reflexivity | exact H].
  - intros (img' & [= <-] & H). exact H.
Qed.

Lemma first_valid_at_iff j0 x img :
  first_valid_at st_size images j0 x img <->
  0 <= x < n /\ images !! Z.to_nat (rot images j0 x) = Some img /\
  valid_at j0 x = true /\ forall x', 0 <= x' < x -> valid_at j0 x' = false.
Proof.
  unfold first_valid_at. fold n. split.
  - intros (Hx & Hl & Hv & Hlt). repeat split; try tauto.
    + unfold valid_at. rewrite Hl. exact Hv.
    + intros x' Hx'. apply valid_at_false. destruct (Hlt x' Hx') as (img' & ?).
      exists img'. split; tauto.
  - intros (Hx & Hl & Hv & Hlt). repeat split; try tauto.
    + unfold valid_at in Hv. rewrite Hl in Hv. exact Hv.
    + intros x' Hx'. specialize (Hlt x' Hx'). apply valid_at_false in Hlt.
      destruct Hlt as (img' & Hi). exists img'. exact Hi.
Qed.

(** Below any bound, either no offset passes or there is a least one. *)
Lemma least_offset j0 (k : nat) :
  (forall x, 0 <= x < Z.of_nat k -> valid_at j0 x = false) \/
  (exists x, 0 <= x < Z.of_nat k /\ valid_at j0 x = true /\
             forall x', 0 <= x' < x -> valid_at j0 x' = false).
Proof.
  induction k as [|k [IH|IH]].
  - left. intros x Hx. lia.
  - destruct (valid_at j0 (Z.of_nat k)) eqn:Hk.
    + right. exists (Z.of_nat k). split; [lia|]. split; [exact Hk|].
      intros x' Hx'. apply IH. lia.
    + left. intros x Hx. destruct (Z.eq_dec x (Z.of_nat k)) as [->|Hne];
        [exact Hk | apply IH; lia].
  - right. destruct IH as (x & Hx & Hv & Hlt). exists x.
    split; [lia|]. split; assumption.
Qed.

(** A list with a passing candidate has a first one in every rotation. *)
Lemma first_valid_exists j0 :
  (exists i img, images !! i = Some img /\ valid_image st_size img = true) ->
  exists x img, first_valid_at st_size images j0 x img.
Proof.
  intros (i & img & Hl & Hv).
  assert (Hi : 0 <= Z.of_nat i < n).
  { apply lookup_lt_Some in Hl. unfold n. lia. }
  destruct (rot_surj images Hn j0 _ Hi) as (xi & Hxi & Hrot).
  destruct (least_offset j0 (length images)) as [Hnone|(x & Hx & Hvx & Hlt)].
  - specialize (Hnone xi Hxi). unfold valid_at in Hnone.
    rewrite Hrot, Nat2Z.id, Hl in Hnone. congruence.
  - destruct (proj1 (valid_at_true j0 x) Hvx) as (img0 & Hl0 & Hv0).
    exists x, img0. apply first_valid_at_iff. fold n in Hx. tauto.
Qed.

Lemma first_valid_unique j0 x1 img1 x2 img2 :
  first_valid_at st_size images j0 x1 img1 ->
  first_valid_at st_size images j0 x2 img2 -> x1 = x2 /\ img1 = img2.
Proof.
  intros H1 H2.
  assert (x1 = x2) as ->.
  { apply first_valid_at_iff in H1, H2.
    destruct H1 as (Hx1 & _ & Hv1 & Hlt1), H2 as (Hx2 & _ & Hv2 & Hlt2).
    destruct (Z.lt_trichotomy x1 x2) as [Hlt|[Heq|Hgt]]; [|exact Heq|].
    - rewrite Hlt2 in Hv1 by lia. discriminate.
    - rewrite Hlt1 in Hv2 by lia. discriminate. }
  destruct H1 as (_ & Hl1 & _), H2 as (_ & Hl2 & _).
  split; congruence.
Qed.

End FirstValid.

Section GetImage.
Variable st_size : string -> Z.
Variable images : list string.
Variable channel_id : string.
Variable db : gmap string (gmap string field).
Variable prevJ : Z.

Let n := Z.of_nat (length images).
Let j := (prevJ + 1) mod n.
Let key := "channel:" +:+ channel_id.

Hypothesis Hn : 0 < n.
Hypothesis Hdb : hget db key "prevJ" = Some (FInt prevJ).

(** No offset before the last one is at [prevJ]. *)
Lemma rot_not_prevJ x : 0 <= x < n - 1 -> rot images j x <> prevJ.
Proof.
  intros Hx Heq.
  assert (Hp : 0 <= prevJ < n) by (rewrite <- Heq; apply rot_range; exact Hn).
  unfold j, n in Heq, Hx, Hp, Hn. apply rot_back in Heq; lia.
Qed.

Lemma get_image_locals_eq :
  get_image_locals st_size images channel_id db =
    ([InfoL "images: " images; InfoZ "prevJ: " prevJ; InfoZ "j: " j]
       ++ (scan st_size images prevJ j (seqZ 0 n) None).1,
     match (scan st_size images prevJ j (seqZ 0 n) None).2 with
     | Raise e => Raise e
     | Ok None => Raise UnboundLocalError
     | Ok (Some v) => Ok (hset db key "prevJ" (FInt j), v)
     end).
Proof.
  unfold get_image_locals. fold key. rewrite Hdb. cbn [read_int].
  unfold j, n in Hn |- *.
  destruct images as [|i0 l]; [cbn in Hn; lia|].
  destruct (scan _ _ _ _ _ _). reflexivity.
Qed.

(** When some candidate passes, the call breaks at the first passing one
    in rotation order from [j], and writes [j] (the start of the scan) as
    the new [prevJ]. *)
Lemma get_image_locals_found x img :
  first_valid_at st_size images j x img ->
  exists lg,
    get_image_locals st_size images channel_id db =
      (lg, Ok (hset db key "prevJ" (FInt j),
               Locals (rot images j x) img (extension_of img))) /\
    Z.of_nat (examined lg) = x + 1.
Proof.
  intros Hf. pose proof Hf as (Hx & Hl & Hv & Hlt). fold n in Hx.
  destruct (scan_found st_size images prevJ j Hn (length images) 0 None x img)
    as (lg & Hs & He); [fold n; lia | | exact Hl | exact Hv |].
  { intros x' Hx'. destruct (Hlt x' Hx') as (img' & Hi). exists img'.
    split; [exact Hi|]. apply rot_not_prevJ. lia. }
  fold n in Hs. rewrite get_image_locals_eq, Hs. cbn [fst snd].
  eexists; split; [reflexivity|].
  rewrite examined_app.
  change (examined [_; _; _]) with 0%nat. lia.
Qed.

(** With [prevJ] a valid index and no passing candidate, the call raises
    after it has examined every candidate once. *)
Lemma get_image_locals_none_valid :
  0 <= prevJ < n ->
  (forall img, img ∈ images -> valid_image st_size img = false) ->
  exists lg,
    get_image_locals st_size images channel_id db =
      (lg, Raise (GenericError "No Valid Images Found" 999)) /\
    examined lg = length images.
Proof.
  intros Hp Hall.
  assert (Hinv : forall x, exists img, invalid_at st_size images j x img).
  { intros x.
    destruct (lookup_in_range images (rot images j x)) as [img Hl];
      [apply rot_range; exact Hn|].
    exists img. split; [exact Hl|]. apply Hall.
    apply list_elem_of_lookup. eauto. }
  destruct (Hinv (n - 1)) as (img & Hi).
  destruct (scan_raises st_size images prevJ j Hn (length images) 0 None (n - 1) img)
    as (lg & Hs & He); [fold n; lia | | exact Hi | |].
  { intros x' Hx'. destruct (Hinv x') as (img' & Hi'). exists img'.
    split; [exact Hi'|]. apply rot_not_prevJ. lia. }
  { unfold j, n in Hp, Hn |- *. apply rot_back; lia. }
  fold n in Hs. rewrite get_image_locals_eq, Hs. cbn [fst snd].
  eexists; split; [reflexivity|].
  rewrite examined_app.
  change (examined [_; _; _]) with 0%nat. unfold n in He. lia.
Qed.

(** With [prevJ] outside the index range (as the value 20 that
    [channel_setup] writes is for a list of at most 20 candidates) and no
    passing candidate, the loop runs to exhaustion: the call returns the
    last candidate of the rotation although it fails the filter. *)
Lemma get_image_locals_none_valid_out_of_range :
  ~ 0 <= prevJ < n ->
  (forall img, img ∈ images -> valid_image st_size img = false) ->
  exists lg img,
    get_image_locals st_size images channel_id db =
      (lg, Ok (hset db key "prevJ" (FInt j),
               Locals (rot images j (n - 1)) img (extension_of img))) /\
    img ∈ images /\ valid_image st_size img = false /\
    examined lg = length images.
Proof.
  intros Hp Hall.
  destruct (scan_exhausted st_size images prevJ j Hn (length images) 0 None)
    as (lg & r & Hs & He & _ & Hr).
  { intros x' Hx'.
    destruct (lookup_in_range images (rot images j x')) as [img Hl];
      [apply rot_range; exact Hn|].
    exists img. split.
    - split; [exact Hl|]. apply Hall. apply list_elem_of_lookup. eauto.
    - intros Heq. apply Hp. rewrite <- Heq. apply rot_range. exact Hn. }
  destruct Hr as (img & Hi & ->); [unfold n in Hn; lia|].
  fold n in Hs. rewrite get_image_locals_eq, Hs. cbn [fst snd].
  exists ([InfoL "images: " images; InfoZ "prevJ: " prevJ; InfoZ "j: " j] ++ lg), img.
  fold n. replace (0 + n - 1) with (n - 1) by lia.
  split; [reflexivity|]. destruct Hi as [Hl Hv].
  split; [apply list_elem_of_lookup; eauto|]. split; [exact Hv|].
  rewrite examined_app. change (examined [_; _; _]) with 0%nat. lia.
Qed.
End GetImage.

Lemma hget_hset db key fld v : hget (hset db key fld v) key fld = Some v.
Proof.
  unfold hget, hset. rewrite lookup_insert_eq. cbn. apply lookup_insert_eq.
Qed.

(** Two candidates at different indices pass the filter. *)
Definition two_valid (st_size : string -> Z) (images : list string) : Prop :=
  exists (i1 i2 : nat) img1 img2,
    i1 <> i2 /\ images !! i1 = Some img1 /\ images !! i2 = Some img2 /\
    valid_image st_size img1 = true /\ valid_image st_size img2 = true.

(** Two calls in a row on the same list, the second on the store the first
    left, do not stop at the same index. *)
Definition never_repeats (st_size : string -> Z) (images : list string)
    (channel_id : string) (db : gmap string (gmap string field)) : Prop :=
  forall lg1 db1 v1 lg2 db2 v2,
    get_image_locals st_size images channel_id db = (lg1, Ok (db1, v1)) ->
    get_image_locals st_size images channel_id db1 = (lg2, Ok (db2, v2)) ->
    y v1 <> y v2.

(** A call returns the first passing candidate of the rotation and leaves
    the index of that candidate as [prevJ]. *)
Definition persists_selected (st_size : string -> Z) (images : list string)
    (channel_id : string) (db : gmap string (gmap string field)) : Prop :=
  forall prevJ,
    hget db ("channel:" +:+ channel_id) "prevJ" = Some (FInt prevJ) ->
    let j := (prevJ + 1) mod Z.of_nat (length images) in
    exists lg db' x img,
      first_valid_at st_size images j x img /\
      get_image_locals st_size images channel_id db =
        (lg, Ok (db', Locals (rot images j x) img (extension_of img))) /\
      hget db' ("channel:" +:+ channel_id) "prevJ" = Some (FInt (rot images j x)).

(** What a call returned, without the store, and the outcome of a second
    call on the store the first call left. *)
Definition answer (r : result (gmap string (gmap string field) * (string * string)))
  : option (string * string) :=
  match r with
  | Ok (_, a) => Some a
  | Raise _ => None
  end.

Definition second_call (st_size : string -> Z) (images : list string)
    (channel_id : string) (db : gmap string (gmap string field))
  : result (gmap string (gmap string field) * (string * string)) :=
  match (get_image st_size images channel_id db).2 with
  | Ok (db1, _) => (get_image st_size images channel_id db1).2
  | Raise e => Raise e
  end.

(** Sizes of the files used in the examples below: [a.txt] is small but not
    an image, [big.jpg] is an image of 5,000,000 bytes, any other file has
    100 bytes. *)
Definition example_sizes (path : string) : Z :=
  if String.eqb path "a.txt" then 10
  else if String.eqb path "big.jpg" then 5000000
  else 100.

(** A channel as [channel_setup] leaves it: [prevJ] is 20. *)
Definition fresh_channel : gmap string (gmap string field) :=
  channel_setup "7" ∅.

Section TwoCalls.
Variable st_size : string -> Z.
Variable images : list string.
Variable channel_id : string.
Variable db : gmap string (gmap string field).
Variable prevJ : Z.

Let n := Z.of_nat (length images).
Let j := (prevJ + 1) mod n.
Let j2 := (j + 1) mod n.
Let key := "channel:" +:+ channel_id.

Hypothesis Htwo : two_valid st_size images.
Hypothesis Hdb : hget db key "prevJ" = Some (FInt prevJ).

Lemma two_valid_length : 2 <= n.
Proof.
  destruct Htwo as (i1 & i2 & a & b & Hne & H1 & H2 & _).
  apply lookup_lt_Some in H1, H2. unfold n. lia.
Qed.

Lemma two_valid_other i :
  exists (i' : nat) img, i' <> i /\ images !! i' = Some img /\
                         valid_image st_size img = true.
Proof.
  destruct Htwo as (i1 & i2 & a & b & Hne & H1 & H2 & Ha & Hb).
  destruct (Nat.eq_dec i1 i) as [->|Hi].
  - exists i2, b. split; [congruence|]. split; assumption.
  - exists i1, a. split; [exact Hi|]. split; assumption.
Qed.

Lemma first_valid_next x img :
  first_valid_at st_size images j x img -> 0 < x ->
  first_valid_at st_size images j2 (x - 1) img.
Proof.
  pose proof two_valid_length as Hlen.
  assert (Hn : 0 < Z.of_nat (length images)) by (unfold n in Hlen; lia).
  intros (Hx & Hl & Hv & Hlt) Hpos. unfold j2, n.
  split; [lia|]. rewrite !(rot_succ images Hn).
  replace (x - 1 + 1) with x by lia.
  split; [exact Hl|]. split; [exact Hv|].
  intros x' Hx'. rewrite (rot_succ images Hn). apply Hlt. lia.
Qed.

(** What two calls in a row return: the same index exactly when the
    candidate at the start [j] of the first scan fails the filter. *)
Lemma get_image_locals_twice :
  exists lg1 v1 lg2 v2 img_j,
    get_image_locals st_size images channel_id db =
      (lg1, Ok (hset db key "prevJ" (FInt j), v1)) /\
    get_image_locals st_size images channel_id (hset db key "prevJ" (FInt j)) =
      (lg2, Ok (hset (hset db key "prevJ" (FInt j)) key "prevJ" (FInt j2), v2)) /\
    images !! Z.to_nat (y v1) = Some (image_link v1) /\
    images !! Z.to_nat (y v2) = Some (image_link v2) /\
    images !! Z.to_nat j = Some img_j /\
    (y v1 <> y v2 <-> valid_image st_size img_j = true).
Proof.
  pose proof two_valid_length as Hlen.
  assert (Hn : 0 < Z.of_nat (length images)) by (unfold n in Hlen; lia).
  assert (Hsome : exists i img, images !! i = Some img /\ valid_image st_size img = true).
  { destruct (two_valid_other 0) as (i & img & _ & H). eauto. }
  destruct (first_valid_exists st_size images Hn j Hsome) as (x1 & img1 & Hf1).
  destruct (first_valid_exists st_size images Hn j2 Hsome) as (x2 & img2 & Hf2).
  destruct (get_image_locals_found st_size images channel_id db prevJ Hn Hdb x1 img1 Hf1)
    as (lg1 & Hc1 & _).
  destruct (get_image_locals_found st_size images channel_id
              (hset db key "prevJ" (FInt j)) j Hn (hget_hset _ _ _ _) x2 img2 Hf2)
    as (lg2 & Hc2 & _).
  assert (Hj : 0 <= j < n) by (apply Z.mod_pos_bound; exact Hn).
  assert (Hrot0 : rot images j 0 = j).
  { unfold rot. fold n. rewrite Z.add_0_l. apply Z.mod_small. exact Hj. }
  destruct (lookup_in_range images j Hj) as [img_j Hlj].
  exists lg1, (Locals (rot images j x1) img1 (extension_of img1)),
         lg2, (Locals (rot images j2 x2) img2 (extension_of img2)), img_j.
  split; [exact Hc1|]. split; [exact Hc2|].
  split; [apply Hf1|]. split; [apply Hf2|]. split; [exact Hlj|].
  cbn [y].
  destruct (valid_image st_size img_j) eqn:Hvj.
  - (* the candidate at [j] passes: the first call stops there, the second
       call finds another passing candidate before it is back at [j] *)
    split; [reflexivity|]. intros _.
    assert (x1 = 0) as ->.
    { destruct Hf1 as (Hx1 & _ & _ & Hlt1).
      destruct (Z.eq_dec x1 0) as [|Hne]; [assumption|].
      destruct (Hlt1 0) as (img' & Hl' & Hv'); [lia|].
      rewrite Hrot0, Hlj in Hl'. congruence. }
    rewrite Hrot0. intros Heq. symmetry in Heq.
    destruct Hf2 as (Hx2 & _ & _ & Hlt2).
    unfold j2, n in Heq. apply rot_back in Heq; [|exact Hn|exact Hj|exact Hx2].
    destruct (two_valid_other (Z.to_nat j)) as (i & img & Hne & Hli & Hvi).
    assert (Hi : 0 <= Z.of_nat i < Z.of_nat (length images)).
    { apply lookup_lt_Some in Hli. lia. }
    destruct (rot_surj images Hn j2 _ Hi) as (xi & Hxi & Hroti).
    destruct (Z.eq_dec xi (Z.of_nat (length images) - 1)) as [Hlast|Hnl].
    + assert (Hback : rot images j2 xi = j).
      { unfold j2, n. apply rot_back; assumption. }
      rewrite Hroti in Hback. apply Hne. lia.
    + destruct (Hlt2 xi) as (img' & Hl' & Hv'); [lia|].
      rewrite Hroti, Nat2Z.id, Hli in Hl'. congruence.
  - (* the candidate at [j] fails: both calls stop at the same candidate *)
    split; [|discriminate]. intros Hne. exfalso. apply Hne.
    assert (Hpos : 0 < x1).
    { pose proof Hf1 as (Hx1 & Hl1 & Hv1 & _).
      destruct (Z.eq_dec x1 0) as [->|]; [|lia].
      rewrite Hrot0, Hlj in Hl1. congruence. }
    pose proof (first_valid_next x1 img1 Hf1 Hpos) as Hf2'.
    destruct (first_valid_unique st_size images Hn j2 _ _ _ _ Hf2 Hf2') as [-> _].
    unfold j2, n. rewrite (rot_succ images Hn). f_equal. lia.
Qed.
End TwoCalls.

Lemma get_image_of_locals st_size images channel_id db lg db' v :
  get_image_locals st_size images channel_id db = (lg, Ok (db', v)) ->
  get_image st_size images channel_id db =
    (lg, Ok (db', (image_link v, extension v))).
Proof. intros H. unfold get_image. rewrite H. reflexivity. Qed.

(** With [prevJ] a valid index, whatever the call returns passes the
    filter. *)
Lemma get_image_valid_in_range st_size images channel_id db prevJ lg db' v :
  hget db ("channel:" +:+ channel_id) "prevJ" = Some (FInt prevJ) ->
  0 <= prevJ < Z.of_nat (length images) ->
  get_image_locals st_size images channel_id db = (lg, Ok (db', v)) ->
  valid_image st_size (image_link v) = true.
Proof.
  intros Hdb Hp Hcall.
  assert (Hn : 0 < Z.of_nat (length images)) by lia.
  set (j := (prevJ + 1) mod Z.of_nat (length images)).
  destruct (least_offset st_size images j (length images))
    as [Hnone|(x & Hx & Hv & Hlt)].
  - destruct (get_image_locals_none_valid st_size images channel_id db prevJ Hn Hdb Hp)
      as (lg' & Hr & _); [|congruence].
    intros img Hin. apply list_elem_of_lookup in Hin as [i Hi].
    assert (Hir : 0 <= Z.of_nat i < Z.of_nat (length images)).
    { apply lookup_lt_Some in Hi. lia. }
    destruct (rot_surj images Hn j _ Hir) as (xi & Hxi & Hrot).
    specialize (Hnone xi Hxi). unfold valid_at in Hnone.
    rewrite Hrot, Nat2Z.id, Hi in Hnone. exact Hnone.
  - destruct (proj1 (valid_at_true st_size images j x) Hv) as (img & Hl & Hvi).
    assert (Hf : first_valid_at st_size images j x img).
    { apply first_valid_at_iff; [exact Hn|]. tauto. }
    destruct (get_image_locals_found st_size images channel_id db prevJ Hn Hdb x img Hf)
      as (lg' & Hr & _).
    rewrite Hr in Hcall. injection Hcall as _ _ <-. exact Hvi.
Qed.

(** ** The properties of the selector *)

(** C1 (as the code has it).  On a list with two passing candidates, two
    calls in a row both return; they return different rotation indices
    exactly when the candidate at the start index [j = (prevJ + 1) mod len]
    of the first call passes the filter.  The first call stores [j], not the
    index it selected, so when the candidate at [j] fails the filter the
    second call returns the same candidate again. *)
Theorem get_image_twice_distinct_iff st_size images channel_id db prevJ :
  two_valid st_size images ->
  hget db ("channel:" +:+ channel_id) "prevJ" = Some (FInt prevJ) ->
  let j := (prevJ + 1) mod Z.of_nat (length images) in
  exists lg1 db1 v1 lg2 db2 v2 img_j,
    get_image_locals st_size images channel_id db = (lg1, Ok (db1, v1)) /\
    get_image st_size images channel_id db =
      (lg1, Ok (db1, (image_link v1, extension v1))) /\
    get_image_locals st_size images channel_id db1 = (lg2, Ok (db2, v2)) /\
    get_image st_size images channel_id db1 =
      (lg2, Ok (db2, (image_link v2, extension v2))) /\
    images !! Z.to_nat (y v1) = Some (image_link v1) /\
    images !! Z.to_nat (y v2) = Some (image_link v2) /\
    images !! Z.to_nat j = Some img_j /\
    (y v1 <> y v2 <-> valid_image st_size img_j = true).
Proof.
  intros Htwo Hdb j.
  destruct (get_image_locals_twice st_size images channel_id db prevJ Htwo Hdb)
    as (lg1 & v1 & lg2 & v2 & img_j & H1 & H2 & Hl1 & Hl2 & Hlj & Hiff).
  eexists lg1, _, v1, lg2, _, v2, img_j.
  split; [exact H1|]. split; [apply get_image_of_locals; exact H1|].
  split; [exact H2|]. split; [apply get_image_of_locals; exact H2|].
  repeat split; try assumption; apply Hiff.
Qed.

Lemma get_image_twice_distinct_iff_witness :
  two_valid example_sizes ["a.jpg"; "b.png"] /\
  hget fresh_channel ("channel:" +:+ "7") "prevJ" = Some (FInt 20) /\
  exists lg1 db1 v1 lg2 db2 v2 img_j,
    get_image_locals example_sizes ["a.jpg"; "b.png"] "7" fresh_channel
      = (lg1, Ok (db1, v1)) /\
    get_image example_sizes ["a.jpg"; "b.png"] "7" fresh_channel
      = (lg1, Ok (db1, (image_link v1, extension v1))) /\
    get_image_locals example_sizes ["a.jpg"; "b.png"] "7" db1 = (lg2, Ok (db2, v2)) /\
    get_image example_sizes ["a.jpg"; "b.png"] "7" db1
      = (lg2, Ok (db2, (image_link v2, extension v2))) /\
    ["a.jpg"; "b.png"] !! Z.to_nat (y v1) = Some (image_link v1) /\
    ["a.jpg"; "b.png"] !! Z.to_nat (y v2) = Some (image_link v2) /\
    ["a.jpg"; "b.png"] !! Z.to_nat 1 = Some img_j /\
    (y v1 <> y v2 <-> valid_image example_sizes img_j = true).
Proof.
  assert (Htwo : two_valid example_sizes ["a.jpg"; "b.png"]).
  { exists 0%nat, 1%nat, "a.jpg", "b.png".
    repeat split; first [lia | vm_compute; reflexivity]. }
  assert (Hdb : hget fresh_channel ("channel:" +:+ "7") "prevJ" = Some (FInt 20)).
  { vm_compute. reflexivity. }
  split; [exact Htwo|]. split; [exact Hdb|].
  exact (get_image_twice_distinct_iff example_sizes ["a.jpg"; "b.png"] "7"
           fresh_channel 20 Htwo Hdb).
Defined.

(** The claim of C1 fails on a fresh channel: of three candidates the first
    is not an image and the other two pass; both calls return the second. *)
Lemma get_image_repeats_candidate :
  two_valid example_sizes ["a.txt"; "b.png"; "c.jpg"] /\
  answer (get_image example_sizes ["a.txt"; "b.png"; "c.jpg"] "7" fresh_channel).2
    = Some ("b.png", "png") /\
  answer (second_call example_sizes ["a.txt"; "b.png"; "c.jpg"] "7" fresh_channel)
    = Some ("b.png", "png") /\
  ~ never_repeats example_sizes ["a.txt"; "b.png"; "c.jpg"] "7" fresh_channel.
Proof.
  assert (Htwo : two_valid example_sizes ["a.txt"; "b.png"; "c.jpg"]).
  { exists 1%nat, 2%nat, "b.png", "c.jpg".
    repeat split; first [lia | vm_compute; reflexivity]. }
  split; [exact Htwo|].
  split; [vm_compute; reflexivity|]. split; [vm_compute; reflexivity|].
  intros H.
  assert (Hdb : hget fresh_channel ("channel:" +:+ "7") "prevJ" = Some (FInt 20))
    by (vm_compute; reflexivity).
  destruct (get_image_locals_twice example_sizes ["a.txt"; "b.png"; "c.jpg"] "7"
              fresh_channel 20 Htwo Hdb)
    as (lg1 & v1 & lg2 & v2 & img_j & E1 & E2 & _ & _ & Hlj & Hiff).
  (* the scan of the first call starts at index 21 mod 3 = 0, at [a.txt] *)
  change (["a.txt"; "b.png"; "c.jpg"] !! 0%nat = Some img_j) in Hlj.
  injection Hlj as <-.
  pose proof (proj1 Hiff (H _ _ _ _ _ _ E1 E2)) as Hv.
  vm_compute in Hv. discriminate Hv.
Qed.

(** C2 (as the code has it).  On a non-empty list with a passing candidate
    the call returns the first passing candidate in rotation order from
    [j = (prevJ + 1) mod len], and stores the start index [j] as the new
    [prevJ]; [j] is the index of the returned candidate exactly when the
    candidate at [j] itself passes (offset 0). *)
Theorem get_image_first_valid_stores_start st_size images channel_id db prevJ :
  images <> [] ->
  hget db ("channel:" +:+ channel_id) "prevJ" = Some (FInt prevJ) ->
  (exists img, img ∈ images /\ valid_image st_size img = true) ->
  let j := (prevJ + 1) mod Z.of_nat (length images) in
  exists lg db' x img,
    first_valid_at st_size images j x img /\
    get_image_locals st_size images channel_id db =
      (lg, Ok (db', Locals (rot images j x) img (extension_of img))) /\
    get_image st_size images channel_id db = (lg, Ok (db', (img, extension_of img))) /\
    db' = hset db ("channel:" +:+ channel_id) "prevJ" (FInt j) /\
    hget db' ("channel:" +:+ channel_id) "prevJ" = Some (FInt j) /\
    (j = rot images j x <-> x = 0).
Proof.
  intros Hne Hdb (img0 & Hin & Hv0) j.
  assert (Hn : 0 < Z.of_nat (length images)).
  { destruct images; [congruence | cbn; lia]. }
  apply list_elem_of_lookup in Hin as [i Hi].
  destruct (first_valid_exists st_size images Hn j) as (x & img & Hf); [eauto|].
  destruct (get_image_locals_found st_size images channel_id db prevJ Hn Hdb x img Hf)
    as (lg & Hcall & _).
  exists lg, (hset db ("channel:" +:+ channel_id) "prevJ" (FInt j)), x, img.
  split; [exact Hf|]. split; [exact Hcall|].
  split; [apply (get_image_of_locals _ _ _ _ _ _ _ Hcall)|].
  split; [reflexivity|]. split; [apply hget_hset|].
  assert (Hj : 0 <= j < Z.of_nat (length images)) by (apply Z.mod_pos_bound; exact Hn).
  assert (Hrot0 : rot images j 0 = j).
  { unfold rot. rewrite Z.add_0_l. apply Z.mod_small. exact Hj. }
  destruct Hf as (Hx & _). split.
  - intros Heq. rewrite <- Hrot0 in Heq at 1.
    symmetry. apply (rot_inj images Hn j 0 x); [lia | exact Hx | exact Heq].
  - intros ->. symmetry. exact Hrot0.
Qed.

Lemma get_image_first_valid_stores_start_witness :
  ["a.txt"; "b.png"; "c.jpg"] <> [] /\
  hget fresh_channel ("channel:" +:+ "7") "prevJ" = Some (FInt 20) /\
  (exists img, img ∈ ["a.txt"; "b.png"; "c.jpg"] /\
               valid_image example_sizes img = true) /\
  exists lg db' x img,
    first_valid_at example_sizes ["a.txt"; "b.png"; "c.jpg"] 0 x img /\
    get_image_locals example_sizes ["a.txt"; "b.png"; "c.jpg"] "7" fresh_channel =
      (lg, Ok (db', Locals (rot ["a.txt"; "b.png"; "c.jpg"] 0 x) img (extension_of img))) /\
    get_image example_sizes ["a.txt"; "b.png"; "c.jpg"] "7" fresh_channel =
      (lg, Ok (db', (img, extension_of img))) /\
    db' = hset fresh_channel ("channel:" +:+ "7") "prevJ" (FInt 0) /\
    hget db' ("channel:" +:+ "7") "prevJ" = Some (FInt 0) /\
    (0 = rot ["a.txt"; "b.png"; "c.jpg"] 0 x <-> x = 0).
Proof.
  assert (Hne : ["a.txt"; "b.png"; "c.jpg"] <> []) by discriminate.
  assert (Hdb : hget fresh_channel ("channel:" +:+ "7") "prevJ" = Some (FInt 20)).
  { vm_compute. reflexivity. }
  assert (Hv : exists img, img ∈ ["a.txt"; "b.png"; "c.jpg"] /\
                           valid_image example_sizes img = true).
  { exists "c.jpg". split; [|vm_compute; reflexivity].
    apply list_elem_of_lookup. exists 2%nat. reflexivity. }
  split; [exact Hne|]. split; [exact Hdb|]. split; [exact Hv|].
  exact (get_image_first_valid_stores_start example_sizes
           ["a.txt"; "b.png"; "c.jpg"] "7" fresh_channel 20 Hne Hdb Hv).
Defined.

(** The claim of C2 fails on a fresh channel: the scan starts at index 0,
    returns the candidate at index 1 and stores 0. *)
Lemma get_image_stores_start_not_selected :
  (exists img, img ∈ ["a.txt"; "b.png"; "c.jpg"] /\
               valid_image example_sizes img = true) /\
  ~ persists_selected example_sizes ["a.txt"; "b.png"; "c.jpg"] "7" fresh_channel.
Proof.
  split.
  { exists "b.png". split; [|vm_compute; reflexivity].
    apply list_elem_of_lookup. exists 1%nat. reflexivity. }
  intros H.
  destruct (H 20) as (lg & db' & x & img & _ & Hcall & Hget);
    [vm_compute; reflexivity|].
  set (r := rot _ _ x) in Hcall, Hget. clearbody r.
  assert (Hrun : get_image_locals example_sizes ["a.txt"; "b.png"; "c.jpg"] "7"
                   fresh_channel
                 = ([InfoL "images: " ["a.txt"; "b.png"; "c.jpg"];
                     InfoZ "prevJ: " 20; InfoZ "j: " 0;
                     InfoS "extension: " "txt"; InfoZ "size: " 10;
                     InfoS "extension: " "png"; InfoZ "size: " 100;
                     Info "found one!"],
                    Ok (hset fresh_channel "channel:7" "prevJ" (FInt 0),
                        Locals 1 "b.png" "png"))).
  { vm_compute. reflexivity. }
  rewrite Hrun in Hcall. injection Hcall as _ <- Hy _ _.
  rewrite <- Hy in Hget. rewrite hget_hset in Hget. discriminate.
Qed.

(** C3 (defect).  On a fresh channel ([prevJ] is 20) and a list whose only
    candidate is not an image, the call returns that candidate: the test
    [y == prevJ] that guards the exception is never true when [prevJ] is not
    an index of the list, and the loop ends by exhaustion. *)
Theorem get_image_returns_invalid_candidate :
  get_image example_sizes ["a.txt"] "7" fresh_channel =
    ([InfoL "images: " ["a.txt"]; InfoZ "prevJ: " 20; InfoZ "j: " 0;
      InfoS "extension: " "txt"; InfoZ "size: " 10],
     Ok (hset fresh_channel "channel:7" "prevJ" (FInt 0), ("a.txt", "txt"))) /\
  valid_image example_sizes "a.txt" = false /\
  passes "txt" 10 = false.
Proof. repeat split; vm_compute; reflexivity. Qed.

(** C4 (defect).  On a fresh channel and a list of two candidates neither of
    which passes the filter, the call examines both and returns normally
    with the last one examined; no exception is raised. *)
Theorem get_image_no_valid_returns_normally :
  (forall img, img ∈ ["a.txt"; "big.jpg"] -> valid_image example_sizes img = false) /\
  get_image example_sizes ["a.txt"; "big.jpg"] "7" fresh_channel =
    ([InfoL "images: " ["a.txt"; "big.jpg"]; InfoZ "prevJ: " 20; InfoZ "j: " 1;
      InfoS "extension: " "jpg"; InfoZ "size: " 5000000;
      InfoS "extension: " "txt"; InfoZ "size: " 10],
     Ok (hset fresh_channel "channel:7" "prevJ" (FInt 1), ("a.txt", "txt"))) /\
  examined (get_image example_sizes ["a.txt"; "big.jpg"] "7" fresh_channel).1 = 2%nat.
Proof.
  split.
  - intros img Hin. apply list_elem_of_In in Hin.
    destruct Hin as [<-|[<-|[]]]; vm_compute; reflexivity.
  - split; vm_compute; reflexivity.
Qed.

End CoreProps.


(** * Properties of the retrying fetcher *)

Module FetchProps.
Import Core.

#[global] Instance log_entry_eq_dec : EqDecision log_entry.
Proof. solve_decision. Defined.

(** The listing attempts and the repository syncs among the log entries, in
    the order they happened. *)
Definition attempts_and_syncs (lg : list log_entry) : list log_entry :=
  filter (fun e => e = Info "trying" \/ e = Info "syncing github") lg.

(** The number of calls of [download_github]. *)
Definition syncs (lg : list log_entry) : nat :=
  length (filter (fun e => e = Info "syncing github") lg).

Section Fetcher.
Context {world : Type}.
Variable listdir : world -> string -> option (list string).
Variable get_category : string -> string.
Variables _clone _pull : world -> world.
Variable download_dir : string.
Variable str_lower : string -> string.

Local Abbreviation download_github := (Core.download_github listdir _clone _pull download_dir).
Local Abbreviation get_files :=
  (Core.get_files listdir get_category _clone _pull download_dir str_lower).

(** The state one [download_github] leaves. *)
Definition sync (w : world) : world := (download_github w).2.

(** Listing fails in [w] for a call handed [item]: the directory the call
    builds, that of [item] lower-cased, is missing or has no entry.  A call
    hands the lower-cased item to the retry, which lower-cases it again: the
    call after [k] retries is handed [Nat.iter k str_lower item]. *)
Definition listing_fails (w : world) (item : string) : Prop :=
  listdir w (directory_of get_category (str_lower item)) = None \/
  listdir w (directory_of get_category (str_lower item)) = Some [].

Lemma download_github_events w :
  attempts_and_syncs (download_github w).1 = [Info "syncing github"] /\
  syncs (download_github w).1 = 1%nat.
Proof.
  unfold Core.download_github. destruct (listdir w _); split; reflexivity.
Qed.

Lemma try_listing_fails w item :
  listing_fails w item ->
  exists lg,
    try_listing listdir w (directory_of get_category (str_lower item)) = (lg, None) /\
    attempts_and_syncs lg = [Info "trying"] /\ syncs lg = 0%nat.
Proof.
  unfold try_listing. intros [H|H]; rewrite H; eexists; split;
    try reflexivity; split; reflexivity.
Qed.

Lemma attempts_and_syncs_app l1 l2 :
  attempts_and_syncs (l1 ++ l2) = attempts_and_syncs l1 ++ attempts_and_syncs l2.
Proof. apply filter_app. Qed.

Lemma syncs_app l1 l2 : syncs (l1 ++ l2) = (syncs l1 + syncs l2)%nat.
Proof. unfold syncs. rewrite filter_app, length_app. reflexivity. Qed.

(** A failed attempt with retries left: one sync, then the next attempt. *)
Lemma get_files_retry item retries w :
  listing_fails w item -> retries < 3 ->
  exists lg,
    let r := get_files (str_lower item) (retries + 1) (sync w) in
    get_files item retries w = (lg ++ r.1.1, r.1.2, r.2) /\
    attempts_and_syncs lg = [Info "trying"; Info "syncing github"] /\
    syncs lg = 1%nat.
Proof.
  intros Hf Hr. destruct (try_listing_fails w item Hf) as (lg & Ht & Ha & Hs).
  rewrite (get_files_equation_1 listdir get_category _clone _pull download_dir
             str_lower item retries w), Ht. simp get_files.
  destruct (Z_lt_dec retries 3) as [Hlt|]; [|lia]. simp get_files.
  destruct (download_github_events w) as [Hda Hds].
  exists ([InfoZ "get_files retries: " retries] ++ lg
            ++ [Info "fetching files"; InfoS "item: " (str_lower item)]
            ++ (download_github w).1).
  cbv zeta. split; [|split].
  - unfold sync. rewrite <- !app_assoc. reflexivity.
  - rewrite !attempts_and_syncs_app, Ha, Hda. reflexivity.
  - rewrite !syncs_app, Hs, Hds. reflexivity.
Qed.

(** A failed attempt with no retry left: the empty list, no sync. *)
Lemma get_files_give_up item retries w :
  listing_fails w item -> ~ retries < 3 ->
  exists lg,
    get_files item retries w = (lg, w, []) /\
    attempts_and_syncs lg = [Info "trying"] /\ syncs lg = 0%nat.
Proof.
  intros Hf Hr. destruct (try_listing_fails w item Hf) as (lg & Ht & Ha & Hs).
  rewrite (get_files_equation_1 listdir get_category _clone _pull download_dir
             str_lower item retries w), Ht. simp get_files.
  destruct (Z_lt_dec retries 3) as [Hlt|]; [lia|]. simp get_files.
  eexists; split; [reflexivity|]. split.
  - rewrite !attempts_and_syncs_app, Ha. reflexivity.
  - rewrite !syncs_app, Hs. reflexivity.
Qed.

(** C7.  When the listing fails at every attempt (in the initial state and
    after each of the syncs, each time for the directory the code builds
    there: that of the item as lower-cased by the calls so far, whatever
    [str.lower] is), [get_files] called with [retries = 0] makes four
    attempts with one sync after each of the first three, so exactly three
    syncs, and returns the empty list. *)
Theorem get_files_exhausts_retries item w :
  (forall k : nat, (k <= 3)%nat ->
     listing_fails (Nat.iter k sync w) (Nat.iter k str_lower item)) ->
  exists lg,
    get_files item 0 w = (lg, Nat.iter 3 sync w, []) /\
    syncs lg = 3%nat /\
    attempts_and_syncs lg =
      [Info "trying"; Info "syncing github";
       Info "trying"; Info "syncing github";
       Info "trying"; Info "syncing github";
       Info "trying"].
Proof.
  intros Hall.
  destruct (get_files_retry item 0 w (Hall 0%nat ltac:(lia)) ltac:(lia))
    as (lg0 & E0 & A0 & S0).
  destruct (get_files_retry (str_lower item) 1 (sync w)
              (Hall 1%nat ltac:(lia)) ltac:(lia)) as (lg1 & E1 & A1 & S1).
  destruct (get_files_retry (str_lower (str_lower item)) 2 (sync (sync w))
              (Hall 2%nat ltac:(lia)) ltac:(lia)) as (lg2 & E2 & A2 & S2).
  destruct (get_files_give_up (str_lower (str_lower (str_lower item))) 3
              (sync (sync (sync w))) (Hall 3%nat ltac:(lia)) ltac:(lia))
    as (lg3 & E3 & A3 & S3).
  cbv zeta in E0, E1, E2.
  change (0 + 1) with 1 in E0. change (1 + 1) with 2 in E1.
  change (2 + 1) with 3 in E2.
  rewrite E3 in E2. rewrite E2 in E1. rewrite E1 in E0. cbn [fst snd] in E0.
  exists (lg0 ++ lg1 ++ lg2 ++ lg3). split; [exact E0|]. split.
  - rewrite !syncs_app, S0, S1, S2, S3. reflexivity.
  - rewrite !attempts_and_syncs_app, A0, A1, A2, A3. reflexivity.
Qed.

End Fetcher.

(** A disk on which no directory exists: the sync counter is the state. *)
Lemma get_files_exhausts_retries_witness :
  (forall k : nat, (k <= 3)%nat ->
     listing_fails (fun (_ : nat) (_ : string) => None) (fun _ => "birds") lower
       (Nat.iter k (sync (fun (_ : nat) (_ : string) => None) S S "github_download") 0%nat)
       (Nat.iter k lower "Blue Jay")) /\
  exists lg,
    get_files (fun (_ : nat) (_ : string) => None) (fun _ => "birds") S S
      "github_download" lower "Blue Jay" 0 0%nat
      = (lg, Nat.iter 3 (sync (fun (_ : nat) (_ : string) => None) S S "github_download") 0%nat,
         []) /\
    syncs lg = 3%nat /\
    attempts_and_syncs lg =
      [Info "trying"; Info "syncing github";
       Info "trying"; Info "syncing github";
       Info "trying"; Info "syncing github";
       Info "trying"].
Proof.
  assert (H : forall k : nat, (k <= 3)%nat ->
     listing_fails (fun (_ : nat) (_ : string) => None) (fun _ => "birds") lower
       (Nat.iter k (sync (fun (_ : nat) (_ : string) => None) S S "github_download") 0%nat)
       (Nat.iter k lower "Blue Jay")).
  { intros k _. left. reflexivity. }
  split; [exact H|].
  exact (get_files_exhausts_retries (fun (_ : nat) (_ : string) => None)
           (fun _ => "birds") S S "github_download" lower "Blue Jay" 0%nat H).
Defined.

End FetchProps.


(** * Properties of the push tasks *)

Module GitProps.
Import GitTasks.

(** ** The binary rendering *)

(** The [n] low bits of [w], most significant first. *)
Fixpoint bits (n : nat) (w : Z) : string :=
  match n with
  | O => ""
  | S n' => String (if Z.testbit w (Z.of_nat n') then "1" else "0")%char (bits n' w)
  end.

(** The names of a table whose bits are set in [w]: the entry with [k]
    entries after it stands for bit [k]. *)
Fixpoint names_from (table : list string) (w : Z) : list string :=
  match table with
  | [] => []
  | name :: rest =>
      (if Z.testbit w (Z.of_nat (length rest)) then [name] else [])
        ++ names_from rest w
  end.

Lemma append_cons c (s t : string) : String c s +:+ t = String c (s +:+ t).
Proof. reflexivity. Qed.

Lemma append_empty (t : string) : "" +:+ t = t.
Proof. reflexivity. Qed.

Lemma length_bits n w : String.length (bits n w) = n.
Proof. induction n as [|n IH]; [reflexivity|]. cbn. rewrite IH. reflexivity. Qed.

Lemma length_zeros n : String.length (zeros n) = n.
Proof. induction n as [|n IH]; [reflexivity|]. cbn. rewrite IH. reflexivity. Qed.

Lemma length_append (s t : string) :
  String.length (s +:+ t) = (String.length s + String.length t)%nat.
Proof.
  induction s as [|c s IH]; [reflexivity|].
  rewrite append_cons. cbn. rewrite IH. reflexivity.
Qed.

Lemma bits_snoc n w :
  bits (S n) w =
  bits n (Z.shiftr w 1) +:+ String (if Z.testbit w 0 then "1" else "0")%char "".
Proof.
  induction n as [|n IH]; [reflexivity|].
  change (bits (S (S n)) w)
    with (String (if Z.testbit w (Z.of_nat (S n)) then "1" else "0")%char (bits (S n) w)).
  rewrite IH. cbn [bits]. rewrite append_cons. f_equal.
  rewrite Z.shiftr_spec by lia.
  replace (Z.of_nat n + 1) with (Z.of_nat (S n)) by lia. reflexivity.
Qed.

Lemma bin_pos_bits p : bin_pos p = bits (Pos.size_nat p) (Zpos p).
Proof.
  induction p as [p IH|p IH|]; [| |reflexivity].
  - cbn [bin_pos Pos.size_nat]. rewrite bits_snoc, IH. reflexivity.
  - cbn [bin_pos Pos.size_nat]. rewrite bits_snoc, IH. reflexivity.
Qed.

Lemma pos_lt_pow_size p : Zpos p < 2 ^ Z.of_nat (Pos.size_nat p).
Proof.
  induction p as [p IH|p IH|]; cbn [Pos.size_nat];
    rewrite ?Nat2Z.inj_succ, ?Z.pow_succ_r by lia; lia.
Qed.

Lemma size_le_of_lt_pow p : forall n : nat,
  Zpos p < 2 ^ Z.of_nat n -> (Pos.size_nat p <= n)%nat.
Proof.
  induction p as [p IH|p IH|]; intros [|n] H; cbn [Pos.size_nat];
    try (cbn in H; lia);
    rewrite Nat2Z.inj_succ, Z.pow_succ_r in H by lia.
  - apply le_n_S, IH. lia.
  - apply le_n_S, IH. lia.
Qed.

Lemma size_gt_of_ge_pow p : forall n : nat,
  2 ^ Z.of_nat n <= Zpos p -> (n < Pos.size_nat p)%nat.
Proof.
  intros n H. pose proof (pos_lt_pow_size p) as Hp.
  destruct (Nat.lt_ge_cases n (Pos.size_nat p)) as [|Hge]; [assumption|].
  assert (2 ^ Z.of_nat (Pos.size_nat p) <= 2 ^ Z.of_nat n)
    by (apply Z.pow_le_mono_r; lia).
  lia.
Qed.

Lemma testbit_high w (k : nat) n :
  0 <= w < 2 ^ Z.of_nat k -> Z.of_nat k <= n -> Z.testbit w n = false.
Proof.
  intros [H0 H1] Hn.
  destruct (Z.eq_dec w 0) as [->|Hne]; [apply Z.bits_0|].
  apply Z.bits_above_log2; [exact H0|].
  assert (Z.log2 w < Z.of_nat k) by (apply Z.log2_lt_pow2; lia). lia.
Qed.

Lemma bits_high (n k : nat) w :
  0 <= w < 2 ^ Z.of_nat k -> bits (n + k) w = zeros n +:+ bits k w.
Proof.
  intros Hw. induction n as [|n IH]; [reflexivity|].
  cbn [Nat.add bits zeros]. rewrite append_cons, IH.
  rewrite (testbit_high w k) by (exact Hw || lia). reflexivity.
Qed.

Lemma bits_zero n : bits n 0 = zeros n.
Proof.
  induction n as [|n IH]; [reflexivity|].
  cbn [bits zeros]. rewrite IH, Z.bits_0. reflexivity.
Qed.

Lemma zeros_snoc n : zeros n +:+ "0" = zeros (S n).
Proof.
  induction n as [|n IH]; [reflexivity|].
  cbn [zeros]. rewrite append_cons, IH. reflexivity.
Qed.

(** Within [n] bits the padded rendering is the [n] bits of the word. *)
Lemma format_0b_bits (n : nat) w :
  (0 < n)%nat -> 0 <= w < 2 ^ Z.of_nat n -> format_0b n w = bits n w.
Proof.
  intros Hn [H0 H1]. unfold format_0b. destruct w as [|p|p]; [| |lia].
  - cbn [format_b String.length]. destruct n as [|n]; [lia|].
    replace (S n - 1)%nat with n by lia. rewrite zeros_snoc, bits_zero. reflexivity.
  - cbn [format_b]. rewrite bin_pos_bits, length_bits.
    pose proof (size_le_of_lt_pow p n H1) as Hs.
    replace n with ((n - Pos.size_nat p) + Pos.size_nat p)%nat at 2 by lia.
    rewrite bits_high; [reflexivity|]. split; [lia | apply pos_lt_pow_size].
Qed.

(** From [2^n] on the rendering has more than [n] digits. *)
Lemma format_0b_long (n : nat) w :
  2 ^ Z.of_nat n <= w -> (n < String.length (format_0b n w))%nat.
Proof.
  intros H. assert (0 < 2 ^ Z.of_nat n) by (apply Z.pow_pos_nonneg; lia).
  destruct w as [|p|p]; [lia| |lia].
  unfold format_0b. cbn [format_b].
  rewrite length_append, length_zeros, bin_pos_bits, length_bits.
  pose proof (size_gt_of_ge_pow p n H). lia.
Qed.

(** ** Decoding against a table *)

Lemma int_of_char_bit (b : bool) :
  int_of_char (if b then "1" else "0")%char = Ok (if b then 1 else 0).
Proof. destruct b; reflexivity. Qed.

Lemma py_index_middle {A} (pre : list A) x rest :
  py_index (pre ++ x :: rest) (Z.of_nat (length pre)) = Some x.
Proof.
  rewrite CoreProps.py_index_nonneg by (rewrite length_app; cbn; lia).
  rewrite Nat2Z.id. apply list_lookup_middle. reflexivity.
Qed.

Lemma py_index_past {A} (l : list A) i :
  Z.of_nat (length l) <= i -> py_index l i = None.
Proof.
  intros H. unfold py_index.
  destruct (Z.ltb_spec i (Z.of_nat (length l))); [lia|].
  rewrite andb_false_r.
  destruct (Z.ltb_spec i 0); [lia|]. rewrite andb_false_r. reflexivity.
Qed.

(** The loop of [_push_helper] on the bits of [w], from the position where
    [rest] starts in the table. *)
Lemma decode_flags_bits w : forall rest pre set_flags,
  GIT_PUSHINFO_FLAGS = pre ++ rest ->
  decode_flags (Z.of_nat (length pre)) (bits (length rest) w) set_flags =
    Ok (set_flags ++ names_from rest w).
Proof.
  induction rest as [|name rest IH]; intros pre set_flags Htab.
  - cbn. rewrite app_nil_r. reflexivity.
  - cbn [length bits decode_flags names_from].
    rewrite int_of_char_bit. cbn [mbind result_bind].
    assert (Htab' : GIT_PUSHINFO_FLAGS = (pre ++ [name]) ++ rest)
      by (rewrite <- app_assoc; exact Htab).
    assert (Hlen : Z.of_nat (length pre) + 1 = Z.of_nat (length (pre ++ [name])))
      by (rewrite length_app; cbn; lia).
    assert (Hpy : py_index GIT_PUSHINFO_FLAGS (Z.of_nat (length pre)) = Some name)
      by (rewrite Htab; apply py_index_middle).
    destruct (Z.testbit w (Z.of_nat (length rest))).
    + change (1 =? 0) with false. cbv iota. rewrite Hpy.
      rewrite Hlen, (IH _ _ Htab'), <- app_assoc. reflexivity.
    + change (0 =? 0) with true. cbv iota.
      rewrite Hlen, (IH _ _ Htab'). reflexivity.
Qed.

Lemma diff_none_some (name : string) (s : gset (option string)) :
  ({[ Some name ]} ∪ s) ∖ {[ None ]} = {[ Some name ]} ∪ s ∖ {[ None ]}.
Proof. set_solver. Qed.

Lemma diff_none_none (s : gset (option string)) :
  ({[ None ]} ∪ s) ∖ {[ None ]} = s ∖ {[ None ]}.
Proof. set_solver. Qed.

(** The comprehension of [wrapped_progress] on the bits of [w]: without
    [None], the set of the names whose bits are set. *)
Lemma opcode_comprehension_bits w : forall rest pre,
  GIT_PUSH_OPCODES = pre ++ rest ->
  exists s,
    opcode_comprehension (Z.of_nat (length pre)) (bits (length rest) w) = Ok s /\
    s ∖ {[ None ]} = list_to_set (Some <$> names_from rest w).
Proof.
  induction rest as [|name rest IH]; intros pre Htab.
  - exists ∅. split; [reflexivity|]. cbn. apply difference_disjoint_L.
    apply disjoint_empty_l.
  - cbn [length bits opcode_comprehension names_from].
    rewrite int_of_char_bit. cbn [mbind result_bind].
    assert (Htab' : GIT_PUSH_OPCODES = (pre ++ [name]) ++ rest)
      by (rewrite <- app_assoc; exact Htab).
    assert (Hlen : Z.of_nat (length pre) + 1 = Z.of_nat (length (pre ++ [name])))
      by (rewrite length_app; cbn; lia).
    assert (Hpy : py_index GIT_PUSH_OPCODES (Z.of_nat (length pre)) = Some name)
      by (rewrite Htab; apply py_index_middle).
    destruct (IH _ Htab') as (s & Hs & Hset).
    destruct (Z.testbit w (Z.of_nat (length rest))).
    + change (1 =? 0) with false. cbv iota. rewrite Hpy. cbn [mbind result_bind].
      rewrite Hlen, Hs. eexists; split; [reflexivity|].
      rewrite diff_none_some, Hset. reflexivity.
    + change (0 =? 0) with true. cbv iota. cbn [mbind result_bind].
      rewrite Hlen, Hs. eexists; split; [reflexivity|].
      rewrite diff_none_none, Hset. reflexivity.
Qed.

(** Membership in [names_from]: the entry at index [i] of an [m]-entry
    table is listed when bit [m - 1 - i] is set. *)
Lemma elem_of_names_from table w name :
  name ∈ names_from table w <->
  exists i : nat, table !! i = Some name /\
                  Z.testbit w (Z.of_nat (length table) - 1 - Z.of_nat i) = true.
Proof.
  induction table as [|x rest IH].
  - cbn. split; [intros H; inversion H | intros (i & H & _); destruct i; discriminate].
  - cbn [names_from]. rewrite elem_of_app, IH. split.
    + intros [H|(i & Hi & Hb)].
      * destruct (Z.testbit w (Z.of_nat (length rest))) eqn:Hb;
          [|inversion H].
        apply list_elem_of_singleton in H as ->. exists 0%nat.
        split; [reflexivity|].
        replace (Z.of_nat (length (x :: rest)) - 1 - Z.of_nat 0)
          with (Z.of_nat (length rest)) by (cbn [length]; lia).
        exact Hb.
      * exists (S i). split; [exact Hi|].
        replace (Z.of_nat (length (x :: rest)) - 1 - Z.of_nat (S i))
          with (Z.of_nat (length rest) - 1 - Z.of_nat i) by (cbn [length]; lia).
        exact Hb.
    + intros ([|i] & Hi & Hb).
      * left. injection Hi as ->.
        replace (Z.of_nat (length (name :: rest)) - 1 - Z.of_nat 0)
          with (Z.of_nat (length rest)) in Hb by (cbn [length]; lia).
        rewrite Hb. apply list_elem_of_singleton. reflexivity.
      * right. exists i. split; [exact Hi|].
        replace (Z.of_nat (length (x :: rest)) - 1 - Z.of_nat (S i))
          with (Z.of_nat (length rest) - 1 - Z.of_nat i) in Hb by (cbn [length]; lia).
        exact Hb.
Qed.

Lemma names_from_sublist table w : names_from table w `sublist_of` table.
Proof.
  induction table as [|x rest IH]; [constructor|].
  cbn [names_from]. destruct (Z.testbit w _); cbn.
  - apply sublist_skip, IH.
  - apply sublist_cons, IH.
Qed.

Lemma names_from_zero table : names_from table 0 = [].
Proof.
  induction table as [|x rest IH]; [reflexivity|].
  cbn [names_from]. rewrite Z.bits_0, IH. reflexivity.
Qed.

(** Decoding a word of at most 11 bits. *)
Lemma decode_flags_word w :
  0 <= w < 2 ^ 11 ->
  decode_flags 0 (format_0b 11 w) [] = Ok (names_from GIT_PUSHINFO_FLAGS w).
Proof.
  intros Hw. rewrite (format_0b_bits 11 w) by (lia || exact Hw).
  exact (decode_flags_bits w GIT_PUSHINFO_FLAGS [] [] eq_refl).
Qed.

(** Decoding an opcode mask of at most 9 bits. *)
Lemma opcode_comprehension_word w :
  0 <= w < 2 ^ 9 ->
  exists s,
    opcode_comprehension 0 (format_0b 9 w) = Ok s /\
    s ∖ {[ None ]} = list_to_set (Some <$> names_from GIT_PUSH_OPCODES w).
Proof.
  intros Hw. rewrite (format_0b_bits 9 w) by (lia || exact Hw).
  exact (opcode_comprehension_bits w GIT_PUSH_OPCODES [] eq_refl).
Qed.

(** ** The push helper *)

Section Helper.
Variable git : repo -> string -> world -> git_outcome.

Lemma push_helper_no_entries r msg (w : world) :
  push_result (git r msg w) = [] ->
  _push_helper git r msg None w = (w, Ok None).
Proof.
  intros H. unfold _push_helper, mbind, M_bind, get_world, mret, M_ret.
  rewrite H. reflexivity.
Qed.

Lemma push_helper_first_entry r msg (w : world) flags rest set_flags :
  push_result (git r msg w) = flags :: rest ->
  decode_flags 0 (format_0b 11 flags) [] = Ok set_flags ->
  (_push_helper git r msg None w).2 = Ok (Some set_flags).
Proof.
  intros H Hd.
  unfold _push_helper, mbind, M_bind, get_world, mret, M_ret, lift, logger.
  rewrite H. change (py_index (flags :: rest) 0) with (Some flags).
  change (Z.of_nat (length (flags :: rest)) =? 0) with false.
  cbv iota. rewrite Hd. reflexivity.
Qed.

Lemma py_index_elem {A} (l : list A) i x : py_index l i = Some x -> x ∈ l.
Proof.
  unfold py_index. intros H. apply list_elem_of_lookup.
  destruct (_ && _); [eauto|]. destruct (_ && _); [eauto|discriminate].
Qed.

Lemma decode_flags_elem digits : forall i set_flags l,
  decode_flags i digits set_flags = Ok l ->
  forall x, x ∈ l -> x ∈ set_flags \/ x ∈ GIT_PUSHINFO_FLAGS.
Proof.
  induction digits as [|c digits IH]; intros i set_flags l H x Hx.
  - injection H as <-. left. exact Hx.
  - cbn [decode_flags] in H. destruct (int_of_char c) as [b|]; [|discriminate].
    cbn [mbind result_bind] in H. destruct (b =? 0).
    + exact (IH _ _ _ H x Hx).
    + destruct (py_index GIT_PUSHINFO_FLAGS i) as [name|] eqn:Hpy; [|discriminate].
      destruct (IH _ _ _ H x Hx) as [Hin|Hin]; [|right; exact Hin].
      apply elem_of_app in Hin as [Hin|Hin]; [left; exact Hin|].
      apply list_elem_of_singleton in Hin as ->. right.
      exact (py_index_elem _ _ _ Hpy).
Qed.

(** Whatever the callback and the outcome of the remote operations, the
    names the helper returns are names of the flag table. *)
Lemma push_helper_flags_in_table r msg progress (w w1 : world) flags :
  _push_helper git r msg progress w = (w1, Ok (Some flags)) ->
  forall x, x ∈ flags -> x ∈ GIT_PUSHINFO_FLAGS.
Proof.
  unfold _push_helper, mbind, M_bind, get_world, mret, M_ret, lift, logger, raise.
  intros H x Hx.
  repeat case_match; try discriminate.
  all: match goal with
       | Heq : (_, Ok (Some _)) = (_, _) |- _ => injection Heq as _ <-
       end.
  all: match goal with
       | Hd : decode_flags _ _ [] = Ok _ |- _ =>
           destruct (decode_flags_elem _ _ _ _ Hd x Hx) as [Hin|Hin];
             [inversion Hin | exact Hin]
       end.
Qed.

(** The helper returns [None] exactly when the push gave no result entry. *)
Lemma push_helper_none_iff r msg progress (w w1 : world) res :
  _push_helper git r msg progress w = (w1, Ok res) ->
  res = None <-> push_result (git r msg w) = [].
Proof.
  unfold _push_helper, mbind, M_bind, get_world, mret, M_ret, lift, logger, raise.
  intros H.
  repeat case_match; try discriminate.
  all: match goal with
       | Heq : (_, Ok _) = (_, Ok _) |- _ => injection Heq as _ <-
       end.
  all: match goal with
       | Hlen : (Z.of_nat (length ?l) =? 0) = _ |- _ =>
           destruct l; cbn in Hlen; try discriminate; try lia
       end.
  all: split; congruence.
Qed.

End Helper.

(** C5.  The flag word of the first result entry, when it has at most 11
    bits, decodes to exactly the names of the table whose bits are set, in
    the order of the table: the entry at index [i] for bit [10 - i].  The
    word 0 gives the empty list, which the helper returns as [Some []]; a
    push with no result entry gives [None]. *)
Theorem push_helper_decodes_set_flags
    (git : repo -> string -> world -> git_outcome) r msg (w : world) flags rest :
  0 <= flags < 2 ^ 11 ->
  push_result (git r msg w) = flags :: rest ->
  decode_flags 0 (format_0b 11 flags) [] = Ok (names_from GIT_PUSHINFO_FLAGS flags) /\
  (_push_helper git r msg None w).2 = Ok (Some (names_from GIT_PUSHINFO_FLAGS flags)) /\
  (forall name,
     name ∈ names_from GIT_PUSHINFO_FLAGS flags <->
     exists i : nat, GIT_PUSHINFO_FLAGS !! i = Some name /\
                     Z.testbit flags (10 - Z.of_nat i) = true) /\
  (flags = 0 -> (_push_helper git r msg None w).2 = Ok (Some [])) /\
  (forall w' : world, push_result (git r msg w') = [] ->
                      (_push_helper git r msg None w').2 = Ok None) /\
  Some (@nil string) <> None.
Proof.
  intros Hw Hres. pose proof (decode_flags_word flags Hw) as Hd.
  split; [exact Hd|].
  split; [exact (push_helper_first_entry git r msg w flags rest _ Hres Hd)|].
  split; [intros name; rewrite elem_of_names_from; reflexivity|].
  split.
  - intros ->. rewrite (push_helper_first_entry git r msg w 0 rest _ Hres Hd).
    rewrite names_from_zero. reflexivity.
  - split; [|discriminate].
    intros w' H'. rewrite (push_helper_no_entries git r msg w' H'). reflexivity.
Qed.

(** The remote reports FAST_FORWARD and NEW_HEAD (256 + 2) for one entry. *)
Definition example_git (r : repo) (msg : string) (w : world) : git_outcome :=
  GitOutcome [] [258].

Definition empty_world : world :=
  World (Redis ∅ ∅ ∅ ∅) ∅ [] 0 1600000000 [].

Lemma push_helper_decodes_set_flags_witness :
  0 <= 258 < 2 ^ 11 /\
  push_result (example_git verify_repo "update" empty_world) = [258] /\
  decode_flags 0 (format_0b 11 258) [] = Ok (names_from GIT_PUSHINFO_FLAGS 258) /\
  (_push_helper example_git verify_repo "update" None empty_world).2
    = Ok (Some (names_from GIT_PUSHINFO_FLAGS 258)) /\
  (forall name,
     name ∈ names_from GIT_PUSHINFO_FLAGS 258 <->
     exists i : nat, GIT_PUSHINFO_FLAGS !! i = Some name /\
                     Z.testbit 258 (10 - Z.of_nat i) = true) /\
  (258 = 0 -> (_push_helper example_git verify_repo "update" None empty_world).2
              = Ok (Some [])) /\
  (forall w' : world, push_result (example_git verify_repo "update" w') = [] ->
     (_push_helper example_git verify_repo "update" None w').2 = Ok None) /\
  Some (@nil string) <> None.
Proof.
  assert (Hw : 0 <= 258 < 2 ^ 11) by lia.
  assert (Hr : push_result (example_git verify_repo "update" empty_world) = [258])
    by reflexivity.
  split; [exact Hw|]. split; [exact Hr|].
  exact (push_helper_decodes_set_flags example_git verify_repo "update"
           empty_world 258 [] Hw Hr).
Defined.

(** C10.  Both decodings return for every word within the width of their
    table (11 bits for the push flags, 9 for the progress opcodes); from
    [2^11] (resp. [2^9]) on the rendering is longer than the table, and for
    some such word a set digit stands past the end of the table, where the
    lookup raises [IndexError]. *)
Theorem decoding_total_within_table_width :
  (forall w, 0 <= w < 2 ^ 11 ->
     exists l, decode_flags 0 (format_0b 11 w) [] = Ok l) /\
  (forall w, 2 ^ 11 <= w ->
     (length GIT_PUSHINFO_FLAGS < String.length (format_0b 11 w))%nat) /\
  (exists w, 2 ^ 11 <= w /\
     (length GIT_PUSHINFO_FLAGS < String.length (format_0b 11 w))%nat /\
     decode_flags 0 (format_0b 11 w) [] = Raise IndexError) /\
  (forall w, 0 <= w < 2 ^ 9 ->
     exists s, opcode_comprehension 0 (format_0b 9 w) = Ok s) /\
  (forall w, 2 ^ 9 <= w ->
     (length GIT_PUSH_OPCODES < String.length (format_0b 9 w))%nat) /\
  (exists w, 2 ^ 9 <= w /\
     (length GIT_PUSH_OPCODES < String.length (format_0b 9 w))%nat /\
     opcode_comprehension 0 (format_0b 9 w) = Raise IndexError).
Proof.
  split; [|split; [|split; [|split; [|split]]]].
  - intros w Hw. eexists. apply decode_flags_word, Hw.
  - intros w Hw. apply (format_0b_long 11 w). exact Hw.
  - exists 2049. split; [lia|]. split; [vm_compute; lia|]. reflexivity.
  - intros w Hw. destruct (opcode_comprehension_word w Hw) as (s & Hs & _).
    exists s. exact Hs.
  - intros w Hw. apply (format_0b_long 9 w). exact Hw.
  - exists 513. split; [lia|]. split; [vm_compute; lia|]. reflexivity.
Qed.

(** ** The progress callback *)

(** The dictionary [wrapped_progress] writes, for the set the comprehension
    built. *)
Definition progress_data (coded : gset (option string)) (ev : progress_event)
  : gmap string field :=
  {[ "op_code" := FJson (JList (omap id (elements (coded ∖ {[ None ]}))));
     "cur_count" := FJson (cur_count ev);
     "max_count" := FJson (max_count ev);
     "message" := FJson (JStr (message ev)) ]}.

Lemma wrapped_progress_run randint user_id ev (w : world) :
  match opcode_comprehension 0 (format_0b 9 (op_code ev)) with
  | Raise e => wrapped_progress randint user_id ev w = (w, Raise e)
  | Ok coded =>
      (wrapped_progress randint user_id ev w).2 = Ok tt /\
      db (wrapped_progress randint user_id ev w).1 =
        hset_mapping (status_key user_id) (progress_data coded ev) (db w)
  end.
Proof.
  unfold wrapped_progress, mbind, M_bind, lift, with_db, random_randint, logger,
    mret, M_ret.
  destruct (opcode_comprehension 0 (format_0b 9 (op_code ev))) as [coded|e];
    [|reflexivity].
  cbn [db]. destruct (_ || _); split; reflexivity.
Qed.

Lemma omap_id_fmap_Some {A} (l : list A) : omap id (Some <$> l) = l.
Proof. induction l as [|x l IH]; [reflexivity|]. cbn. rewrite IH. reflexivity. Qed.

Lemma NoDup_opcodes : NoDup GIT_PUSH_OPCODES.
Proof. apply (bool_decide_unpack _). vm_compute. reflexivity. Qed.

(** The list written for a mask of at most 9 bits holds the names whose
    bits are set, each once, in the order the set iterates. *)
Lemma progress_names (w : Z) (coded : gset (option string)) :
  coded ∖ {[ None ]} = list_to_set (Some <$> names_from GIT_PUSH_OPCODES w) ->
  omap id (elements (coded ∖ {[ None ]})) ≡ₚ names_from GIT_PUSH_OPCODES w.
Proof.
  intros ->. rewrite elements_list_to_set.
  - rewrite omap_id_fmap_Some. reflexivity.
  - apply (NoDup_fmap_2 _).
    exact (sublist_NoDup _ _ NoDup_opcodes (names_from_sublist _ _)).
Qed.

(** What [hset(key, mapping=m)] leaves in the store: the record under [key]
    has every field of [m], and its other fields as before; every other
    record is as before. *)
Lemma hset_mapping_lookup key (m : gmap string field) r :
  exists h,
    hashes (hset_mapping key m r) !! key = Some h /\
    (forall fld v, m !! fld = Some v -> h !! fld = Some v) /\
    (forall fld, m !! fld = None ->
       h !! fld = default ∅ (hashes r !! key) !! fld) /\
    (forall key', key' <> key ->
       hashes (hset_mapping key m r) !! key' = hashes r !! key').
Proof.
  exists (m ∪ default ∅ (hashes r !! key)). cbn [hset_mapping hashes].
  split; [apply lookup_insert_eq|]. split; [|split].
  - intros fld v H. apply lookup_union_Some_l, H.
  - intros fld H. apply lookup_union_r, H.
  - intros key' Hne. apply lookup_insert_ne. congruence.
Qed.

(** C9.  The callback writes the same store and ends the same way whatever
    [random.randint] returns; for a mask of at most 9 bits it returns, and
    then the status record of the user exists and reads, under [op_code],
    the decoded opcode names (each name whose bit is set, once), and under
    [cur_count], [max_count] and [message] the counters and the message of
    the call; the other fields of that record, the other records and the
    rest of the store are as before. *)
Theorem wrapped_progress_write_ignores_draw
    (randint randint' : nat -> Z) user_id ev (w : world) :
  (db (wrapped_progress randint user_id ev w).1 =
     db (wrapped_progress randint' user_id ev w).1 /\
   (wrapped_progress randint user_id ev w).2 =
     (wrapped_progress randint' user_id ev w).2) /\
  (0 <= op_code ev < 2 ^ 9 ->
   exists names h,
     names ≡ₚ names_from GIT_PUSH_OPCODES (op_code ev) /\
     (wrapped_progress randint user_id ev w).2 = Ok tt /\
     hashes (db (wrapped_progress randint user_id ev w).1) !! status_key user_id
       = Some h /\
     h !! "op_code" = Some (FJson (JList names)) /\
     h !! "cur_count" = Some (FJson (cur_count ev)) /\
     h !! "max_count" = Some (FJson (max_count ev)) /\
     h !! "message" = Some (FJson (JStr (message ev))) /\
     (forall fld, fld ∉ ["op_code"; "cur_count"; "max_count"; "message"] ->
        h !! fld = default ∅ (hashes (db w) !! status_key user_id) !! fld) /\
     (forall key, key <> status_key user_id ->
        hashes (db (wrapped_progress randint user_id ev w).1) !! key
        = hashes (db w) !! key) /\
     zsets (db (wrapped_progress randint user_id ev w).1) = zsets (db w) /\
     values (db (wrapped_progress randint user_id ev w).1) = values (db w) /\
     expires (db (wrapped_progress randint user_id ev w).1) = expires (db w)).
Proof.
  pose proof (wrapped_progress_run randint user_id ev w) as H1.
  pose proof (wrapped_progress_run randint' user_id ev w) as H2.
  split.
  - destruct (opcode_comprehension 0 (format_0b 9 (op_code ev))) as [coded|e].
    + destruct H1 as [-> ->], H2 as [-> ->]. split; reflexivity.
    + rewrite H1, H2. split; reflexivity.
  - intros Hw. destruct (opcode_comprehension_word _ Hw) as (coded & Hc & Hset).
    rewrite Hc in H1. destruct H1 as [Hr Hdb].
    destruct (hset_mapping_lookup (status_key user_id) (progress_data coded ev) (db w))
      as (h & Hh & Hin & Hout & Hother).
    exists (omap id (elements (coded ∖ {[ None ]}))), h.
    split; [exact (progress_names _ _ Hset)|]. split; [exact Hr|].
    rewrite Hdb. split; [exact Hh|].
    split; [apply Hin; reflexivity|]. split; [apply Hin; reflexivity|].
    split; [apply Hin; reflexivity|]. split; [apply Hin; reflexivity|].
    split; [|split; [exact Hother | repeat split; reflexivity]].
    intros fld Hfld. apply Hout. unfold progress_data.
    rewrite !not_elem_of_cons in Hfld. destruct Hfld as (F1 & F2 & F3 & F4 & _).
    rewrite !lookup_insert_ne by congruence. apply lookup_singleton_ne. congruence.
Qed.

(** ** The push task *)

Lemma bind_run {A B} (m : M A) (k : A -> M B) (w w1 : world) a :
  m w = (w1, Ok a) -> (m ≫= k) w = k a w1.
Proof. intros H. unfold mbind, M_bind. rewrite H. reflexivity. Qed.

Lemma bind_raise {A B} (m : M A) (k : A -> M B) (w w1 : world) e :
  m w = (w1, Raise e) -> (m ≫= k) w = (w1, Raise e).
Proof. intros H. unfold mbind, M_bind. rewrite H. reflexivity. Qed.

Lemma status_key_ne_save_key user_id : status_key user_id <> save_key user_id.
Proof. unfold status_key, save_key. intros H. discriminate H. Qed.

Lemma hashes_expire key t r : hashes (expire key t r) = hashes r.
Proof. unfold expire. destruct (exists_key key r); reflexivity. Qed.

Lemma zsets_expire key t r : zsets (expire key t r) = zsets r.
Proof. unfold expire. destruct (exists_key key r); reflexivity. Qed.

Lemma values_expire key t r : values (expire key t r) = values r.
Proof. unfold expire. destruct (exists_key key r); reflexivity. Qed.

Lemma expires_expire_hash key t r h :
  hashes r !! key = Some h -> expires (expire key t r) !! key = Some t.
Proof.
  intros H. unfold expire, exists_key. rewrite H.
  rewrite bool_decide_eq_true_2 by eauto. cbn. apply lookup_insert_eq.
Qed.

(** The store [push] leaves, from the store [w1] the helper left. *)
Definition pushed_db (user_id : string) (status : list string) (w1 : world) : redis :=
  expire (status_key user_id) 60
    (delete_key (save_key user_id)
       (hset_mapping (status_key user_id)
          {[ "status" := FJson (JList status); "end" := FInt (clock w1) ]} (db w1))).

Lemma push_run git randint msg user_id (w w1 : world) r :
  _push_helper git verify_repo msg (Some (gen_progress randint user_id))
    (logger (Info "pushing!") w).1 = (w1, Ok r) ->
  (push git randint msg user_id w).2 = Ok tt /\
  db (push git randint msg user_id w).1 =
    pushed_db user_id (match r with None => ["FAIL"] | Some flags => flags end) w1.
Proof.
  intros H. unfold push.
  rewrite (bind_run (logger (Info "pushing!")) _ w _ tt eq_refl).
  rewrite (bind_run _ _ _ _ _ H).
  destruct r as [flags|]; split; reflexivity.
Qed.

Lemma FAIL_not_a_flag : "FAIL" ∉ GIT_PUSHINFO_FLAGS.
Proof. apply (bool_decide_unpack _). vm_compute. reflexivity. Qed.

(** C8.  When the helper returns [r], the task returns and the status record
    of the user holds [["FAIL"]] if [r] is [None] and the decoded flag names
    otherwise (which are never [["FAIL"]]), with the time of the end; the
    save key of the user is gone and the status record expires in 60
    seconds. *)
Theorem push_records_outcome
    (git : repo -> string -> world -> git_outcome) (randint : nat -> Z)
    msg user_id (w w1 : world) r :
  _push_helper git verify_repo msg (Some (gen_progress randint user_id))
    (logger (Info "pushing!") w).1 = (w1, Ok r) ->
  (push git randint msg user_id w).2 = Ok tt /\
  (exists h,
     hashes (db (push git randint msg user_id w).1) !! status_key user_id = Some h /\
     h !! "status" =
       Some (FJson (JList (match r with None => ["FAIL"] | Some flags => flags end))) /\
     h !! "end" = Some (FInt (clock w1))) /\
  (match r with None => ["FAIL"] | Some flags => flags end = ["FAIL"] <-> r = None) /\
  (r = None <->
   push_result (git verify_repo msg (logger (Info "pushing!") w).1) = []) /\
  hashes (db (push git randint msg user_id w).1) !! save_key user_id = None /\
  zsets (db (push git randint msg user_id w).1) !! save_key user_id = None /\
  values (db (push git randint msg user_id w).1) !! save_key user_id = None /\
  expires (db (push git randint msg user_id w).1) !! save_key user_id = None /\
  expires (db (push git randint msg user_id w).1) !! status_key user_id = Some 60.
Proof.
  intros H. destruct (push_run git randint msg user_id w w1 r H) as [Hr Hdb].
  pose proof (status_key_ne_save_key user_id) as Hne.
  set (status := match r with None => ["FAIL"] | Some flags => flags end) in *.
  set (m := ({[ "status" := FJson (JList status); "end" := FInt (clock w1) ]}
             : gmap string field)).
  assert (Hh : hashes (delete_key (save_key user_id)
                 (hset_mapping (status_key user_id) m (db w1))) !! status_key user_id
               = Some (m ∪ default ∅ (hashes (db w1) !! status_key user_id))).
  { cbn [delete_key hset_mapping hashes].
    rewrite lookup_delete_ne by congruence. apply lookup_insert_eq. }
  split; [exact Hr|]. rewrite Hdb. unfold pushed_db. fold m.
  split; [|split; [|split; [|split; [|split; [|split; [|split]]]]]].
  - eexists. rewrite hashes_expire. split; [exact Hh|].
    split; apply lookup_union_Some_l; reflexivity.
  - split.
    + intros Hs. destruct r as [flags|]; [|reflexivity]. exfalso.
      apply FAIL_not_a_flag.
      apply (push_helper_flags_in_table git _ _ _ _ _ _ H).
      subst status. cbn in Hs. rewrite Hs. apply list_elem_of_here.
    + intros ->. reflexivity.
  - exact (push_helper_none_iff git _ _ _ _ _ _ H).
  - rewrite hashes_expire. cbn [delete_key hashes]. apply lookup_delete_eq.
  - rewrite zsets_expire. cbn [delete_key zsets]. apply lookup_delete_eq.
  - rewrite values_expire. cbn [delete_key values]. apply lookup_delete_eq.
  - unfold expire. destruct (exists_key _ _); cbn [expires delete_key].
    + rewrite lookup_insert_ne by exact Hne. apply lookup_delete_eq.
    + apply lookup_delete_eq.
  - exact (expires_expire_hash _ _ _ _ Hh).
Qed.

(** A store with a pending upload of user 42, and a generator that never
    draws 1. *)
Definition pending_world : world :=
  World (Redis ∅ ∅ {[ "sciolyid.upload.save:42" := "pending" ]} ∅)
        ∅ [] 0 1600000000 [].

Lemma push_records_outcome_witness :
  _push_helper example_git verify_repo "update"
    (Some (gen_progress (fun _ => 4) "42"))
    (logger (Info "pushing!") pending_world).1
  = ((_push_helper example_git verify_repo "update"
        (Some (gen_progress (fun _ => 4) "42"))
        (logger (Info "pushing!") pending_world).1).1,
     Ok (Some ["FAST_FORWARD"; "NEW_HEAD"])) /\
  (push example_git (fun _ => 4) "update" "42" pending_world).2 = Ok tt /\
  (exists h,
     hashes (db (push example_git (fun _ => 4) "update" "42" pending_world).1)
       !! status_key "42" = Some h /\
     h !! "status" = Some (FJson (JList ["FAST_FORWARD"; "NEW_HEAD"])) /\
     h !! "end" =
       Some (FInt (clock (_push_helper example_git verify_repo "update"
                            (Some (gen_progress (fun _ => 4) "42"))
                            (logger (Info "pushing!") pending_world).1).1))) /\
  (["FAST_FORWARD"; "NEW_HEAD"] = ["FAIL"] <->
   Some ["FAST_FORWARD"; "NEW_HEAD"] = None) /\
  (Some ["FAST_FORWARD"; "NEW_HEAD"] = None <->
   push_result (example_git verify_repo "update"
                  (logger (Info "pushing!") pending_world).1) = []) /\
  hashes (db (push example_git (fun _ => 4) "update" "42" pending_world).1)
    !! save_key "42" = None /\
  zsets (db (push example_git (fun _ => 4) "update" "42" pending_world).1)
    !! save_key "42" = None /\
  values (db (push example_git (fun _ => 4) "update" "42" pending_world).1)
    !! save_key "42" = None /\
  expires (db (push example_git (fun _ => 4) "update" "42" pending_world).1)
    !! save_key "42" = None /\
  expires (db (push example_git (fun _ => 4) "update" "42" pending_world).1)
    !! status_key "42" = Some 60.
Proof.
  assert (H : _push_helper example_git verify_repo "update"
                (Some (gen_progress (fun _ => 4) "42"))
                (logger (Info "pushing!") pending_world).1
              = ((_push_helper example_git verify_repo "update"
                    (Some (gen_progress (fun _ => 4) "42"))
                    (logger (Info "pushing!") pending_world).1).1,
                 Ok (Some ["FAST_FORWARD"; "NEW_HEAD"]))).
  { vm_compute. reflexivity. }
  split; [exact H|].
  exact (push_records_outcome example_git (fun _ => 4) "update" "42"
           pending_world _ _ H).
Defined.

(** ** The verification reconciler *)

(** The identifiers the pass deletes and the identifiers voted valid, as the
    task reads them from a store. *)
Definition delete_set (r : redis) : gset string :=
  list_to_set (zrangebyscore "sciolyid.verify.images:invalid" 3 r
               ++ zrangebyscore "sciolyid.verify.images:duplicate" 3 r).

Definition valid_set (r : redis) : gset string :=
  list_to_set (zrangebyscore "sciolyid.verify.images:valid" 3 r).

(** The votes of an image in a sorted set. *)
Definition votes (key image : string) (r : redis) : option Z :=
  default ∅ (zsets r !! key) !! image.

Lemma elem_of_zrangebyscore key lo r image :
  image ∈ zrangebyscore key lo r <->
  exists score, votes key image r = Some score /\ lo <= score.
Proof.
  unfold zrangebyscore, votes. rewrite list_elem_of_fmap. split.
  - intros ([i sc] & -> & Hin). apply elem_of_map_to_list in Hin.
    apply map_lookup_filter_Some in Hin as [Hl Hp]. exists sc. split; assumption.
  - intros (sc & Hl & Hp). exists (image, sc). split; [reflexivity|].
    apply elem_of_map_to_list, map_lookup_filter_Some. split; assumption.
Qed.

Lemma elem_of_valid_set r image :
  image ∈ valid_set r <->
  exists score, votes "sciolyid.verify.images:valid" image r = Some score /\ 3 <= score.
Proof. unfold valid_set. rewrite elem_of_list_to_set. apply elem_of_zrangebyscore. Qed.

Lemma elem_of_delete_set r image :
  image ∈ delete_set r <->
  (exists score, votes "sciolyid.verify.images:invalid" image r = Some score /\ 3 <= score) \/
  (exists score, votes "sciolyid.verify.images:duplicate" image r = Some score /\ 3 <= score).
Proof.
  unfold delete_set. rewrite elem_of_list_to_set, elem_of_app,
    !elem_of_zrangebyscore. reflexivity.
Qed.

Lemma zrangebyscore_zrem_ne key key' lo lo' r :
  key <> key' ->
  zrangebyscore key lo (zremrangebyscore key' lo' r) = zrangebyscore key lo r.
Proof.
  intros Hne. unfold zrangebyscore, zremrangebyscore.
  destruct (bool_decide _); cbn [zsets].
  - rewrite lookup_delete_ne by congruence. reflexivity.
  - rewrite lookup_insert_ne by congruence. reflexivity.
Qed.

(** Two states with the same files and the same file operations. *)
Definition same_disk (w w' : world) : Prop :=
  files w' = files w /\ ops w' = ops w.

Lemma same_disk_refl w : same_disk w w.
Proof. split; reflexivity. Qed.

Lemma same_disk_trans w1 w2 w3 :
  same_disk w1 w2 -> same_disk w2 w3 -> same_disk w1 w3.
Proof. intros [H1 H2] [H3 H4]. split; congruence. Qed.

Lemma bind_inv {A B} (m : M A) (k : A -> M B) (w w' : world) b :
  (m ≫= k) w = (w', Ok b) ->
  exists w1 a, m w = (w1, Ok a) /\ k a w1 = (w', Ok b).
Proof.
  unfold mbind, M_bind. destruct (m w) as [w1 [a|e]]; [|discriminate].
  intros H. exists w1, a. split; [reflexivity | exact H].
Qed.

Lemma logger_run e (w : world) :
  exists w', logger e w = (w', Ok tt) /\ same_disk w w' /\ db w' = db w.
Proof. eexists. split; [reflexivity|]. repeat split. Qed.

Lemma with_db_run f (w : world) :
  exists w', with_db f w = (w', Ok tt) /\ same_disk w w' /\ db w' = f (db w).
Proof. eexists. split; [reflexivity|]. repeat split. Qed.

(** The result of a push decodes: it has no entry, or the flag word of its
    first entry has at most 11 bits. *)
Definition decodable (out : git_outcome) : Prop :=
  match push_result out with
  | [] => True
  | flags :: _ => 0 <= flags < 2 ^ 11
  end.

Lemma decode_flags_raises digits : forall i set_flags e,
  decode_flags i digits set_flags = Raise e -> e = IndexError \/ e = ValueError.
Proof.
  induction digits as [|c digits IH]; intros i sf e H; [discriminate|].
  cbn [decode_flags] in H. destruct (int_of_char c) as [b|e'] eqn:Hc.
  - cbn [mbind result_bind] in H. destruct (b =? 0); [exact (IH _ _ _ H)|].
    destruct (py_index _ _); [exact (IH _ _ _ H)|]. injection H as <-. left; reflexivity.
  - cbn in H. injection H as <-. unfold int_of_char in Hc.
    destruct (_ && _); [discriminate|]. injection Hc as <-. right; reflexivity.
Qed.

Section Reconciler.
Variable git : repo -> string -> world -> git_outcome.
Variable filename_lookup : string -> gset string -> gmap string string.
Variable root : string.
Variable item_of : string -> string.
Variable get_category : string -> string.
Variable image_dir : string.
Variable path_join : string -> string -> string.

(** Where [move_one] copies the file at [path]. *)
Definition destination (path : string) : string :=
  path_join image_dir (get_category (item_of path)).

Local Abbreviation move_one :=
  (GitTasks.move_one item_of get_category image_dir path_join).
Local Abbreviation move_images :=
  (GitTasks.move_images git filename_lookup root item_of get_category
     image_dir path_join).

Lemma push_helper_same_disk r msg (w w' : world) res :
  _push_helper git r msg None w = (w', res) -> same_disk w w'.
Proof.
  unfold _push_helper, mbind, M_bind, get_world, mret, M_ret, lift, logger, raise.
  intros H. repeat case_match; try discriminate; inversion H; subst;
    split; reflexivity.
Qed.

Lemma report_same_disk name res (w w' : world) r :
  report name res w = (w', r) -> same_disk w w'.
Proof.
  unfold report, logger. intros H. destruct res; inversion H; subst;
    split; reflexivity.
Qed.

(** The loop over [delete], when it completes: every image had a path, each
    path was removed, and nothing else happened to the disk. *)
Lemma delete_loop lookup (l : list string) : forall w w' : world,
  for_each (delete_one lookup) l w = (w', Ok tt) ->
  db w' = db w /\
  exists paths,
    Forall2 (fun image path => lookup !! image = Some path) l paths /\
    ops w' = ops w ++ (Remove <$> paths) /\
    files w' = files w ∖ list_to_set paths.
Proof.
  induction l as [|image l IH]; intros w w' H.
  - injection H as <-. split; [reflexivity|]. exists []. split; [constructor|].
    split; [symmetry; apply app_nil_r|]. cbn. set_solver.
  - cbn [for_each] in H. apply bind_inv in H as (w1 & [] & Hone & Hrest).
    unfold delete_one, dict_get in Hone.
    destruct (lookup !! image) as [path|] eqn:Hl; [|discriminate].
    rewrite (bind_run _ _ w w path eq_refl) in Hone.
    unfold os_remove in Hone. case_bool_decide as Hin; [|discriminate].
    injection Hone as <-.
    destruct (IH _ _ Hrest) as (Hdb & paths & HF & Hops & Hfiles).
    cbn [db ops files] in Hdb, Hops, Hfiles.
    split; [exact Hdb|]. exists (path :: paths).
    split; [constructor; assumption|].
    split; [rewrite Hops, <- app_assoc; reflexivity|].
    rewrite Hfiles. cbn. set_solver.
Qed.

(** The loop over [valid], when it completes: files were only removed; each
    copy took an existing file, for an image that is not in [delete]; and
    every image that is not in [delete] was copied. *)
Lemma move_loop lookup (delete : gset string) (l : list string) :
  forall w w' : world,
  for_each (move_one lookup delete) l w = (w', Ok tt) ->
  db w' = db w /\ files w' ⊆ files w /\
  exists new,
    ops w' = ops w ++ new /\
    (forall src dst, Copy src dst ∈ new ->
       src ∈ files w /\
       exists image, image ∈ l /\ (image ∉ delete) /\
                     lookup !! image = Some src /\ dst = destination src) /\
    (forall image, image ∈ l -> (image ∉ delete) ->
       exists path, lookup !! image = Some path /\
                    Copy path (destination path) ∈ new).
Proof.
  induction l as [|image l IH]; intros w w' H.
  - injection H as <-. split; [reflexivity|]. split; [reflexivity|].
    exists []. split; [symmetry; apply app_nil_r|].
    split; [intros src dst Hin; inversion Hin | intros i Hin; inversion Hin].
  - cbn [for_each] in H. apply bind_inv in H as (w1 & [] & Hone & Hrest).
    destruct (IH _ _ Hrest) as (Hdb & Hsub & new & Hops & Hcopy & Hall).
    unfold GitTasks.move_one in Hone. case_bool_decide as Hdel.
    + (* the image is in [delete]: [continue] *)
      injection Hone as <-.
      split; [exact Hdb|]. split; [exact Hsub|]. exists new.
      split; [exact Hops|]. split.
      * intros src dst Hin. destruct (Hcopy src dst Hin) as (Hf & i & Hi & Hrem).
        split; [exact Hf|]. exists i. split; [right; exact Hi | exact Hrem].
      * intros i Hi Hnd. apply elem_of_cons in Hi as [->|Hi]; [contradiction|].
        exact (Hall i Hi Hnd).
    + unfold dict_get in Hone.
      destruct (lookup !! image) as [path|] eqn:Hl; [|discriminate].
      rewrite (bind_run _ _ w w path eq_refl) in Hone.
      apply bind_inv in Hone as (w2 & [] & Hcp & Hrm).
      unfold shutil_copy in Hcp. case_bool_decide as Hin; [|discriminate].
      injection Hcp as <-.
      unfold os_remove in Hrm. cbn [files] in Hrm.
      rewrite bool_decide_eq_true_2 in Hrm by exact Hin.
      injection Hrm as <-.
      cbn [db ops files] in Hdb, Hops, Hsub, Hcopy.
      split; [exact Hdb|]. split; [set_solver|].
      exists (Copy path (destination path) :: Remove path :: new).
      split; [rewrite Hops, <- !app_assoc; reflexivity|]. split.
      * intros src dst Hc. apply elem_of_cons in Hc as [Heq|Hc].
        { injection Heq as -> ->. split; [exact Hin|].
          exists image. split; [left|]. repeat split; assumption. }
        apply elem_of_cons in Hc as [Heq|Hc]; [discriminate|].
        destruct (Hcopy src dst Hc) as (Hf & i & Hi & Hrem).
        split; [set_solver|]. exists i. split; [right; exact Hi | exact Hrem].
      * intros i Hi Hnd. apply elem_of_cons in Hi as [->|Hi].
        { exists path. split; [exact Hl | left]. }
        destruct (Hall i Hi Hnd) as (q & Hq & Hc). exists q.
        split; [exact Hq | right; right; exact Hc].
Qed.

Lemma get_world_inv (w w1 w2 : world) :
  get_world w = (w1, Ok w2) -> w1 = w /\ w2 = w.
Proof. unfold get_world. intros H. inversion H. split; reflexivity. Qed.

Lemma Forall2_lookup_path (lookup : gmap string string) l paths image :
  Forall2 (fun image path => lookup !! image = Some path) l paths ->
  image ∈ l -> exists path, lookup !! image = Some path /\ path ∈ paths.
Proof.
  intros HF Hin. apply list_elem_of_lookup in Hin as [i Hi].
  destruct (Forall2_lookup_l _ _ _ _ _ HF Hi) as (path & Hp & Hl).
  exists path. split; [exact Hl|]. apply list_elem_of_lookup. eauto.
Qed.

(** *** Runs that raise *)

Lemma bind_cases {A B} (m : M A) (k : A -> M B) (w w' : world) res :
  (m ≫= k) w = (w', res) ->
  (exists w1 a, m w = (w1, Ok a) /\ k a w1 = (w', res)) \/
  (exists e, m w = (w', Raise e) /\ res = Raise e).
Proof.
  unfold mbind, M_bind. destruct (m w) as [w1 [a|e]]; intros H.
  - left. exists w1, a. split; [reflexivity | exact H].
  - right. exists e. inversion H. split; reflexivity.
Qed.

(** From a state where [path] is absent, a step leaves it absent and copies
    nothing from it. *)
Definition keeps_absent (path : string) (w w' : world) : Prop :=
  (path ∉ files w) ->
  (path ∉ files w') /\
  exists new, ops w' = ops w ++ new /\ forall dst, Copy path dst ∉ new.

Lemma keeps_absent_same_disk path w w' : same_disk w w' -> keeps_absent path w w'.
Proof.
  intros [Hf Ho] Hn. split; [rewrite Hf; exact Hn|].
  exists []. split; [rewrite Ho, app_nil_r; reflexivity|].
  intros dst Hin. inversion Hin.
Qed.

Lemma keeps_absent_trans path w1 w2 w3 :
  keeps_absent path w1 w2 -> keeps_absent path w2 w3 -> keeps_absent path w1 w3.
Proof.
  intros H12 H23 Hn. destruct (H12 Hn) as (Hn2 & new1 & Ho1 & Hc1).
  destruct (H23 Hn2) as (Hn3 & new2 & Ho2 & Hc2).
  split; [exact Hn3|]. exists (new1 ++ new2).
  split; [rewrite Ho2, Ho1, <- app_assoc; reflexivity|].
  intros dst Hin. apply elem_of_app in Hin as [Hin|Hin];
    [exact (Hc1 dst Hin) | exact (Hc2 dst Hin)].
Qed.

(** A step followed by its continuation keeps the property when both do,
    however the step ends. *)
Lemma keeps_absent_bind {A B} path (m : M A) (k : A -> M B) :
  (forall w w' r, m w = (w', r) -> keeps_absent path w w') ->
  (forall a w w' r, k a w = (w', r) -> keeps_absent path w w') ->
  forall w w' r, (m ≫= k) w = (w', r) -> keeps_absent path w w'.
Proof.
  intros Hm Hk w w' r H.
  apply bind_cases in H as [(w1 & a & H1 & H2)|(e & H1 & _)].
  - exact (keeps_absent_trans _ _ _ _ (Hm _ _ _ H1) (Hk _ _ _ _ H2)).
  - exact (Hm _ _ _ H1).
Qed.

Lemma keeps_absent_for_each {A} path (f : A -> M unit) :
  (forall a w w' r, f a w = (w', r) -> keeps_absent path w w') ->
  forall l w w' r, for_each f l w = (w', r) -> keeps_absent path w w'.
Proof.
  intros Hf. induction l as [|a l IH]; intros w w' r H.
  - inversion H. subst. apply keeps_absent_same_disk, same_disk_refl.
  - cbn [for_each] in H. revert w w' r H. apply keeps_absent_bind.
    + apply Hf.
    + intros _. exact IH.
Qed.

Lemma keeps_absent_logger path e (w w' : world) r :
  logger e w = (w', r) -> keeps_absent path w w'.
Proof.
  intros H. inversion H. subst. apply keeps_absent_same_disk. split; reflexivity.
Qed.

Lemma keeps_absent_with_db path f (w w' : world) r :
  with_db f w = (w', r) -> keeps_absent path w w'.
Proof.
  intros H. inversion H. subst. apply keeps_absent_same_disk. split; reflexivity.
Qed.

Lemma keeps_absent_refl path (w : world) : keeps_absent path w w.
Proof. apply keeps_absent_same_disk, same_disk_refl. Qed.

Lemma keeps_absent_move_one path lookup (delete : gset string) image
    (w w' : world) r :
  move_one lookup delete image w = (w', r) -> keeps_absent path w w'.
Proof.
  unfold GitTasks.move_one. intros H.
  case_bool_decide as Hdel.
  { inversion H. subst. apply keeps_absent_refl. }
  unfold dict_get in H. destruct (lookup !! image) as [p|] eqn:Hl.
  - rewrite (bind_run _ _ w w p eq_refl) in H.
    apply bind_cases in H as [(w1 & [] & Hcp & Hrm)|(e & Hcp & _)].
    + unfold shutil_copy in Hcp. case_bool_decide as Hin; [|discriminate].
      inversion Hcp. subst w1. clear Hcp.
      unfold os_remove in Hrm. cbn [files] in Hrm.
      rewrite bool_decide_eq_true_2 in Hrm by exact Hin.
      inversion Hrm. subst. clear Hrm. intros Hn. cbn [files ops].
      split; [set_solver|].
      exists [Copy p (destination p); Remove p].
      split; [rewrite <- app_assoc; reflexivity|].
      intros dst Hc. apply elem_of_cons in Hc as [Hc|Hc].
      * injection Hc as -> _. contradiction.
      * apply elem_of_cons in Hc as [Hc|Hc]; [discriminate | inversion Hc].
    + unfold shutil_copy in Hcp. case_bool_decide; [discriminate|].
      inversion Hcp. subst. apply keeps_absent_refl.
  - rewrite (bind_raise _ _ w w (KeyError image) eq_refl) in H.
    inversion H. subst. apply keeps_absent_refl.
Qed.

(** The loop over [delete], however it ends: only removals. *)
Lemma delete_loop_any lookup (l : list string) : forall (w w' : world) r,
  for_each (delete_one lookup) l w = (w', r) ->
  exists paths, ops w' = ops w ++ (Remove <$> paths).
Proof.
  induction l as [|image l IH]; intros w w' r H.
  - inversion H. subst. exists []. rewrite app_nil_r. reflexivity.
  - cbn [for_each] in H.
    apply bind_cases in H as [(w1 & [] & Hone & Hrest)|(e & Hone & _)].
    + destruct (IH _ _ _ Hrest) as (paths & Hops).
      unfold delete_one, dict_get in Hone.
      destruct (lookup !! image) as [path|]; [|discriminate].
      rewrite (bind_run _ _ w w path eq_refl) in Hone.
      unfold os_remove in Hone. case_bool_decide; [|discriminate].
      inversion Hone. subst. cbn [ops] in Hops.
      exists (path :: paths). rewrite Hops, <- app_assoc. reflexivity.
    + exists []. rewrite app_nil_r.
      unfold delete_one, dict_get in Hone.
      destruct (lookup !! image) as [path|].
      * rewrite (bind_run _ _ w w path eq_refl) in Hone.
        unfold os_remove in Hone. case_bool_decide; [discriminate|].
        inversion Hone. reflexivity.
      * inversion Hone. reflexivity.
Qed.

(** Whatever happens in a run, completed or aborted by an exception, the
    file of an image that is in [delete] is never copied. *)
Lemma move_images_never_copies_deleted (w w' : world) res image path :
  image ∈ delete_set (db w) ->
  filename_lookup root (files w) !! image = Some path ->
  move_images w = (w', res) ->
  exists new, ops w' = ops w ++ new /\ forall dst, Copy path dst ∉ new.
Proof.
  intros HD Hpath H.
  assert (HDne : delete_set (db w) <> ∅) by set_solver.
  unfold GitTasks.move_images in H.
  apply bind_cases in H as [(wa & [] & Hlog & H)|(e & Hlog & _)];
    [|inversion Hlog].
  destruct (logger_run (Info "checking for move") w) as (wa' & Hlog' & [Hfa Hoa] & Hda).
  rewrite Hlog' in Hlog. injection Hlog as ->.
  apply bind_cases in H as [(wb & w0 & Hget & H)|(e & Hget & _)];
    [|inversion Hget].
  apply get_world_inv in Hget as [-> ->]. cbv zeta in H.
  rewrite Hfa, Hda in H.
  rewrite bool_decide_eq_true_2 in H by exact HDne.
  apply bind_cases in H as [(wc & [] & Hdel & H)|(e & Hdel & _)].
  - (* the deletions completed: the file is gone before the moves start *)
    apply bind_inv in Hdel as (w1 & [] & Hz1 & Hdel).
    apply bind_inv in Hdel as (w2 & [] & Hz2 & Hdel).
    inversion Hz1. subst w1. inversion Hz2. subst w2. clear Hz1 Hz2.
    apply delete_loop in Hdel as (_ & paths & HF & Hopsc & Hfilesc).
    cbn [ops files] in Hopsc, Hfilesc.
    destruct (Forall2_lookup_path _ _ _ image HF) as (q & Hq & Hin);
      [apply elem_of_elements; exact HD|].
    assert (q = path) as -> by congruence.
    assert (Hn : path ∉ files wc) by (rewrite Hfilesc; set_solver).
    assert (Hrest : keeps_absent path wc w').
    { revert H. generalize wc w' res.
      apply keeps_absent_bind;
        [intros u u' r Hu; inversion Hu; subst; apply keeps_absent_refl|].
      intros u1. cbv zeta. apply keeps_absent_bind.
      - intros u u' r Hu. destruct (bool_decide _).
        + revert u u' r Hu. apply keeps_absent_bind.
          * intros ? ? ?. apply keeps_absent_with_db.
          * intros _. apply keeps_absent_for_each.
            intros ? ? ? ?. apply keeps_absent_move_one.
        + inversion Hu. subst. apply keeps_absent_refl.
      - intros _ u u' r Hu. destruct (_ || _).
        + revert u u' r Hu. apply keeps_absent_bind.
          * intros u u' r Hu. apply keeps_absent_same_disk.
            exact (push_helper_same_disk _ _ _ _ _ Hu).
          * intros verify_push. apply keeps_absent_bind.
            { intros u u' r Hu. apply keeps_absent_same_disk.
              exact (push_helper_same_disk _ _ _ _ _ Hu). }
            intros image_push. apply keeps_absent_bind.
            { intros u u' r Hu. apply keeps_absent_same_disk.
              exact (report_same_disk _ _ _ _ _ Hu). }
            intros _ u u' r Hu. apply keeps_absent_same_disk.
            exact (report_same_disk _ _ _ _ _ Hu).
        + exact (keeps_absent_logger _ _ _ _ _ Hu). }
    destruct (Hrest Hn) as (_ & new & Hops & Hnc).
    exists ((Remove <$> paths) ++ new).
    split; [rewrite Hops, Hopsc, Hoa, <- app_assoc; reflexivity|].
    intros dst Hc. apply elem_of_app in Hc as [Hc|Hc]; [|exact (Hnc dst Hc)].
    apply list_elem_of_fmap in Hc as (? & Heq & _). discriminate.
  - (* the deletions were aborted: no move was started *)
    apply bind_cases in Hdel as [(w1 & [] & Hz1 & Hdel)|(e' & Hz1 & _)];
      [|inversion Hz1].
    apply bind_cases in Hdel as [(w2 & [] & Hz2 & Hdel)|(e' & Hz2 & _)];
      [|inversion Hz2].
    inversion Hz1. subst w1. inversion Hz2. subst w2. clear Hz1 Hz2.
    apply delete_loop_any in Hdel as (paths & Hops). cbn [ops] in Hops.
    exists (Remove <$> paths). split; [rewrite Hops, Hoa; reflexivity|].
    intros dst Hc. apply list_elem_of_fmap in Hc as (? & Heq & _). discriminate.
Qed.

(** The helper without a callback raises only from the decoding, and
    returns when the result decodes. *)
Lemma push_helper_result r msg (w w' : world) res :
  _push_helper git r msg None w = (w', res) ->
  (forall e, res = Raise e -> e = IndexError \/ e = ValueError) /\
  (decodable (git r msg w) -> exists v, res = Ok v).
Proof.
  intros H. split.
  - revert H.
    unfold _push_helper, mbind, M_bind, get_world, mret, M_ret, lift, logger, raise.
    intros H e He. subst res.
    repeat case_match; try discriminate.
    all: match goal with
         | Heq : (_, Raise _) = (_, Raise _) |- _ => injection Heq as _ <-
         end.
    all: try (left; reflexivity).
    all: match goal with
         | Hd : decode_flags _ _ _ = Raise _ |- _ => exact (decode_flags_raises _ _ _ _ Hd)
         end.
  - unfold decodable. intros Hd.
    destruct (push_result (git r msg w)) as [|flags rest] eqn:Hres.
    + rewrite (push_helper_no_entries git r msg w Hres) in H.
      injection H as _ <-. eauto.
    + pose proof (push_helper_first_entry git r msg w flags rest _ Hres
                    (decode_flags_word flags Hd)) as H2.
      rewrite H in H2. cbn in H2. eauto.
Qed.

Lemma report_run name v (w : world) : exists w', report name v w = (w', Ok tt).
Proof. unfold report, logger. destruct v; eexists; reflexivity. Qed.

(** The last part of a pass: the two pushes and their reports, or one log
    entry. *)
Definition push_part (b : bool) : M unit :=
  if b then
    verify_push ← _push_helper git verify_repo "Update through verification!" None;
    image_push ← _push_helper git image_repo "Update through verification!" None;
    report "verify repo" verify_push;;
    report "image repo" image_push
  else logger (Info "no changes to update!").

Lemma push_part_run (b : bool) (w w' : world) res :
  push_part b w = (w', res) ->
  same_disk w w' /\
  (forall e, res = Raise e -> e = IndexError \/ e = ValueError) /\
  ((forall r (w0 : world), decodable (git r "Update through verification!" w0)) ->
   res = Ok tt).
Proof.
  unfold push_part. destruct b; intros H.
  - apply bind_cases in H as [(w1 & v & H1 & H)|(e & H1 & ->)].
    + pose proof (push_helper_same_disk _ _ _ _ _ H1) as D1.
      apply bind_cases in H as [(w2 & i & H2 & H)|(e & H2 & ->)].
      * pose proof (push_helper_same_disk _ _ _ _ _ H2) as D2.
        destruct (report_run "verify repo" v w2) as (w3 & H3).
        rewrite (bind_run _ _ _ _ _ H3) in H.
        destruct (report_run "image repo" i w3) as (w4 & H4).
        rewrite H4 in H. injection H as <- <-.
        split; [|split; [discriminate | reflexivity]].
        eapply same_disk_trans; [exact D1|].
        eapply same_disk_trans; [exact D2|].
        eapply same_disk_trans; [exact (report_same_disk _ _ _ _ _ H3)|].
        exact (report_same_disk _ _ _ _ _ H4).
      * destruct (push_helper_result _ _ _ _ _ H2) as [He Hok].
        split; [exact (same_disk_trans _ _ _ D1 (push_helper_same_disk _ _ _ _ _ H2))|].
        split; [intros e0 Heq; injection Heq as <-; exact (He e eq_refl)|].
        intros Hd. destruct (Hok (Hd _ _)) as (v' & Hv). discriminate.
    + destruct (push_helper_result _ _ _ _ _ H1) as [He Hok].
      split; [exact (push_helper_same_disk _ _ _ _ _ H1)|].
      split; [intros e0 Heq; injection Heq as <-; exact (He e eq_refl)|].
      intros Hd. destruct (Hok (Hd _ _)) as (v' & Hv). discriminate.
  - inversion H. subst. split; [split; reflexivity|]. split; [discriminate | reflexivity].
Qed.

(** The loop over [delete] completes when its images have distinct files
    that are present. *)
Lemma delete_loop_total (lookup : gmap string string) (l : list string) :
  NoDup l ->
  (forall i j p, i ∈ l -> j ∈ l ->
     lookup !! i = Some p -> lookup !! j = Some p -> i = j) ->
  forall w : world,
  (forall i, i ∈ l -> exists p, lookup !! i = Some p /\ p ∈ files w) ->
  exists w' : world, for_each (delete_one lookup) l w = (w', Ok tt).
Proof.
  induction l as [|a l IH]; intros Hnd Hinj w Hf.
  - eexists; reflexivity.
  - apply NoDup_cons in Hnd as [Hna Hnd].
    destruct (Hf a ltac:(left)) as (p & Hp & Hin).
    assert (Hone : delete_one lookup a w =
                   (World (db w) (files w ∖ {[p]}) (ops w ++ [Remove p])
                          (draws w) (clock w) (log w), Ok tt)).
    { unfold delete_one, dict_get. rewrite Hp.
      rewrite (bind_run _ _ w w p eq_refl).
      unfold os_remove. rewrite bool_decide_eq_true_2 by exact Hin. reflexivity. }
    cbn [for_each]. rewrite (bind_run _ _ _ _ _ Hone).
    apply IH; [exact Hnd | |].
    + intros i j q Hi Hj. apply Hinj; right; assumption.
    + intros i Hi. destruct (Hf i ltac:(right; exact Hi)) as (q & Hq & Hqin).
      exists q. split; [exact Hq|]. cbn [files]. apply elem_of_difference.
      split; [exact Hqin|]. intros Heq. apply elem_of_singleton in Heq. subst q.
      assert (i = a) by (apply (Hinj i a p); [right; exact Hi | left | exact Hq | exact Hp]).
      subst. contradiction.
Qed.

(** The loop over [valid] completes when its images that are not in
    [delete] have distinct files that are present. *)
Lemma move_loop_total (lookup : gmap string string) (delete : gset string)
    (l : list string) :
  NoDup l ->
  (forall i j p, i ∈ l -> j ∈ l ->
     lookup !! i = Some p -> lookup !! j = Some p -> i = j) ->
  forall w : world,
  (forall i, i ∈ l -> (i ∉ delete) -> exists p, lookup !! i = Some p /\ p ∈ files w) ->
  exists w' : world, for_each (move_one lookup delete) l w = (w', Ok tt).
Proof.
  induction l as [|a l IH]; intros Hnd Hinj w Hf.
  - eexists; reflexivity.
  - apply NoDup_cons in Hnd as [Hna Hnd]. cbn [for_each].
    destruct (decide (a ∈ delete)) as [Hd|Hd].
    + assert (Hone : move_one lookup delete a w = (w, Ok tt)).
      { unfold GitTasks.move_one. rewrite bool_decide_eq_true_2 by exact Hd. reflexivity. }
      rewrite (bind_run _ _ _ _ _ Hone).
      apply IH; [exact Hnd | |].
      * intros i j q Hi Hj. apply Hinj; right; assumption.
      * intros i Hi. apply Hf. right. exact Hi.
    + destruct (Hf a ltac:(left) Hd) as (p & Hp & Hin).
      assert (Hone : move_one lookup delete a w =
                     (World (db w) (files w ∖ {[p]})
                            ((ops w ++ [Copy p (destination p)]) ++ [Remove p])
                            (draws w) (clock w) (log w), Ok tt)).
      { unfold GitTasks.move_one, dict_get. rewrite bool_decide_eq_false_2 by exact Hd.
        rewrite Hp. rewrite (bind_run _ _ w w p eq_refl).
        assert (Hcp : shutil_copy p (destination p) w =
                      (World (db w) (files w) (ops w ++ [Copy p (destination p)])
                             (draws w) (clock w) (log w), Ok tt)).
        { unfold shutil_copy. rewrite bool_decide_eq_true_2 by exact Hin. reflexivity. }
        rewrite (bind_run _ _ _ _ _ Hcp).
        unfold os_remove. cbn [files]. rewrite bool_decide_eq_true_2 by exact Hin.
        reflexivity. }
      rewrite (bind_run _ _ _ _ _ Hone).
      apply IH; [exact Hnd | |].
      * intros i j q Hi Hj. apply Hinj; right; assumption.
      * intros i Hi Hid. destruct (Hf i ltac:(right; exact Hi) Hid) as (q & Hq & Hqin).
        exists q. split; [exact Hq|]. cbn [files]. apply elem_of_difference.
        split; [exact Hqin|]. intros Heq. apply elem_of_singleton in Heq. subst q.
        assert (i = a)
          by (apply (Hinj i a p); [right; exact Hi | left | exact Hq | exact Hp]).
        subst. contradiction.
Qed.

Lemma Forall2_lookup_image (lookup : gmap string string) l paths path :
  Forall2 (fun image path => lookup !! image = Some path) l paths ->
  path ∈ paths -> exists image, image ∈ l /\ lookup !! image = Some path.
Proof.
  intros HF Hin. apply list_elem_of_lookup in Hin as [i Hi].
  destruct (Forall2_lookup_r _ _ _ _ _ HF Hi) as (image & Him & Hl).
  exists image. split; [|exact Hl]. apply list_elem_of_lookup. eauto.
Qed.

(** A pass over a store where [delete] and [valid] are both non-empty, when
    every voted image has a file of its own: both loops complete, and the
    pass ends as its push part does. *)
Lemma move_images_files (w : world) :
  delete_set (db w) <> ∅ -> valid_set (db w) <> ∅ ->
  (forall i, i ∈ delete_set (db w) ∪ valid_set (db w) ->
     exists p, filename_lookup root (files w) !! i = Some p /\ p ∈ files w) ->
  (forall i j p,
     i ∈ delete_set (db w) ∪ valid_set (db w) ->
     j ∈ delete_set (db w) ∪ valid_set (db w) ->
     filename_lookup root (files w) !! i = Some p ->
     filename_lookup root (files w) !! j = Some p -> i = j) ->
  exists (w' : world) res paths new (wc : world),
    move_images w = (w', res) /\
    (forall e, res = Raise e -> e = IndexError \/ e = ValueError) /\
    ((forall r (w0 : world), decodable (git r "Update through verification!" w0)) ->
     res = Ok tt) /\
    Forall2 (fun image path => filename_lookup root (files w) !! image = Some path)
      (elements (delete_set (db w))) paths /\
    files wc = files w ∖ list_to_set paths /\
    files w' ⊆ files wc /\
    ops w' = ops w ++ (Remove <$> paths) ++ new /\
    (forall src dst, Copy src dst ∈ new ->
       src ∈ files wc /\
       exists image, image ∈ valid_set (db w) /\ (image ∉ delete_set (db w)) /\
                     filename_lookup root (files w) !! image = Some src /\
                     dst = destination src) /\
    (forall image, image ∈ valid_set (db w) -> (image ∉ delete_set (db w)) ->
       exists path, filename_lookup root (files w) !! image = Some path /\
                    Copy path (destination path) ∈ new).
Proof.
  intros HD HV Hfiles Hinj.
  set (lookup := filename_lookup root (files w)) in *.
  set (wa := World (zremrangebyscore "sciolyid.verify.images:duplicate" 3
                      (zremrangebyscore "sciolyid.verify.images:invalid" 3 (db w)))
               (files w) (ops w) (draws w) (clock w)
               (log w ++ [Info "checking for move"])).
  destruct (delete_loop_total lookup (elements (delete_set (db w)))
              (NoDup_elements _)
              ltac:(intros i j p Hi Hj; apply Hinj; apply elem_of_union; left;
                    apply elem_of_elements; assumption)
              wa
              ltac:(intros i Hi; apply Hfiles, elem_of_union; left;
                    apply elem_of_elements; exact Hi))
    as (wc & Hdel).
  destruct (delete_loop _ _ _ _ Hdel) as (Hdbc & paths & HF & Hopsc & Hfilesc).
  cbn [wa db ops files] in Hdbc, Hopsc, Hfilesc.
  assert (Hvalid : list_to_set (zrangebyscore "sciolyid.verify.images:valid" 3 (db wc))
                   = valid_set (db w)).
  { unfold valid_set. rewrite Hdbc.
    rewrite !zrangebyscore_zrem_ne by discriminate. reflexivity. }
  set (wd := World (zremrangebyscore "sciolyid.verify.images:valid" 3 (db wc))
               (files wc) (ops wc) (draws wc) (clock wc) (log wc)).
  assert (Hfresh : forall i, i ∈ elements (valid_set (db w)) ->
            (i ∉ delete_set (db w)) ->
            exists p, lookup !! i = Some p /\ p ∈ files wd).
  { intros i Hi Hnd. apply elem_of_elements in Hi.
    destruct (Hfiles i ltac:(apply elem_of_union; right; exact Hi)) as (p & Hp & Hin).
    exists p. split; [exact Hp|]. cbn [wd files]. rewrite Hfilesc.
    apply elem_of_difference. split; [exact Hin|].
    intros Hrm. apply elem_of_list_to_set in Hrm.
    destruct (Forall2_lookup_image _ _ _ _ HF Hrm) as (j & Hj & Hjp).
    apply elem_of_elements in Hj.
    assert (i = j).
    { apply (Hinj i j p); [apply elem_of_union; right; exact Hi
                          | apply elem_of_union; left; exact Hj | exact Hp | exact Hjp]. }
    subst j. contradiction. }
  destruct (move_loop_total lookup (delete_set (db w)) (elements (valid_set (db w)))
              (NoDup_elements _)
              ltac:(intros i j p Hi Hj; apply Hinj; apply elem_of_union; right;
                    apply elem_of_elements; assumption)
              wd Hfresh)
    as (we & Hmove).
  destruct (move_loop _ _ _ _ _ Hmove)
    as (_ & Hsub & new & Hopse & Hcopy & Hall).
  cbn [wd db ops files] in Hsub, Hopse, Hcopy.
  assert (Heq : move_images w = push_part true we).
  { unfold GitTasks.move_images.
    rewrite (bind_run (logger (Info "checking for move")) _ w _ tt eq_refl).
    rewrite (bind_run get_world _ _ _ _ eq_refl). cbv zeta. cbn [logger fst db files].
    fold (delete_set (db w)). fold lookup.
    rewrite (bool_decide_eq_true_2 (delete_set (db w) ≠ ∅)) by exact HD.
    assert (H1 : (with_db (zremrangebyscore "sciolyid.verify.images:invalid" 3);;
                  with_db (zremrangebyscore "sciolyid.verify.images:duplicate" 3);;
                  for_each (delete_one lookup) (elements (delete_set (db w))))
                   (World (db w) (files w) (ops w) (draws w) (clock w)
                          (log w ++ [Info "checking for move"])) = (wc, Ok tt)).
    { rewrite (bind_run (with_db _) _ _ _ tt eq_refl).
      rewrite (bind_run (with_db _) _ _ _ tt eq_refl). exact Hdel. }
    rewrite (bind_run _ _ _ _ _ H1).
    rewrite (bind_run get_world _ _ _ _ eq_refl). cbv zeta.
    rewrite Hvalid.
    rewrite (bool_decide_eq_true_2 (valid_set (db w) ≠ ∅)) by exact HV.
    assert (H2 : (with_db (zremrangebyscore "sciolyid.verify.images:valid" 3);;
                  for_each (move_one lookup (delete_set (db w)))
                           (elements (valid_set (db w)))) wc = (we, Ok tt)).
    { rewrite (bind_run (with_db _) _ _ _ tt eq_refl). exact Hmove. }
    rewrite (bind_run _ _ _ _ _ H2). reflexivity. }
  destruct (push_part true we) as [w' res] eqn:Hpush.
  destruct (push_part_run _ _ _ _ Hpush) as ([Hf Ho] & He & Hok).
  exists w', res, paths, new, wc.
  split; [exact Heq|]. split; [exact He|]. split; [exact Hok|].
  split; [exact HF|]. split; [exact Hfilesc|].
  split; [rewrite Hf; exact Hsub|].
  split; [rewrite Ho, Hopse, Hopsc, <- app_assoc; reflexivity|].
  split.
  - intros src dst Hc. destruct (Hcopy src dst Hc) as (Hin & image & Hi & Hrest).
    split; [exact Hin|]. exists image.
    split; [apply elem_of_elements; exact Hi | exact Hrest].
  - intros image Hi Hnd. apply Hall; [apply elem_of_elements; exact Hi | exact Hnd].
Qed.

(** C6.  An image with three votes or more both as valid and as invalid or
    duplicate, in a pass where every voted image has a file of its own: the
    pass does not stop in its loops over the files (it returns, unless the
    decoding of a push result raises afterwards); the file of the image is
    removed and never copied into the image repository; and among the images
    voted valid, the ones copied are exactly those that are not in
    [delete]. *)
Theorem move_images_delete_wins (w : world) image :
  (exists score,
     votes "sciolyid.verify.images:valid" image (db w) = Some score /\ 3 <= score) ->
  ((exists score,
      votes "sciolyid.verify.images:invalid" image (db w) = Some score /\ 3 <= score) \/
   (exists score,
      votes "sciolyid.verify.images:duplicate" image (db w) = Some score /\ 3 <= score)) ->
  (forall i, i ∈ delete_set (db w) ∪ valid_set (db w) ->
     exists p, filename_lookup root (files w) !! i = Some p /\ p ∈ files w) ->
  (forall i j p,
     i ∈ delete_set (db w) ∪ valid_set (db w) ->
     j ∈ delete_set (db w) ∪ valid_set (db w) ->
     filename_lookup root (files w) !! i = Some p ->
     filename_lookup root (files w) !! j = Some p -> i = j) ->
  exists (w' : world) res path new,
    move_images w = (w', res) /\
    (forall e, res = Raise e -> e = IndexError \/ e = ValueError) /\
    ((forall r (w0 : world), decodable (git r "Update through verification!" w0)) ->
     res = Ok tt) /\
    filename_lookup root (files w) !! image = Some path /\
    path ∈ files w /\
    ops w' = ops w ++ new /\
    Remove path ∈ new /\
    (path ∉ files w') /\
    (forall dst, Copy path dst ∉ new) /\
    (forall other, other ∈ valid_set (db w) ->
       (exists p, filename_lookup root (files w) !! other = Some p /\
                  Copy p (destination p) ∈ new) <->
       (other ∉ delete_set (db w))).
Proof.
  intros HV HD Hfiles Hinj.
  apply elem_of_valid_set in HV. apply elem_of_delete_set in HD.
  assert (HDne : delete_set (db w) <> ∅) by set_solver.
  assert (HVne : valid_set (db w) <> ∅) by set_solver.
  destruct (move_images_files w HDne HVne Hfiles Hinj)
    as (w' & res & paths & new & wc & Hrun & He & Hok & HF & Hfc & Hsub & Hops
        & Hcopy & Hall).
  assert (Hgone : forall i q,
            i ∈ delete_set (db w) ->
            filename_lookup root (files w) !! i = Some q ->
            q ∈ paths /\ (q ∉ files wc) /\ forall dst, Copy q dst ∉ new).
  { intros i q Hi Hq.
    destruct (Forall2_lookup_path _ _ _ i HF) as (q' & Hq' & Hin);
      [apply elem_of_elements; exact Hi|].
    assert (q' = q) as -> by congruence.
    assert (Hnf : q ∉ files wc) by (rewrite Hfc; set_solver).
    split; [exact Hin|]. split; [exact Hnf|].
    intros dst Hc. apply Hnf. exact (proj1 (Hcopy q dst Hc)). }
  destruct (Hfiles image ltac:(apply elem_of_union; left; exact HD))
    as (path & Hpath & Hpresent).
  destruct (Hgone image path HD Hpath) as (Hin & Hnf & Hnc).
  exists w', res, path, ((Remove <$> paths) ++ new).
  split; [exact Hrun|]. split; [exact He|]. split; [exact Hok|].
  split; [exact Hpath|]. split; [exact Hpresent|]. split; [exact Hops|].
  split; [apply elem_of_app; left; apply list_elem_of_fmap; eauto|].
  split; [set_solver|].
  split.
  - intros dst Hc. apply elem_of_app in Hc as [Hc|Hc]; [|exact (Hnc dst Hc)].
    apply list_elem_of_fmap in Hc as (q & Heq & _). discriminate.
  - intros other Ho. split.
    + intros (p & Hp & Hc) Hod.
      destruct (Hgone other p Hod Hp) as (_ & _ & Hno).
      apply elem_of_app in Hc as [Hc|Hc]; [|exact (Hno _ Hc)].
      apply list_elem_of_fmap in Hc as (q & Heq & _). discriminate.
    + intros Hnd. destruct (Hall other Ho Hnd) as (p & Hp & Hc).
      exists p. split; [exact Hp|]. apply elem_of_app. right. exact Hc.
Qed.

End Reconciler.

(** The scenario of the specification: [a.jpg] has three votes as valid and
    three as invalid, [b.jpg] four votes as valid only. *)
Definition example_lookup (root : string) (present : gset string)
  : gmap string string :=
  {[ "a.jpg" := "verify/blue jay/a.jpg"; "b.jpg" := "verify/robin/b.jpg" ]}.

Definition example_join (a b : string) : string := a +:+ "/" +:+ b.

Definition voted_world : world :=
  World (Redis ∅
           {[ "sciolyid.verify.images:valid" := {[ "a.jpg" := 3; "b.jpg" := 4 ]};
              "sciolyid.verify.images:invalid" := {[ "a.jpg" := 3 ]} ]}
           ∅ ∅)
        {[ "verify/blue jay/a.jpg"; "verify/robin/b.jpg" ]}
        [] 0 1600000000 [].

Definition example_move_images : M unit :=
  move_images example_git example_lookup "verify" (fun _ => "bird")
    (fun _ => "birds") "images" example_join.

Lemma voted_images :
  delete_set (db voted_world) ∪ valid_set (db voted_world) = {[ "a.jpg"; "b.jpg" ]}.
Proof. apply (bool_decide_unpack _). vm_compute. reflexivity. Qed.

Lemma move_images_delete_wins_witness :
  (exists score,
     votes "sciolyid.verify.images:valid" "a.jpg" (db voted_world) = Some score /\
     3 <= score) /\
  ((exists score,
      votes "sciolyid.verify.images:invalid" "a.jpg" (db voted_world) = Some score /\
      3 <= score) \/
   (exists score,
      votes "sciolyid.verify.images:duplicate" "a.jpg" (db voted_world) = Some score /\
      3 <= score)) /\
  (forall i, i ∈ delete_set (db voted_world) ∪ valid_set (db voted_world) ->
     exists p, example_lookup "verify" (files voted_world) !! i = Some p /\
               p ∈ files voted_world) /\
  (forall i j p,
     i ∈ delete_set (db voted_world) ∪ valid_set (db voted_world) ->
     j ∈ delete_set (db voted_world) ∪ valid_set (db voted_world) ->
     example_lookup "verify" (files voted_world) !! i = Some p ->
     example_lookup "verify" (files voted_world) !! j = Some p -> i = j) /\
  exists (w' : world) res path new,
    example_move_images voted_world = (w', res) /\
    (forall e, res = Raise e -> e = IndexError \/ e = ValueError) /\
    ((forall r (w0 : world),
        decodable (example_git r "Update through verification!" w0)) ->
     res = Ok tt) /\
    example_lookup "verify" (files voted_world) !! "a.jpg" = Some path /\
    path ∈ files voted_world /\
    ops w' = ops voted_world ++ new /\
    Remove path ∈ new /\
    (path ∉ files w') /\
    (forall dst, Copy path dst ∉ new) /\
    (forall other, other ∈ valid_set (db voted_world) ->
       (exists p, example_lookup "verify" (files voted_world) !! other = Some p /\
                  Copy p (destination (fun _ => "bird") (fun _ => "birds")
                            "images" example_join p) ∈ new) <->
       (other ∉ delete_set (db voted_world))).
Proof.
  assert (HV : exists score,
             votes "sciolyid.verify.images:valid" "a.jpg" (db voted_world) = Some score /\
             3 <= score).
  { exists 3. split; [vm_compute; reflexivity | lia]. }
  assert (HD : (exists score,
                  votes "sciolyid.verify.images:invalid" "a.jpg" (db voted_world)
                    = Some score /\ 3 <= score) \/
               (exists score,
                  votes "sciolyid.verify.images:duplicate" "a.jpg" (db voted_world)
                    = Some score /\ 3 <= score)).
  { left. exists 3. split; [vm_compute; reflexivity | lia]. }
  assert (Hfiles : forall i,
            i ∈ delete_set (db voted_world) ∪ valid_set (db voted_world) ->
            exists p, example_lookup "verify" (files voted_world) !! i = Some p /\
                      p ∈ files voted_world).
  { intros i Hi. rewrite voted_images in Hi.
    apply elem_of_union in Hi as [Hi|Hi]; apply elem_of_singleton in Hi as ->.
    - exists "verify/blue jay/a.jpg". split; [vm_compute; reflexivity|].
      apply (bool_decide_unpack _). vm_compute. reflexivity.
    - exists "verify/robin/b.jpg". split; [vm_compute; reflexivity|].
      apply (bool_decide_unpack _). vm_compute. reflexivity. }
  assert (Hinj : forall i j p,
            i ∈ delete_set (db voted_world) ∪ valid_set (db voted_world) ->
            j ∈ delete_set (db voted_world) ∪ valid_set (db voted_world) ->
            example_lookup "verify" (files voted_world) !! i = Some p ->
            example_lookup "verify" (files voted_world) !! j = Some p -> i = j).
  { intros i j p Hi Hj. rewrite voted_images in Hi, Hj.
    apply elem_of_union in Hi as [Hi|Hi]; apply elem_of_singleton in Hi as ->;
      apply elem_of_union in Hj as [Hj|Hj]; apply elem_of_singleton in Hj as ->;
      intros H1 H2; try reflexivity; exfalso;
      vm_compute in H1; vm_compute in H2; congruence. }
  split; [exact HV|]. split; [exact HD|]. split; [exact Hfiles|]. split; [exact Hinj|].
  exact (move_images_delete_wins example_git example_lookup "verify"
           (fun _ => "bird") (fun _ => "birds") "images" example_join
           voted_world "a.jpg" HV HD Hfiles Hinj).
Defined.

(** The run of the scenario: the pass returns; [a.jpg] is removed and not
    copied, [b.jpg] is copied and then removed. *)
Example move_images_scenario :
  (example_move_images voted_world).2 = Ok tt /\
  ops (example_move_images voted_world).1 =
    [Remove "verify/blue jay/a.jpg";
     Copy "verify/robin/b.jpg" "images/birds";
     Remove "verify/robin/b.jpg"] /\
  files (example_move_images voted_world).1 = ∅.
Proof. repeat split; vm_compute; reflexivity. Qed.

End GitProps.


(** * More on the retrying fetcher and the repository sync *)

Module FetchExtra.
Import Core FetchProps.

Section Fetcher.
Context {world : Type}.
Variable listdir : world -> string -> option (list string).
Variable get_category : string -> string.
Variables _clone _pull : world -> world.
Variable download_dir : string.
Variable str_lower : string -> string.

Local Abbreviation download_github :=
  (Core.download_github listdir _clone _pull download_dir).
Local Abbreviation get_files :=
  (Core.get_files listdir get_category _clone _pull download_dir str_lower).
Local Abbreviation sync := (FetchProps.sync listdir _clone _pull download_dir).
Local Abbreviation listing_fails :=
  (FetchProps.listing_fails listdir get_category str_lower).

(** The directory a call of [get_files] handed [item] lists. *)
Definition directory (item : string) : string :=
  directory_of get_category (str_lower item).

(** The paths [get_files] builds from a listing. *)
Definition paths_of (item : string) (files_dir : list string) : list string :=
  map (fun path => directory item +:+ path) files_dir.

Lemma get_files_listed item retries w files_dir :
  listdir w (directory item) = Some files_dir -> files_dir <> [] ->
  exists lg,
    get_files item retries w = (lg, w, paths_of item files_dir) /\
    syncs lg = 0%nat.
Proof.
  unfold directory. intros Hl Hne.
  rewrite (get_files_equation_1 listdir get_category _clone _pull download_dir
             str_lower item retries w).
  unfold try_listing. rewrite Hl.
  destruct files_dir as [|f fs]; [congruence|].
  change (Z.of_nat (length (f :: fs)) =? 0) with false. cbv iota.
  simp get_files. eexists. split; reflexivity.
Qed.

Lemma listing_cases w item :
  listing_fails w item \/
  exists files_dir, listdir w (directory item) = Some files_dir /\ files_dir <> [].
Proof.
  unfold FetchProps.listing_fails, directory.
  destruct (listdir w (directory_of get_category (str_lower item))) as [[|f fs]|];
    [tauto| |tauto].
  right. eexists. split; [reflexivity | discriminate].
Qed.

(** What a call does with [n] retries left, by induction on [n].  After [i]
    syncs the call at work was handed the item lower-cased [i] times. *)
Lemma get_files_outcome (n : nat) : forall item retries w,
  Z.to_nat (3 - retries) = n ->
  exists (k : nat) lg files,
    get_files item retries w = (lg, Nat.iter k sync w, files) /\
    syncs lg = k /\ (k <= n)%nat /\
    (forall i : nat, (i < k)%nat ->
       listing_fails (Nat.iter i sync w) (Nat.iter i str_lower item)) /\
    ((files = [] /\ k = n /\
      listing_fails (Nat.iter k sync w) (Nat.iter k str_lower item)) \/
     (exists files_dir,
        listdir (Nat.iter k sync w) (directory (Nat.iter k str_lower item))
          = Some files_dir /\
        files_dir <> [] /\
        files = paths_of (Nat.iter k str_lower item) files_dir)).
Proof.
  induction n as [|n IH]; intros item retries w Hn.
  - destruct (listing_cases w item) as [Hf|(fd & Hl & Hne)].
    + destruct (get_files_give_up listdir get_category _clone _pull download_dir
                  str_lower item retries w Hf ltac:(lia)) as (lg & E & _ & Hs).
      exists 0%nat, lg, []. split; [exact E|]. split; [exact Hs|].
      split; [lia|]. split; [intros i Hi; lia|]. left. auto.
    + destruct (get_files_listed item retries w fd Hl Hne) as (lg & E & Hs).
      exists 0%nat, lg, (paths_of item fd). split; [exact E|]. split; [exact Hs|].
      split; [lia|]. split; [intros i Hi; lia|]. right. eauto.
  - destruct (listing_cases w item) as [Hf|(fd & Hl & Hne)].
    + destruct (get_files_retry listdir get_category _clone _pull download_dir
                  str_lower item retries w Hf ltac:(lia)) as (lg0 & E & _ & Hs0).
      cbv zeta in E.
      destruct (IH (str_lower item) (retries + 1) (sync w) ltac:(lia))
        as (k & lg & files & Er & Hs & Hk & Hfail & Hres).
      rewrite Er in E. cbn [fst snd] in E.
      exists (S k), (lg0 ++ lg), files.
      rewrite !Nat.iter_succ_r.
      split; [exact E|]. split; [rewrite syncs_app, Hs0, Hs; reflexivity|].
      split; [lia|]. split.
      * intros [|i] Hi; [exact Hf|]. rewrite !Nat.iter_succ_r.
        apply Hfail. lia.
      * destruct Hres as [(-> & -> & Hlast)|(fd & Hl & Hne & ->)].
        { left. split; [reflexivity|]. split; [reflexivity|]. exact Hlast. }
        right. exists fd. auto.
    + destruct (get_files_listed item retries w fd Hl Hne) as (lg & E & Hs).
      exists 0%nat, lg, (paths_of item fd). split; [exact E|]. split; [exact Hs|].
      split; [lia|]. split; [intros i Hi; lia|]. right. eauto.
Qed.

(** X1.  Whatever the disk and the remote do, a call of [get_files] makes at
    most [3 - retries] syncs (none from [retries >= 3]); it leaves the state
    those syncs produce; and what it returns is either the empty list or the
    non-empty listing, in the state it leaves, of the directory the last
    attempt built (that of the item as lower-cased by the calls so far),
    each entry prefixed by the directory. *)
Theorem get_files_bounded_and_fresh item retries w :
  exists (k : nat) lg files,
    get_files item retries w = (lg, Nat.iter k sync w, files) /\
    syncs lg = k /\ (k <= Z.to_nat (3 - retries))%nat /\
    (files = [] \/
     exists files_dir,
       listdir (Nat.iter k sync w) (directory (Nat.iter k str_lower item))
         = Some files_dir /\
       files_dir <> [] /\
       files = paths_of (Nat.iter k str_lower item) files_dir).
Proof.
  destruct (get_files_outcome _ item retries w eq_refl)
    as (k & lg & files & E & Hs & Hk & _ & Hres).
  exists k, lg, files. split; [exact E|]. split; [exact Hs|]. split; [exact Hk|].
  destruct Hres as [(-> & _)|H]; [left; reflexivity | right; exact H].
Qed.

(** X2.  When the listing first has entries after [k <= 3] syncs (every
    earlier listing failed; the attempt after [i] syncs lists the directory
    of the item as lower-cased by the calls so far), [get_files] called with
    [retries = 0] makes exactly [k] syncs and returns that listing. *)
Theorem get_files_first_listing item w (k : nat) files_dir :
  (k <= 3)%nat ->
  (forall i : nat, (i < k)%nat ->
     listing_fails (Nat.iter i sync w) (Nat.iter i str_lower item)) ->
  listdir (Nat.iter k sync w) (directory (Nat.iter k str_lower item))
    = Some files_dir ->
  files_dir <> [] ->
  exists lg,
    get_files item 0 w
      = (lg, Nat.iter k sync w, paths_of (Nat.iter k str_lower item) files_dir) /\
    syncs lg = k.
Proof.
  intros Hk Hfail Hl Hne.
  destruct (get_files_outcome _ item 0 w eq_refl)
    as (k' & lg & files & E & Hs & Hk' & Hfail' & Hres).
  assert (k' = k) as ->.
  { destruct (Nat.lt_trichotomy k' k) as [Hlt|[Heq|Hgt]]; [|exact Heq|].
    - destruct Hres as [(_ & -> & _)|(fd & Hl' & Hne' & _)]; [cbn in Hlt; lia|].
      unfold directory in Hl'.
      destruct (Hfail k' Hlt) as [H|H]; rewrite H in Hl'; congruence.
    - unfold directory in Hl.
      destruct (Hfail' k Hgt) as [H|H]; rewrite H in Hl; congruence. }
  exists lg. split; [|exact Hs].
  destruct Hres as [(_ & _ & [H|H])|(fd & Hl' & _ & ->)];
    [unfold directory in Hl; rewrite H in Hl; congruence
    | unfold directory in Hl; rewrite H in Hl; congruence |].
  rewrite Hl in Hl'. injection Hl' as <-. exact E.
Qed.

(** X3.  [download_github] clones exactly when the download directory cannot
    be listed.  Hence, when pulling keeps the directory in place, any number
    of syncs of an existing working copy are pulls only. *)
Theorem download_github_pull_only w (n : nat) :
  (forall w', listdir w' (download_dir +:+ "/") <> None ->
              listdir (_pull w') (download_dir +:+ "/") <> None) ->
  listdir w (download_dir +:+ "/") <> None ->
  Nat.iter n sync w = Nat.iter n _pull w /\
  (download_github (Nat.iter n sync w)).1 =
    [Info "syncing github"; Info "exists, pulling"; Info "done pulling"].
Proof.
  intros Hkeep Hw.
  assert (Hiter : forall m : nat,
            Nat.iter m sync w = Nat.iter m _pull w /\
            listdir (Nat.iter m sync w) (download_dir +:+ "/") <> None).
  { induction m as [|m [IH1 IH2]]; [split; [reflexivity | exact Hw]|].
    rewrite !Nat.iter_succ.
    assert (Hs : sync (Nat.iter m sync w) = _pull (Nat.iter m sync w)).
    { revert IH2. generalize (Nat.iter m sync w). intros wm Hwm.
      unfold FetchProps.sync, Core.download_github.
      destruct (listdir wm (download_dir +:+ "/")); [reflexivity | congruence]. }
    rewrite Hs. split; [rewrite IH1; reflexivity | apply Hkeep, IH2]. }
  destruct (Hiter n) as [H1 H2]. split; [exact H1|].
  revert H2. generalize (Nat.iter n sync w). intros wn Hwn.
  unfold Core.download_github.
  destruct (listdir wn (download_dir +:+ "/")); [reflexivity|congruence].
Qed.

End Fetcher.

(** A disk given by the number of syncs made so far: the directory of the
    item appears with one file at the second sync. *)
Definition late_listdir (w : nat) (directory : string) : option (list string) :=
  if (w <? 2)%nat then None else Some ["a.jpg"].

Lemma get_files_first_listing_witness :
  (2 <= 3)%nat /\
  (forall i : nat, (i < 2)%nat ->
     listing_fails late_listdir (fun _ => "birds") lower
       (Nat.iter i (sync late_listdir S S "github_download") 0%nat)
       (Nat.iter i lower "Blue Jay")) /\
  late_listdir (Nat.iter 2 (sync late_listdir S S "github_download") 0%nat)
    (directory (fun _ => "birds") lower (Nat.iter 2 lower "Blue Jay")) = Some ["a.jpg"] /\
  ["a.jpg"] <> [] /\
  exists lg,
    get_files late_listdir (fun _ => "birds") S S "github_download" lower "Blue Jay" 0 0%nat
      = (lg, Nat.iter 2 (sync late_listdir S S "github_download") 0%nat,
         paths_of (fun _ => "birds") lower (Nat.iter 2 lower "Blue Jay") ["a.jpg"]) /\
    syncs lg = 2%nat.
Proof.
  assert (H3 : (2 <= 3)%nat) by lia.
  assert (Hf : forall i : nat, (i < 2)%nat ->
     listing_fails late_listdir (fun _ => "birds") lower
       (Nat.iter i (sync late_listdir S S "github_download") 0%nat)
       (Nat.iter i lower "Blue Jay")).
  { intros [|[|i]] Hi; [left; reflexivity | left; reflexivity | lia]. }
  assert (Hl : late_listdir (Nat.iter 2 (sync late_listdir S S "github_download") 0%nat)
                 (directory (fun _ => "birds") lower (Nat.iter 2 lower "Blue Jay"))
               = Some ["a.jpg"])
    by reflexivity.
  assert (Hne : ["a.jpg"] <> []) by discriminate.
  split; [exact H3|]. split; [exact Hf|]. split; [exact Hl|]. split; [exact Hne|].
  exact (get_files_first_listing late_listdir (fun _ => "birds") S S
           "github_download" lower "Blue Jay" 0%nat 2 ["a.jpg"] H3 Hf Hl Hne).
Defined.

Lemma download_github_pull_only_witness :
  (forall w' : nat, (fun (_ : nat) (_ : string) => Some [])  w' ("github_download" +:+ "/") <> @None (list string) ->
     (fun (_ : nat) (_ : string) => Some []) (S w') ("github_download" +:+ "/") <> @None (list string)) /\
  (fun (_ : nat) (_ : string) => Some []) 0%nat ("github_download" +:+ "/") <> @None (list string) /\
  Nat.iter 2 (sync (fun (_ : nat) (_ : string) => Some []) Nat.pred S "github_download") 0%nat
    = Nat.iter 2 S 0%nat /\
  (download_github (fun (_ : nat) (_ : string) => Some []) Nat.pred S "github_download"
     (Nat.iter 2 (sync (fun (_ : nat) (_ : string) => Some []) Nat.pred S "github_download")
        0%nat)).1
  = [Info "syncing github"; Info "exists, pulling"; Info "done pulling"].
Proof.
  assert (Hk : forall w' : nat,
            (fun (_ : nat) (_ : string) => Some []) w' ("github_download" +:+ "/")
              <> @None (list string) ->
            (fun (_ : nat) (_ : string) => Some []) (S w') ("github_download" +:+ "/")
              <> @None (list string)) by (intros; discriminate).
  assert (H0 : (fun (_ : nat) (_ : string) => Some []) 0%nat ("github_download" +:+ "/")
               <> @None (list string)) by discriminate.
  split; [exact Hk|]. split; [exact H0|].
  exact (download_github_pull_only (fun (_ : nat) (_ : string) => Some [])
           Nat.pred S "github_download" 0%nat 2 Hk H0).
Defined.

End FetchExtra.


(** * More on the selector *)

Module SelectorExtra.
Import Core CoreProps.

(** ** The part of a name the filter looks at *)

(** Whether the character occurs in the string. *)
Fixpoint occurs (c : ascii) (s : string) : bool :=
  match s with
  | EmptyString => false
  | String c' s' => Ascii.eqb c' c || occurs c s'
  end.

Lemma split_no_sep sep s : occurs sep s = false -> split sep s = [s].
Proof.
  induction s as [|c s IH]; [reflexivity|].
  cbn [occurs split]. intros H. apply orb_false_iff in H as [Hc Hs].
  rewrite Hc, (IH Hs). reflexivity.
Qed.

Lemma split_nonempty sep s : split sep s <> [].
Proof.
  destruct s as [|c s]; [discriminate|]. cbn [split].
  destruct (Ascii.eqb c sep); [discriminate|].
  destruct (split sep s); discriminate.
Qed.

Lemma last_field_cons x l : l <> [] -> last_field (x :: l) = last_field l.
Proof. destruct l; [congruence | reflexivity]. Qed.

Lemma split_after_two sep stem rest :
  (2 <= length (split sep (stem +:+ String sep rest)))%nat.
Proof.
  induction stem as [|c stem IH].
  - rewrite GitProps.append_empty. cbn [split]. rewrite Ascii.eqb_refl.
    pose proof (split_nonempty sep rest). destruct (split sep rest); [congruence|].
    cbn. lia.
  - rewrite GitProps.append_cons. cbn [split].
    destruct (Ascii.eqb c sep); [cbn; lia|].
    destruct (split sep (stem +:+ String sep rest)); cbn in *; lia.
Qed.

Lemma last_split_after sep stem rest :
  last_field (split sep (stem +:+ String sep rest)) = last_field (split sep rest).
Proof.
  induction stem as [|c stem IH].
  - rewrite GitProps.append_empty. cbn [split]. rewrite Ascii.eqb_refl.
    apply last_field_cons, split_nonempty.
  - rewrite GitProps.append_cons. cbn [split].
    pose proof (split_nonempty sep (stem +:+ String sep rest)) as Hne.
    pose proof (split_after_two sep stem rest) as H2.
    destruct (Ascii.eqb c sep).
    + rewrite last_field_cons by exact Hne. exact IH.
    + destruct (split sep (stem +:+ String sep rest)) as [|x [|y l]];
        [congruence | cbn in H2; lia |].
      rewrite <- IH. reflexivity.
Qed.

(** X4.  The filter reads the extension after the last dot and ignores its
    case: a name [stem.ext] whose [ext] has no dot passes exactly when [ext],
    lower-cased, is one of jpg, png, jpeg, gif and the size is below
    4,000,000; a name without any dot is its own extension. *)
Theorem valid_image_reads_last_extension st_size stem ext :
  occurs "." ext = false ->
  extension_of (stem +:+ "." +:+ ext) = ext /\
  extension_of ext = ext /\
  valid_image st_size (stem +:+ "." +:+ ext) =
    bool_decide (lower ext ∈ valid_image_extensions)
    && (st_size (stem +:+ "." +:+ ext) <? 4000000).
Proof.
  intros Hext.
  assert (He : extension_of (stem +:+ "." +:+ ext) = ext).
  { unfold extension_of.
    change ("." +:+ ext) with (String "."%char ext).
    rewrite last_split_after, split_no_sep by exact Hext. reflexivity. }
  split; [exact He|]. split.
  - unfold extension_of. rewrite split_no_sep by exact Hext. reflexivity.
  - unfold valid_image, passes. rewrite He. reflexivity.
Qed.

Lemma valid_image_reads_last_extension_witness :
  occurs "." "JPG" = false /\
  extension_of ("birds/blue.jay/a" +:+ "." +:+ "JPG") = "JPG" /\
  extension_of "JPG" = "JPG" /\
  valid_image example_sizes ("birds/blue.jay/a" +:+ "." +:+ "JPG") =
    bool_decide (lower "JPG" ∈ valid_image_extensions)
    && (example_sizes ("birds/blue.jay/a" +:+ "." +:+ "JPG") <? 4000000).
Proof.
  assert (H : occurs "." "JPG" = false) by reflexivity.
  split; [exact H|].
  exact (valid_image_reads_last_extension example_sizes "birds/blue.jay/a" "JPG" H).
Defined.

(** ** Every outcome of a call *)

Lemma get_image_locals_ok_inv st_size images channel_id db lg db1 v :
  get_image_locals st_size images channel_id db = (lg, Ok (db1, v)) ->
  exists prevJ,
    hget db ("channel:" +:+ channel_id) "prevJ" = Some (FInt prevJ) /\
    images <> [] /\
    db1 = hset db ("channel:" +:+ channel_id) "prevJ"
            (FInt ((prevJ + 1) mod Z.of_nat (length images))).
Proof.
  unfold get_image_locals.
  destruct (hget db ("channel:" +:+ channel_id) "prevJ") as [[p| |]|];
    cbn [read_int]; try discriminate.
  destruct images as [|i0 l]; [discriminate|].
  destruct (scan _ _ _ _ _ _) as [lg2 [[v'|]|e]]; try discriminate.
  intros H. injection H as _ <- _. exists p. repeat split. discriminate.
Qed.

Lemma all_invalid_or_first st_size images j :
  0 < Z.of_nat (length images) ->
  (forall img, img ∈ images -> valid_image st_size img = false) \/
  (exists x img, first_valid_at st_size images j x img).
Proof.
  intros Hn.
  destruct (least_offset st_size images j (length images))
    as [Hnone|(x & Hx & Hv & Hlt)].
  - left. intros img Hin. apply list_elem_of_lookup in Hin as [i Hi].
    assert (Hir : 0 <= Z.of_nat i < Z.of_nat (length images)).
    { apply lookup_lt_Some in Hi. lia. }
    destruct (rot_surj images Hn j _ Hir) as (xi & Hxi & Hrot).
    specialize (Hnone xi Hxi). unfold valid_at in Hnone.
    rewrite Hrot, Nat2Z.id, Hi in Hnone. exact Hnone.
  - right. destruct (proj1 (valid_at_true st_size images j x) Hv) as (img & Hl & Hvi).
    exists x, img. apply first_valid_at_iff; [exact Hn|]. tauto.
Qed.

(** The ways a call can end, for a channel whose [prevJ] can be read. *)
Lemma get_image_cases st_size images channel_id db prevJ :
  hget db ("channel:" +:+ channel_id) "prevJ" = Some (FInt prevJ) ->
  match (get_image st_size images channel_id db).2 with
  | Ok (db', (path, ext)) =>
      images <> [] /\ path ∈ images /\ ext = extension_of path /\
      db' = hset db ("channel:" +:+ channel_id) "prevJ"
              (FInt ((prevJ + 1) mod Z.of_nat (length images))) /\
      (valid_image st_size path = true <->
       exists img, img ∈ images /\ valid_image st_size img = true) /\
      (valid_image st_size path = false ->
       ~ 0 <= prevJ < Z.of_nat (length images))
  | Raise e =>
      (e = GenericError "No Images Found" 100 /\ images = []) \/
      (e = GenericError "No Valid Images Found" 999 /\ images <> [] /\
       0 <= prevJ < Z.of_nat (length images) /\
       forall img, img ∈ images -> valid_image st_size img = false)
  end.
Proof.
  intros Hdb.
  destruct images as [|i0 l] eqn:Himg.
  { unfold get_image, get_image_locals. rewrite Hdb. cbn. left. auto. }
  rewrite <- Himg.
  assert (Hne : images <> []) by (rewrite Himg; discriminate).
  assert (Hn : 0 < Z.of_nat (length images)) by (rewrite Himg; cbn; lia).
  clear Himg.
  set (j := (prevJ + 1) mod Z.of_nat (length images)).
  destruct (all_invalid_or_first st_size images j Hn) as [Hall|(x & img & Hf)].
  - destruct (Z_le_dec 0 prevJ) as [H0|H0];
      [destruct (Z_lt_dec prevJ (Z.of_nat (length images))) as [H1|H1]|].
    + destruct (get_image_locals_none_valid st_size images channel_id db prevJ
                  Hn Hdb (conj H0 H1) Hall) as (lg & E & _).
      unfold get_image. rewrite E. cbn. right. auto.
    + destruct (get_image_locals_none_valid_out_of_range st_size images
                  channel_id db prevJ Hn Hdb ltac:(lia) Hall)
        as (lg & img & E & Hin & Hv & _).
      rewrite (get_image_of_locals _ _ _ _ _ _ _ E). cbn.
      repeat split; try assumption; try reflexivity.
      * intros Ht. congruence.
      * intros (img' & Hin' & Hv'). rewrite (Hall img' Hin') in Hv'. discriminate.
      * intros _. lia.
    + destruct (get_image_locals_none_valid_out_of_range st_size images
                  channel_id db prevJ Hn Hdb ltac:(lia) Hall)
        as (lg & img & E & Hin & Hv & _).
      rewrite (get_image_of_locals _ _ _ _ _ _ _ E). cbn.
      repeat split; try assumption; try reflexivity.
      * intros Ht. congruence.
      * intros (img' & Hin' & Hv'). rewrite (Hall img' Hin') in Hv'. discriminate.
      * intros _. lia.
  - destruct (get_image_locals_found st_size images channel_id db prevJ Hn Hdb
                x img Hf) as (lg & E & _).
    rewrite (get_image_of_locals _ _ _ _ _ _ _ E). cbn.
    destruct Hf as (_ & Hl & Hv & _).
    assert (Hin : img ∈ images) by (apply list_elem_of_lookup; eauto).
    repeat split; try assumption; try reflexivity.
    + intros _. eauto.
    + intros _. exact Hv.
    + intros Hv'. congruence.
Qed.

(** X5.  On a channel whose [prevJ] can be read, a call ends in one of four
    ways and no other: code 100 for the empty list; a candidate that passes
    the filter, when there is one; code 999 when none passes and [prevJ] is
    an index of the list; and, when none passes and [prevJ] is not an index
    of the list, a candidate that fails the filter.  A call that returns
    stores [(prevJ + 1) mod len]. *)
Theorem get_image_outcomes st_size images channel_id db prevJ :
  hget db ("channel:" +:+ channel_id) "prevJ" = Some (FInt prevJ) ->
  match (get_image st_size images channel_id db).2 with
  | Ok (db', (path, ext)) =>
      images <> [] /\ path ∈ images /\ ext = extension_of path /\
      db' = hset db ("channel:" +:+ channel_id) "prevJ"
              (FInt ((prevJ + 1) mod Z.of_nat (length images))) /\
      (valid_image st_size path = true <->
       exists img, img ∈ images /\ valid_image st_size img = true) /\
      (valid_image st_size path = false ->
       ~ 0 <= prevJ < Z.of_nat (length images))
  | Raise e =>
      (e = GenericError "No Images Found" 100 /\ images = []) \/
      (e = GenericError "No Valid Images Found" 999 /\ images <> [] /\
       0 <= prevJ < Z.of_nat (length images) /\
       forall img, img ∈ images -> valid_image st_size img = false)
  end.
Proof. apply get_image_cases. Qed.

Lemma get_image_outcomes_witness :
  hget fresh_channel ("channel:" +:+ "7") "prevJ" = Some (FInt 20) /\
  match (get_image example_sizes ["a.txt"; "b.png"] "7" fresh_channel).2 with
  | Ok (db', (path, ext)) =>
      ["a.txt"; "b.png"] <> [] /\ path ∈ ["a.txt"; "b.png"] /\
      ext = extension_of path /\
      db' = hset fresh_channel ("channel:" +:+ "7") "prevJ"
              (FInt ((20 + 1) mod Z.of_nat (length ["a.txt"; "b.png"]))) /\
      (valid_image example_sizes path = true <->
       exists img, img ∈ ["a.txt"; "b.png"] /\ valid_image example_sizes img = true) /\
      (valid_image example_sizes path = false ->
       ~ 0 <= 20 < Z.of_nat (length ["a.txt"; "b.png"]))
  | Raise e =>
      (e = GenericError "No Images Found" 100 /\ ["a.txt"; "b.png"] = []) \/
      (e = GenericError "No Valid Images Found" 999 /\ ["a.txt"; "b.png"] <> [] /\
       0 <= 20 < Z.of_nat (length ["a.txt"; "b.png"]) /\
       forall img, img ∈ ["a.txt"; "b.png"] -> valid_image example_sizes img = false)
  end.
Proof.
  assert (Hdb : hget fresh_channel ("channel:" +:+ "7") "prevJ" = Some (FInt 20))
    by (vm_compute; reflexivity).
  split; [exact Hdb|].
  exact (get_image_outcomes example_sizes ["a.txt"; "b.png"] "7" fresh_channel 20 Hdb).
Defined.

(** X6.  A call that returns leaves an index of the list as [prevJ]; so a
    further call on the same list cannot return a candidate that fails the
    filter: it returns one that passes or raises code 999. *)
Theorem get_image_sound_after_first_call st_size images channel_id db lg db1 v :
  get_image_locals st_size images channel_id db = (lg, Ok (db1, v)) ->
  (exists j, hget db1 ("channel:" +:+ channel_id) "prevJ" = Some (FInt j) /\
             0 <= j < Z.of_nat (length images)) /\
  match (get_image st_size images channel_id db1).2 with
  | Ok (_, (path, _)) => valid_image st_size path = true
  | Raise e => e = GenericError "No Valid Images Found" 999
  end.
Proof.
  intros H. destruct (get_image_locals_ok_inv _ _ _ _ _ _ _ H) as (p & Hdb & Hne & ->).
  assert (Hn : 0 < Z.of_nat (length images)).
  { destruct images; [congruence | cbn; lia]. }
  set (j := (p + 1) mod Z.of_nat (length images)).
  assert (Hj : 0 <= j < Z.of_nat (length images)) by (apply Z.mod_pos_bound; exact Hn).
  split; [exists j; split; [apply hget_hset | exact Hj]|].
  pose proof (get_image_cases st_size images channel_id
                (hset db ("channel:" +:+ channel_id) "prevJ" (FInt j)) j
                (hget_hset _ _ _ _)) as Hc.
  destruct (get_image st_size images channel_id _).2 as [[db2 [path ext]]|e].
  - destruct Hc as (_ & _ & _ & _ & _ & Hinv).
    destruct (valid_image st_size path); [reflexivity|].
    exfalso. exact (Hinv eq_refl Hj).
  - destruct Hc as [[_ Hnil]|[He _]]; [congruence | exact He].
Qed.

Lemma get_image_sound_after_first_call_witness :
  get_image_locals example_sizes ["a.txt"] "7" fresh_channel
    = ((get_image_locals example_sizes ["a.txt"] "7" fresh_channel).1,
       Ok (hset fresh_channel "channel:7" "prevJ" (FInt 0), Locals 0 "a.txt" "txt")) /\
  (exists j, hget (hset fresh_channel "channel:7" "prevJ" (FInt 0))
               ("channel:" +:+ "7") "prevJ" = Some (FInt j) /\
             0 <= j < Z.of_nat (length ["a.txt"])) /\
  match (get_image example_sizes ["a.txt"] "7"
           (hset fresh_channel "channel:7" "prevJ" (FInt 0))).2 with
  | Ok (_, (path, _)) => valid_image example_sizes path = true
  | Raise e => e = GenericError "No Valid Images Found" 999
  end.
Proof.
  assert (H : get_image_locals example_sizes ["a.txt"] "7" fresh_channel
    = ((get_image_locals example_sizes ["a.txt"] "7" fresh_channel).1,
       Ok (hset fresh_channel "channel:7" "prevJ" (FInt 0), Locals 0 "a.txt" "txt"))).
  { vm_compute. reflexivity. }
  split; [exact H|].
  exact (get_image_sound_after_first_call example_sizes ["a.txt"] "7"
           fresh_channel _ _ _ H).
Defined.

(** ** Calls in a row *)

(** [k] calls in a row for the same list, each on the store the one before
    left; the answers in order. *)
Fixpoint get_image_times (st_size : string -> Z) (images : list string)
    (channel_id : string) (k : nat) (db : gmap string (gmap string field))
  : result (gmap string (gmap string field) * list (string * string)) :=
  match k with
  | O => Ok (db, [])
  | S k' =>
      match (get_image st_size images channel_id db).2 with
      | Raise e => Raise e
      | Ok (db1, a) =>
          match get_image_times st_size images channel_id k' db1 with
          | Raise e => Raise e
          | Ok (db2, l) => Ok (db2, a :: l)
          end
      end
  end.

Section AllValid.
Variable st_size : string -> Z.
Variable images : list string.
Variable channel_id : string.
Hypothesis Hne : images <> [].
Hypothesis Hall : forall img, img ∈ images -> valid_image st_size img = true.

Lemma length_pos : 0 < Z.of_nat (length images).
Proof. destruct images; [congruence | cbn; lia]. Qed.

(** With every candidate passing, a call returns the candidate at
    [(prevJ + 1) mod len] and stores that index. *)
Lemma get_image_all_valid db prevJ :
  hget db ("channel:" +:+ channel_id) "prevJ" = Some (FInt prevJ) ->
  exists img,
    images !! Z.to_nat ((prevJ + 1) mod Z.of_nat (length images)) = Some img /\
    (get_image st_size images channel_id db).2 =
      Ok (hset db ("channel:" +:+ channel_id) "prevJ"
            (FInt ((prevJ + 1) mod Z.of_nat (length images))),
          (img, extension_of img)).
Proof.
  intros Hdb. pose proof length_pos as Hn.
  set (j := (prevJ + 1) mod Z.of_nat (length images)).
  assert (Hj : 0 <= j < Z.of_nat (length images)) by (apply Z.mod_pos_bound; exact Hn).
  assert (Hrot0 : rot images j 0 = j).
  { unfold rot. rewrite Z.add_0_l. apply Z.mod_small. exact Hj. }
  destruct (lookup_in_range images j Hj) as [img Hl].
  exists img. split; [exact Hl|].
  assert (Hf : first_valid_at st_size images j 0 img).
  { split; [lia|]. rewrite Hrot0. split; [exact Hl|].
    split; [apply Hall, list_elem_of_lookup; eauto | intros x' Hx'; lia]. }
  destruct (get_image_locals_found st_size images channel_id db prevJ Hn Hdb 0 img Hf)
    as (lg & E & _).
  rewrite (get_image_of_locals _ _ _ _ _ _ _ E). reflexivity.
Qed.

Lemma get_image_times_lookup (k : nat) : forall db prevJ,
  hget db ("channel:" +:+ channel_id) "prevJ" = Some (FInt prevJ) ->
  exists db' l,
    get_image_times st_size images channel_id k db = Ok (db', l) /\
    length l = k /\
    forall i : nat, (i < k)%nat ->
      exists img,
        images !! Z.to_nat ((prevJ + 1 + Z.of_nat i) mod Z.of_nat (length images))
          = Some img /\
        l !! i = Some (img, extension_of img).
Proof.
  pose proof length_pos as Hn.
  induction k as [|k IH]; intros db prevJ Hdb.
  - exists db, []. split; [reflexivity|]. split; [reflexivity|]. intros i Hi. lia.
  - destruct (get_image_all_valid db prevJ Hdb) as (img & Hl & E).
    destruct (IH _ _ (hget_hset db ("channel:" +:+ channel_id) "prevJ"
                        (FInt ((prevJ + 1) mod Z.of_nat (length images)))))
      as (db' & l & Et & Hlen & Hlook).
    exists db', ((img, extension_of img) :: l).
    cbn [get_image_times]. rewrite E, Et.
    split; [reflexivity|]. split; [cbn; lia|].
    intros [|i] Hi.
    + exists img. rewrite Z.add_0_r. split; [exact Hl | reflexivity].
    + destruct (Hlook i ltac:(lia)) as (img' & Hl' & Hi').
      exists img'. split; [|exact Hi'].
      rewrite <- Hl'. f_equal. f_equal.
      replace (prevJ + 1 + Z.of_nat (S i)) with (prevJ + 1 + (1 + Z.of_nat i)) by lia.
      rewrite <- (Z.add_assoc _ 1 (Z.of_nat i)), Z.add_mod_idemp_l by lia.
      reflexivity.
Qed.

Lemma rotate_Permutation {A} (l : list A) m : rotate m l ≡ₚ l.
Proof.
  unfold rotate. rewrite Permutation_app_comm, take_drop. reflexivity.
Qed.

(** X7.  When every candidate passes the filter, as many calls in a row as
    there are candidates return each candidate exactly once: the list in
    its own order, started at index [(prevJ + 1) mod len]. *)
Theorem get_image_round_robin db prevJ :
  hget db ("channel:" +:+ channel_id) "prevJ" = Some (FInt prevJ) ->
  exists db' l,
    get_image_times st_size images channel_id (length images) db = Ok (db', l) /\
    l.*1 = rotate (Z.to_nat ((prevJ + 1) mod Z.of_nat (length images))) images /\
    l.*1 ≡ₚ images /\
    l.*2 = extension_of <$> l.*1.
Proof.
  intros Hdb. pose proof length_pos as Hn.
  destruct (get_image_times_lookup (length images) db prevJ Hdb)
    as (db' & l & E & Hlen & Hlook).
  assert (Hrot : l.*1 = rotate (Z.to_nat ((prevJ + 1) mod Z.of_nat (length images)))
                          images).
  { apply list_eq. intros i. rewrite list_lookup_fmap.
    destruct (Nat.lt_ge_cases i (length images)) as [Hi|Hi].
    - destruct (Hlook i Hi) as (img & Hl & Hli). rewrite Hli. cbn.
      rewrite lookup_rotate_r by exact Hi. rewrite <- Hl. f_equal.
      unfold rotate_nat_add. f_equal.
      rewrite Z2Nat.id by (apply Z.mod_pos_bound; exact Hn).
      rewrite Z.add_mod_idemp_l by lia. reflexivity.
    - rewrite (lookup_ge_None_2 l) by lia. cbn. symmetry.
      apply lookup_ge_None_2. rewrite length_rotate. exact Hi. }
  exists db', l. split; [exact E|]. split; [exact Hrot|].
  split; [rewrite Hrot; apply rotate_Permutation|].
  apply list_eq. intros i. rewrite !list_lookup_fmap.
  destruct (Nat.lt_ge_cases i (length images)) as [Hi|Hi].
  - destruct (Hlook i Hi) as (img & _ & Hli). rewrite Hli. reflexivity.
  - rewrite (lookup_ge_None_2 l) by lia. reflexivity.
Qed.

End AllValid.

Lemma get_image_round_robin_witness :
  ["a.jpg"; "b.png"; "c.gif"] <> [] /\
  (forall img, img ∈ ["a.jpg"; "b.png"; "c.gif"] ->
               valid_image example_sizes img = true) /\
  hget fresh_channel ("channel:" +:+ "7") "prevJ" = Some (FInt 20) /\
  exists db' l,
    get_image_times example_sizes ["a.jpg"; "b.png"; "c.gif"] "7"
      (length ["a.jpg"; "b.png"; "c.gif"]) fresh_channel = Ok (db', l) /\
    l.*1 = rotate (Z.to_nat ((20 + 1) mod Z.of_nat (length ["a.jpg"; "b.png"; "c.gif"])))
             ["a.jpg"; "b.png"; "c.gif"] /\
    l.*1 ≡ₚ ["a.jpg"; "b.png"; "c.gif"] /\
    l.*2 = extension_of <$> l.*1.
Proof.
  assert (Hne : ["a.jpg"; "b.png"; "c.gif"] <> []) by discriminate.
  assert (Hall : forall img, img ∈ ["a.jpg"; "b.png"; "c.gif"] ->
                             valid_image example_sizes img = true).
  { intros img Hin. apply list_elem_of_In in Hin.
    destruct Hin as [<-|[<-|[<-|[]]]]; vm_compute; reflexivity. }
  assert (Hdb : hget fresh_channel ("channel:" +:+ "7") "prevJ" = Some (FInt 20))
    by (vm_compute; reflexivity).
  split; [exact Hne|]. split; [exact Hall|]. split; [exact Hdb|].
  exact (get_image_round_robin example_sizes ["a.jpg"; "b.png"; "c.gif"] "7"
           Hne Hall fresh_channel 20 Hdb).
Defined.

End SelectorExtra.


(** * More on the decoders of git_tasks.py *)

Module DecodeExtra.
Import GitTasks GitProps.

(** ** Words that are not within the width of the table *)

(** Leading zeros select nothing. *)
Lemma decode_flags_zeros k : forall i digits set_flags,
  decode_flags i (zeros k +:+ digits) set_flags =
  decode_flags (i + Z.of_nat k) digits set_flags.
Proof.
  induction k as [|k IH]; intros i digits set_flags.
  - rewrite Z.add_0_r. reflexivity.
  - cbn [zeros]. rewrite append_cons. cbn [decode_flags].
    change (int_of_char "0") with (Ok 0). cbn [mbind result_bind].
    change (0 =? 0) with true. cbv iota. rewrite IH. f_equal. lia.
Qed.

Lemma opcode_comprehension_zeros_raise k : forall i digits e,
  opcode_comprehension (i + Z.of_nat k) digits = Raise e ->
  opcode_comprehension i (zeros k +:+ digits) = Raise e.
Proof.
  induction k as [|k IH]; intros i digits e H.
  - rewrite Z.add_0_r in H. exact H.
  - cbn [zeros]. rewrite append_cons. cbn [opcode_comprehension].
    change (int_of_char "0") with (Ok 0). cbn [mbind result_bind].
    change (0 =? 0) with true. cbv iota. cbn [mbind result_bind].
    rewrite (IH (i + 1) digits e); [reflexivity|].
    replace (i + 1 + Z.of_nat k) with (i + Z.of_nat (S k)) by lia. exact H.
Qed.

(** The rendering of a negative word: zeros, then the minus sign. *)
Lemma format_0b_negative width p :
  format_0b width (Zneg p) =
  zeros (width - String.length (format_b (Zneg p))) +:+ String "-" (bin_pos p).
Proof. reflexivity. Qed.

Lemma decode_flags_negative i w set_flags :
  w < 0 -> decode_flags i (format_0b 11 w) set_flags = Raise ValueError.
Proof.
  intros Hw. destruct w as [|p|p]; [lia|lia|].
  rewrite format_0b_negative, decode_flags_zeros. reflexivity.
Qed.

Lemma opcode_comprehension_negative i w :
  w < 0 -> opcode_comprehension i (format_0b 9 w) = Raise ValueError.
Proof.
  intros Hw. destruct w as [|p|p]; [lia|lia|].
  rewrite format_0b_negative. apply opcode_comprehension_zeros_raise. reflexivity.
Qed.

(** X8.  A negative word never decodes: the minus sign of its rendering is
    not a digit, so both decoders raise [ValueError]; the helper then raises
    without logging, and the progress callback raises before it writes. *)
Theorem negative_word_raises_ValueError
    (git : repo -> string -> world -> git_outcome) (randint : nat -> Z)
    r msg user_id ev (w : world) flags rest :
  flags < 0 ->
  push_result (git r msg w) = flags :: rest ->
  op_code ev < 0 ->
  decode_flags 0 (format_0b 11 flags) [] = Raise ValueError /\
  opcode_comprehension 0 (format_0b 9 (op_code ev)) = Raise ValueError /\
  _push_helper git r msg None w = (w, Raise ValueError) /\
  wrapped_progress randint user_id ev w = (w, Raise ValueError).
Proof.
  intros Hf Hres Hop.
  pose proof (decode_flags_negative 0 flags [] Hf) as Hd.
  pose proof (opcode_comprehension_negative 0 (op_code ev) Hop) as Ho.
  split; [exact Hd|]. split; [exact Ho|]. split.
  - unfold _push_helper, mbind, M_bind, get_world, mret, M_ret, lift.
    rewrite Hres. change (py_index (flags :: rest) 0) with (Some flags).
    change (Z.of_nat (length (flags :: rest)) =? 0) with false.
    cbv iota. rewrite Hd. reflexivity.
  - pose proof (wrapped_progress_run randint user_id ev w) as H.
    rewrite Ho in H. exact H.
Qed.

(** ** Words wider than the table *)

Lemma decode_flags_app digits1 : forall i digits2 set_flags,
  decode_flags i (digits1 +:+ digits2) set_flags =
  (l ← decode_flags i digits1 set_flags;
   decode_flags (i + Z.of_nat (String.length digits1)) digits2 l).
Proof.
  induction digits1 as [|c digits1 IH]; intros i digits2 set_flags.
  - cbn [String.length decode_flags mbind result_bind].
    rewrite append_empty, Z.add_0_r. reflexivity.
  - rewrite append_cons. cbn [decode_flags String.length].
    destruct (int_of_char c) as [b|e]; [|reflexivity].
    cbn [mbind result_bind].
    replace (i + Z.of_nat (S (String.length digits1)))
      with (i + 1 + Z.of_nat (String.length digits1)) by lia.
    destruct (b =? 0); [apply IH|].
    destruct (py_index GIT_PUSHINFO_FLAGS i); [apply IH | reflexivity].
Qed.

Lemma bits_split (n k : nat) w :
  bits (n + k) w = bits n (Z.shiftr w (Z.of_nat k)) +:+ bits k w.
Proof.
  induction n as [|n IH]; [reflexivity|].
  cbn [Nat.add bits]. rewrite append_cons, IH, Z.shiftr_spec by lia.
  replace (Z.of_nat n + Z.of_nat k) with (Z.of_nat (n + k)) by lia. reflexivity.
Qed.

(** The bits below [k] of a word below [2^k] that is not 0 are not all 0. *)
Lemma low_bit_false (k : nat) r :
  0 <= r < 2 ^ Z.of_nat (S k) -> Z.testbit r (Z.of_nat k) = false ->
  0 <= r < 2 ^ Z.of_nat k.
Proof.
  intros [H0 H1] Hb. split; [exact H0|].
  destruct (Z.lt_ge_cases r (2 ^ Z.of_nat k)) as [|Hge]; [assumption|].
  exfalso. rewrite Nat2Z.inj_succ, Z.pow_succ_r in H1 by lia.
  assert (Hpos : 0 < 2 ^ Z.of_nat k) by (apply Z.pow_pos_nonneg; lia).
  assert (Hq : r / 2 ^ Z.of_nat k = 1).
  { symmetry. apply (Z.div_unique r (2 ^ Z.of_nat k) 1 (r - 2 ^ Z.of_nat k)); lia. }
  assert (Ht : Z.testbit r (Z.of_nat k) = true).
  { apply Z.testbit_true; [lia|]. rewrite Hq. reflexivity. }
  congruence.
Qed.

(** Past the end of the table a set digit raises, a clear digit is skipped. *)
Lemma decode_flags_past (k : nat) : forall i r set_flags,
  11 <= i -> 0 <= r < 2 ^ Z.of_nat k ->
  decode_flags i (bits k r) set_flags =
    if r =? 0 then Ok set_flags else Raise IndexError.
Proof.
  induction k as [|k IH]; intros i r set_flags Hi Hr.
  - assert (r = 0) as -> by (cbn in Hr; lia). reflexivity.
  - cbn [bits decode_flags]. rewrite int_of_char_bit. cbn [mbind result_bind].
    destruct (Z.testbit r (Z.of_nat k)) eqn:Hb.
    + change (1 =? 0) with false. cbv iota.
      rewrite py_index_past by (cbn; lia).
      destruct (Z.eqb_spec r 0) as [->|_]; [|reflexivity].
      rewrite Z.bits_0 in Hb. discriminate.
    + change (0 =? 0) with true. cbv iota.
      apply IH; [lia | exact (low_bit_false k r Hr Hb)].
Qed.

Lemma bits_mod (k : nat) w : 0 <= w -> bits k (w mod 2 ^ Z.of_nat k) = bits k w.
Proof.
  intros Hw. assert (H : forall n : nat, (n <= k)%nat ->
                      bits n (w mod 2 ^ Z.of_nat k) = bits n w).
  { induction n as [|n IH]; intros Hn; [reflexivity|].
    cbn [bits]. rewrite IH by lia.
    rewrite Z.mod_pow2_bits_low by lia. reflexivity. }
  apply H. lia.
Qed.

Lemma pos_ge_pow_size p : 2 ^ Z.of_nat (Pos.size_nat p - 1) <= Zpos p.
Proof.
  induction p as [p IH|p IH|]; cbn [Pos.size_nat]; [| |cbn; lia].
  - replace (S (Pos.size_nat p) - 1)%nat with (S (Pos.size_nat p - 1))
      by (destruct p; cbn; lia).
    rewrite Nat2Z.inj_succ, Z.pow_succ_r by lia. lia.
  - replace (S (Pos.size_nat p) - 1)%nat with (S (Pos.size_nat p - 1))
      by (destruct p; cbn; lia).
    rewrite Nat2Z.inj_succ, Z.pow_succ_r by lia. lia.
Qed.

Lemma ERROR_flag m : 2 ^ 10 <= m < 2 ^ 11 -> "ERROR" ∈ names_from GIT_PUSHINFO_FLAGS m.
Proof.
  intros Hm. apply elem_of_names_from. exists 0%nat. split; [reflexivity|].
  apply Z.testbit_true; [cbn; lia|].
  change (Z.of_nat (length GIT_PUSHINFO_FLAGS) - 1 - Z.of_nat 0) with 10.
  assert (Hq : m / 2 ^ 10 = 1).
  { symmetry. apply (Z.div_unique m (2 ^ 10) 1 (m - 2 ^ 10)); lia. }
  rewrite Hq. reflexivity.
Qed.

(** X9.  A flag word of more than 11 bits is misread, never refused for its
    width: with [k] the number of digits past the table, the decoder raises
    [IndexError] when one of the low [k] bits is set, and otherwise returns
    the names of the word shifted right by [k], which always include
    ["ERROR"]. *)
Theorem decode_flags_wide_word w :
  2 ^ 11 <= w ->
  exists (k : nat) m r,
    (0 < k)%nat /\ 2 ^ 10 <= m < 2 ^ 11 /\ 0 <= r < 2 ^ Z.of_nat k /\
    w = m * 2 ^ Z.of_nat k + r /\
    String.length (format_0b 11 w) = (11 + k)%nat /\
    decode_flags 0 (format_0b 11 w) [] =
      (if r =? 0 then Ok (names_from GIT_PUSHINFO_FLAGS m) else Raise IndexError) /\
    "ERROR" ∈ names_from GIT_PUSHINFO_FLAGS m.
Proof.
  intros Hw. destruct w as [|p|p]; [lia| |lia].
  pose proof (size_gt_of_ge_pow p 11 Hw) as Hsize.
  pose proof (pos_lt_pow_size p) as Hlt.
  pose proof (pos_ge_pow_size p) as Hge.
  set (k := (Pos.size_nat p - 11)%nat).
  assert (Hn : Pos.size_nat p = (11 + k)%nat) by (subst k; lia).
  assert (Hpk : 0 < 2 ^ Z.of_nat k) by (apply Z.pow_pos_nonneg; lia).
  assert (Hfmt : format_0b 11 (Zpos p) = bits (11 + k) (Zpos p)).
  { unfold format_0b. cbn [format_b]. rewrite bin_pos_bits, length_bits, Hn.
    replace (11 - (11 + k))%nat with 0%nat by lia. reflexivity. }
  assert (Hm : 2 ^ 10 <= Zpos p / 2 ^ Z.of_nat k < 2 ^ 11).
  { rewrite Hn in Hlt, Hge.
    replace (11 + k - 1)%nat with (10 + k)%nat in Hge by lia.
    rewrite Nat2Z.inj_add, Z.pow_add_r in Hlt, Hge by lia.
    split.
    - apply Z.div_le_lower_bound; [exact Hpk|]. change (Z.of_nat 10) with 10 in Hge. lia.
    - apply Z.div_lt_upper_bound; [exact Hpk|]. change (Z.of_nat 11) with 11 in Hlt. lia. }
  pose proof (Z.mod_pos_bound (Zpos p) (2 ^ Z.of_nat k) Hpk) as Hr.
  exists k, (Zpos p / 2 ^ Z.of_nat k), (Zpos p mod 2 ^ Z.of_nat k).
  split; [lia|]. split; [exact Hm|]. split; [exact Hr|].
  split; [rewrite (Z.div_mod (Zpos p) (2 ^ Z.of_nat k)) at 1 by lia; lia|].
  split; [rewrite Hfmt; apply length_bits|].
  split; [|exact (ERROR_flag _ Hm)].
  rewrite Hfmt, bits_split, decode_flags_app, Z.shiftr_div_pow2 by lia.
  change (bits 11 (Zpos p / 2 ^ Z.of_nat k))
    with (bits (length GIT_PUSHINFO_FLAGS) (Zpos p / 2 ^ Z.of_nat k)).
  rewrite (decode_flags_bits _ GIT_PUSHINFO_FLAGS [] [] eq_refl).
  cbn [mbind result_bind app]. rewrite length_bits.
  rewrite <- (bits_mod k (Zpos p)) by lia.
  apply decode_flags_past; [cbn; lia | exact Hr].
Qed.

(** ** Distinct words give distinct names *)

Lemma NoDup_flags : NoDup GIT_PUSHINFO_FLAGS.
Proof. apply (bool_decide_unpack _). vm_compute. reflexivity. Qed.

(** Within the width of a table without repetition, the names listed tell
    every bit of the word. *)
Lemma names_from_testbit table w (i : nat) name :
  NoDup table -> table !! i = Some name ->
  Z.testbit w (Z.of_nat (length table) - 1 - Z.of_nat i) = true <->
  name ∈ names_from table w.
Proof.
  intros Hnd Hi. rewrite elem_of_names_from. split.
  - intros Hb. exists i. split; assumption.
  - intros (i' & Hi' & Hb).
    assert (i' = i) as -> by exact (NoDup_lookup _ _ _ _ Hnd Hi' Hi). exact Hb.
Qed.

Lemma names_from_inj table w1 w2 :
  NoDup table ->
  0 <= w1 < 2 ^ Z.of_nat (length table) -> 0 <= w2 < 2 ^ Z.of_nat (length table) ->
  names_from table w1 = names_from table w2 -> w1 = w2.
Proof.
  intros Hnd H1 H2 Heq. apply Z.bits_inj'. intros n Hn.
  destruct (Z.lt_ge_cases n (Z.of_nat (length table))) as [Hlt|Hge].
  - set (i := Z.to_nat (Z.of_nat (length table) - 1 - n)).
    destruct (lookup_lt_is_Some_2 table i) as [name Hname]; [subst i; lia|].
    pose proof (names_from_testbit table w1 i name Hnd Hname) as T1.
    pose proof (names_from_testbit table w2 i name Hnd Hname) as T2.
    replace (Z.of_nat (length table) - 1 - Z.of_nat i) with n in T1, T2
      by (subst i; lia).
    rewrite Heq in T1.
    destruct (Z.testbit w1 n), (Z.testbit w2 n); try reflexivity.
    + symmetry. apply T2, T1. reflexivity.
    + apply T1, T2. reflexivity.
  - rewrite (testbit_high w1 (length table) n H1 Hge).
    rewrite (testbit_high w2 (length table) n H2 Hge). reflexivity.
Qed.

(** X10.  Two different flag words of at most 11 bits decode to different
    lists of names: what the helper returns tells the word. *)
Theorem distinct_words_decode_differently w1 w2 :
  0 <= w1 < 2 ^ 11 -> 0 <= w2 < 2 ^ 11 -> w1 <> w2 ->
  exists l1 l2,
    decode_flags 0 (format_0b 11 w1) [] = Ok l1 /\
    decode_flags 0 (format_0b 11 w2) [] = Ok l2 /\
    l1 <> l2.
Proof.
  intros H1 H2 Hne.
  exists (names_from GIT_PUSHINFO_FLAGS w1), (names_from GIT_PUSHINFO_FLAGS w2).
  split; [exact (decode_flags_word w1 H1)|].
  split; [exact (decode_flags_word w2 H2)|].
  intros Heq. apply Hne.
  exact (names_from_inj GIT_PUSHINFO_FLAGS w1 w2 NoDup_flags H1 H2 Heq).
Qed.

Definition negative_git (r : repo) (msg : string) (w : world) : git_outcome :=
  GitOutcome [] [-1].

Lemma negative_word_raises_ValueError_witness :
  -1 < 0 /\
  push_result (negative_git verify_repo "update" empty_world) = [-1] /\
  op_code (ProgressEvent (-1) JNull JNull "") < 0 /\
  decode_flags 0 (format_0b 11 (-1)) [] = Raise ValueError /\
  opcode_comprehension 0 (format_0b 9 (op_code (ProgressEvent (-1) JNull JNull "")))
    = Raise ValueError /\
  _push_helper negative_git verify_repo "update" None empty_world
    = (empty_world, Raise ValueError) /\
  wrapped_progress (fun _ => 1) "42" (ProgressEvent (-1) JNull JNull "") empty_world
    = (empty_world, Raise ValueError).
Proof.
  assert (H1 : -1 < 0) by lia.
  assert (H2 : push_result (negative_git verify_repo "update" empty_world) = [-1])
    by reflexivity.
  assert (H3 : op_code (ProgressEvent (-1) JNull JNull "") < 0) by (cbn; lia).
  split; [exact H1|]. split; [exact H2|]. split; [exact H3|].
  exact (negative_word_raises_ValueError negative_git (fun _ => 1) verify_repo
           "update" "42" (ProgressEvent (-1) JNull JNull "") empty_world
           (-1) [] H1 H2 H3).
Defined.

Lemma decode_flags_wide_word_witness :
  2 ^ 11 <= 6144 /\
  exists (k : nat) m r,
    (0 < k)%nat /\ 2 ^ 10 <= m < 2 ^ 11 /\ 0 <= r < 2 ^ Z.of_nat k /\
    6144 = m * 2 ^ Z.of_nat k + r /\
    String.length (format_0b 11 6144) = (11 + k)%nat /\
    decode_flags 0 (format_0b 11 6144) [] =
      (if r =? 0 then Ok (names_from GIT_PUSHINFO_FLAGS m) else Raise IndexError) /\
    "ERROR" ∈ names_from GIT_PUSHINFO_FLAGS m.
Proof.
  assert (H : 2 ^ 11 <= 6144) by lia.
  split; [exact H|]. exact (decode_flags_wide_word 6144 H).
Defined.

Lemma distinct_words_decode_differently_witness :
  0 <= 258 < 2 ^ 11 /\ 0 <= 2 < 2 ^ 11 /\ 258 <> 2 /\
  exists l1 l2,
    decode_flags 0 (format_0b 11 258) [] = Ok l1 /\
    decode_flags 0 (format_0b 11 2) [] = Ok l2 /\
    l1 <> l2.
Proof.
  assert (H1 : 0 <= 258 < 2 ^ 11) by lia.
  assert (H2 : 0 <= 2 < 2 ^ 11) by lia.
  assert (H3 : 258 <> 2) by lia.
  split; [exact H1|]. split; [exact H2|]. split; [exact H3|].
  exact (distinct_words_decode_differently 258 2 H1 H2 H3).
Defined.

End DecodeExtra.


(** * More on the push task and its progress callback *)

Module PushExtra.
Import GitTasks GitProps DecodeExtra.

(** ** When the callback logs *)

Lemma opcode_bit (w : Z) (i : nat) (name : string) (coded : gset (option string)) :
  GIT_PUSH_OPCODES !! i = Some name ->
  coded ∖ {[ None ]} = list_to_set (Some <$> names_from GIT_PUSH_OPCODES w) ->
  Some name ∈ coded ∖ {[ None ]} <-> Z.testbit w (8 - Z.of_nat i) = true.
Proof.
  intros Hi ->. rewrite elem_of_list_to_set, list_elem_of_fmap.
  rewrite (names_from_testbit GIT_PUSH_OPCODES w i name NoDup_opcodes Hi).
  split.
  - intros (x & Hx & Hin). injection Hx as ->. exact Hin.
  - intros Hin. exists name. split; [reflexivity | exact Hin].
Qed.

(** One call of the callback whose comprehension built [coded]. *)
Lemma wrapped_progress_step (randint : nat -> Z) user_id ev coded (w : world) :
  opcode_comprehension 0 (format_0b 9 (op_code ev)) = Ok coded ->
  wrapped_progress randint user_id ev w =
    (World (hset_mapping (status_key user_id) (progress_data coded ev) (db w))
           (files w) (ops w) (S (draws w)) (clock w)
           (if (randint (draws w) =? 1)
               || bool_decide (Some "BEGIN" ∈ coded ∖ {[ None ]})
               || bool_decide (Some "END" ∈ coded ∖ {[ None ]})
            then log w ++ [InfoD (progress_data coded ev)] else log w),
     Ok tt).
Proof.
  intros Hc.
  unfold wrapped_progress, mbind, M_bind, lift, with_db, random_randint, logger,
    mret, M_ret. rewrite Hc. cbn [db files ops draws clock log].
  fold (progress_data coded ev). destruct (_ || _); reflexivity.
Qed.

Lemma bool_decide_opcode (w : Z) (i : nat) (name : string)
    (coded : gset (option string)) :
  GIT_PUSH_OPCODES !! i = Some name ->
  coded ∖ {[ None ]} = list_to_set (Some <$> names_from GIT_PUSH_OPCODES w) ->
  bool_decide (Some name ∈ coded ∖ {[ None ]}) = Z.testbit w (8 - Z.of_nat i).
Proof.
  intros Hi Hset. pose proof (opcode_bit w i name coded Hi Hset) as H.
  destruct (Z.testbit w (8 - Z.of_nat i)).
  - apply bool_decide_eq_true_2, H. reflexivity.
  - apply bool_decide_eq_false_2. intros Hin. apply H in Hin. discriminate.
Qed.

(** X11.  On an opcode mask of at most 9 bits the callback returns, makes one
    draw, touches no file, and writes one log entry, the dictionary it
    stored, exactly when the draw is 1 or the mask has the BEGIN bit (1) or
    the END bit (2); otherwise it logs nothing. *)
Theorem wrapped_progress_logs_when (randint : nat -> Z) user_id ev (w : world) :
  0 <= op_code ev < 2 ^ 9 ->
  exists data,
    wrapped_progress randint user_id ev w =
      (World (hset_mapping (status_key user_id) data (db w)) (files w) (ops w)
             (S (draws w)) (clock w)
             (if (randint (draws w) =? 1) || Z.testbit (op_code ev) 0
                                          || Z.testbit (op_code ev) 1
              then log w ++ [InfoD data] else log w),
       Ok tt) /\
    data !! "message" = Some (FJson (JStr (message ev))) /\
    data !! "cur_count" = Some (FJson (cur_count ev)) /\
    data !! "max_count" = Some (FJson (max_count ev)) /\
    dom data = {[ "op_code"; "cur_count"; "max_count"; "message" ]}.
Proof.
  intros Hw. destruct (opcode_comprehension_word _ Hw) as (coded & Hc & Hset).
  exists (progress_data coded ev). split.
  - rewrite (wrapped_progress_step randint user_id ev coded w Hc).
    rewrite (bool_decide_opcode (op_code ev) 8 "BEGIN" coded eq_refl Hset).
    rewrite (bool_decide_opcode (op_code ev) 7 "END" coded eq_refl Hset).
    reflexivity.
  - unfold progress_data. repeat split; try reflexivity.
Qed.

Lemma wrapped_progress_logs_when_witness :
  0 <= op_code (ProgressEvent 18 (JNum 3) (JNum 7) "writing") < 2 ^ 9 /\
  exists data,
    wrapped_progress (fun _ => 4) "42" (ProgressEvent 18 (JNum 3) (JNum 7) "writing")
                     empty_world =
      (World (hset_mapping (status_key "42") data (db empty_world))
             (files empty_world) (ops empty_world)
             (S (draws empty_world)) (clock empty_world)
             (if ((fun _ : nat => 4) (draws empty_world) =? 1)
                 || Z.testbit (op_code (ProgressEvent 18 (JNum 3) (JNum 7) "writing")) 0
                 || Z.testbit (op_code (ProgressEvent 18 (JNum 3) (JNum 7) "writing")) 1
              then log empty_world ++ [InfoD data] else log empty_world),
       Ok tt) /\
    data !! "message" =
      Some (FJson (JStr (message (ProgressEvent 18 (JNum 3) (JNum 7) "writing")))) /\
    data !! "cur_count" =
      Some (FJson (cur_count (ProgressEvent 18 (JNum 3) (JNum 7) "writing"))) /\
    data !! "max_count" =
      Some (FJson (max_count (ProgressEvent 18 (JNum 3) (JNum 7) "writing"))) /\
    dom data = {[ "op_code"; "cur_count"; "max_count"; "message" ]}.
Proof.
  assert (H : 0 <= op_code (ProgressEvent 18 (JNum 3) (JNum 7) "writing") < 2 ^ 9)
    by (cbn; lia).
  split; [exact H|].
  exact (wrapped_progress_logs_when (fun _ => 4) "42"
           (ProgressEvent 18 (JNum 3) (JNum 7) "writing") empty_world H).
Defined.

(** ** The callback over the events of a push *)

(** The fields the callback writes. *)
Definition progress_fields : gset string :=
  {[ "op_code"; "cur_count"; "max_count"; "message" ]}.

(** The record of a key, empty when the key is missing. *)
Definition record (key : string) (r : redis) : gmap string field :=
  default ∅ (hashes r !! key).

Lemma record_hset_mapping key m r :
  record key (hset_mapping key m r) = m ∪ record key r.
Proof. unfold record, hset_mapping. cbn [hashes]. rewrite lookup_insert_eq. reflexivity. Qed.


Lemma progress_data_fields coded ev fld :
  fld ∉ progress_fields -> progress_data coded ev !! fld = None.
Proof.
  intros Hn. apply not_elem_of_dom. unfold progress_data, progress_fields in *.
  rewrite !dom_insert_L, dom_singleton_L. set_solver.
Qed.

(** What the world is after the callback ran on the events [evs]. *)
Record progressed (user_id : string) (evs : list progress_event) (w w' : world)
  : Prop := Progressed {
  progressed_files : files w' = files w;
  progressed_ops : ops w' = ops w;
  progressed_clock : clock w' = clock w;
  progressed_draws : draws w' = (draws w + length evs)%nat;
  progressed_zsets : zsets (db w') = zsets (db w);
  progressed_values : values (db w') = values (db w);
  progressed_expires : expires (db w') = expires (db w);
  progressed_other : forall key, key <> status_key user_id ->
    hashes (db w') !! key = hashes (db w) !! key;
  progressed_kept : forall fld, fld ∉ progress_fields ->
    record (status_key user_id) (db w') !! fld
    = record (status_key user_id) (db w) !! fld;
  progressed_last : forall ev, last evs = Some ev ->
    record (status_key user_id) (db w') !! "message"
      = Some (FJson (JStr (message ev))) /\
    record (status_key user_id) (db w') !! "cur_count"
      = Some (FJson (cur_count ev)) /\
    record (status_key user_id) (db w') !! "max_count"
      = Some (FJson (max_count ev))
}.

Lemma progress_loop (randint : nat -> Z) user_id (evs : list progress_event) :
  forall w : world,
  Forall (fun ev => 0 <= op_code ev < 2 ^ 9) evs ->
  exists w', for_each (wrapped_progress randint user_id) evs w = (w', Ok tt) /\
             progressed user_id evs w w'.
Proof.
  induction evs as [|ev evs IH]; intros w Hall.
  - exists w. split; [reflexivity|].
    split; try reflexivity; [cbn; lia | intros ev H; discriminate H].
  - apply Forall_cons in Hall as [Hev Hall].
    destruct (opcode_comprehension_word _ Hev) as (coded & Hc & _).
    pose proof (wrapped_progress_step randint user_id ev coded w Hc) as Hstep.
    set (w1 := World (hset_mapping (status_key user_id) (progress_data coded ev) (db w))
                 (files w) (ops w) (S (draws w)) (clock w)
                 (if (randint (draws w) =? 1)
                     || bool_decide (Some "BEGIN" ∈ coded ∖ {[ None ]})
                     || bool_decide (Some "END" ∈ coded ∖ {[ None ]})
                  then log w ++ [InfoD (progress_data coded ev)] else log w)) in *.
    destruct (IH w1 Hall) as (w' & Hrun & P).
    exists w'. split.
    { cbn [for_each]. rewrite (bind_run _ _ _ _ _ Hstep). exact Hrun. }
    destruct P as [Pf Po Pc Pd Pz Pv Pe Pother Pkept Plast].
    split; try assumption.
    + rewrite Pd. cbn. lia.
    + intros key Hne. rewrite (Pother key Hne). cbn [w1 db hset_mapping hashes].
      apply lookup_insert_ne. congruence.
    + intros fld Hf. rewrite (Pkept fld Hf). cbn [w1 db].
      rewrite record_hset_mapping.
      rewrite lookup_union_r by exact (progress_data_fields coded ev fld Hf).
      reflexivity.
    + intros ev' Hlast. destruct evs as [|ev2 evs].
      * injection Hlast as <-. injection Hrun as <-. cbn [w1 db].
        rewrite record_hset_mapping.
        repeat split; apply lookup_union_Some_l; reflexivity.
      * apply Plast. exact Hlast.
Qed.

(** ** The push task from start to end *)

(** The state in which [push] calls the helper. *)
Definition pushing (w : world) : world := (logger (Info "pushing!") w).1.

(** What the helper returns for the outcome of the remote operations. *)
Definition helper_result (out : git_outcome) : result (option (list string)) :=
  match push_result out with
  | [] => Ok None
  | flags :: _ =>
      set_flags ← decode_flags 0 (format_0b 11 flags) []; Ok (Some set_flags)
  end.

Lemma progressed_logger user_id evs (w w1 : world) e :
  progressed user_id evs w w1 -> progressed user_id evs w (logger e w1).1.
Proof. intros [? ? ? ? ? ? ? ? ? ?]. split; assumption. Qed.

Lemma push_helper_with_progress git (randint : nat -> Z) r msg user_id (w : world) :
  Forall (fun ev => 0 <= op_code ev < 2 ^ 9) (progress_events (git r msg w)) ->
  exists w1,
    _push_helper git r msg (Some (gen_progress randint user_id)) w
      = (w1, helper_result (git r msg w)) /\
    progressed user_id (progress_events (git r msg w)) w w1.
Proof.
  intros Hall.
  destruct (progress_loop randint user_id _ w Hall) as (w1 & Hrun & P).
  unfold _push_helper, helper_result, gen_progress.
  rewrite (bind_run get_world _ w w w eq_refl). cbv zeta.
  rewrite (bind_run _ _ _ _ _ Hrun).
  destruct (push_result (git r msg w)) as [|flags rest].
  - exists w1. split; [reflexivity | exact P].
  - change (Z.of_nat (length (flags :: rest)) =? 0) with false. cbv iota.
    change (py_index (flags :: rest) 0) with (Some flags). cbv iota.
    unfold mbind at 1, M_bind, lift.
    destruct (decode_flags 0 (format_0b 11 flags) []) as [l|e].
    + exists (logger (InfoL "" l) w1).1. split; [reflexivity|].
      apply progressed_logger, P.
    + exists w1. split; [reflexivity | exact P].
Qed.

Lemma progressed_pushing user_id evs (w w1 : world) :
  progressed user_id evs (pushing w) w1 -> progressed user_id evs w w1.
Proof. intros [? ? ? ? ? ? ? ? ? ?]. split; assumption. Qed.

Lemma record_pushed_db user_id status (w1 : world) :
  record (status_key user_id) (pushed_db user_id status w1) =
  {[ "status" := FJson (JList status); "end" := FInt (clock w1) ]}
    ∪ record (status_key user_id) (db w1).
Proof.
  unfold record at 1, pushed_db. rewrite hashes_expire.
  cbn [delete_key hashes hset_mapping].
  rewrite lookup_delete_ne by (intros H; exact (status_key_ne_save_key _ (eq_sym H))).
  rewrite lookup_insert_eq. reflexivity.
Qed.

Lemma push_run_world git (randint : nat -> Z) msg user_id (w w1 : world) r :
  _push_helper git verify_repo msg (Some (gen_progress randint user_id)) (pushing w)
    = (w1, Ok r) ->
  exists lg,
    push git randint msg user_id w =
      (World (pushed_db user_id (match r with None => ["FAIL"] | Some flags => flags end) w1)
             (files w1) (ops w1) (draws w1) (clock w1) lg, Ok tt).
Proof.
  intros H. unfold push.
  rewrite (bind_run (logger (Info "pushing!")) _ w _ tt eq_refl).
  fold (pushing w). rewrite (bind_run _ _ _ _ _ H).
  destruct r as [flags|]; eexists; reflexivity.
Qed.

(** X12.  When every progress event of the push has an opcode mask of at most
    9 bits and the first flag word, if there is one, has at most 11 bits,
    [push] returns: it touched no file, made one draw per event, and the
    status record of the user holds the outcome (the decoded names, or
    [["FAIL"]] for a push without result), the time of the end, and still the
    counters and the message of the last progress event; its other fields are
    as before, and the record expires in 60 seconds. *)
Theorem push_completes_and_keeps_progress
    (git : repo -> string -> world -> git_outcome) (randint : nat -> Z)
    msg user_id (w : world) :
  Forall (fun ev => 0 <= op_code ev < 2 ^ 9)
         (progress_events (git verify_repo msg (pushing w))) ->
  (forall flags rest,
     push_result (git verify_repo msg (pushing w)) = flags :: rest ->
     0 <= flags < 2 ^ 11) ->
  exists w',
    push git randint msg user_id w = (w', Ok tt) /\
    files w' = files w /\ ops w' = ops w /\
    draws w' = (draws w + length (progress_events (git verify_repo msg (pushing w))))%nat /\
    record (status_key user_id) (db w') !! "status" =
      Some (FJson (JList
        (match push_result (git verify_repo msg (pushing w)) with
         | [] => ["FAIL"]
         | flags :: _ => names_from GIT_PUSHINFO_FLAGS flags
         end))) /\
    record (status_key user_id) (db w') !! "end" = Some (FInt (clock w)) /\
    (forall ev, last (progress_events (git verify_repo msg (pushing w))) = Some ev ->
       record (status_key user_id) (db w') !! "message"
         = Some (FJson (JStr (message ev))) /\
       record (status_key user_id) (db w') !! "cur_count"
         = Some (FJson (cur_count ev)) /\
       record (status_key user_id) (db w') !! "max_count"
         = Some (FJson (max_count ev))) /\
    (forall fld, fld ∉ progress_fields -> fld <> "status" -> fld <> "end" ->
       record (status_key user_id) (db w') !! fld
       = record (status_key user_id) (db w) !! fld) /\
    expires (db w') !! status_key user_id = Some 60.
Proof.
  intros Hev Hflags.
  destruct (push_helper_with_progress git randint verify_repo msg user_id
              (pushing w) Hev) as (w1 & Hhelp & P).
  apply progressed_pushing in P.
  destruct P as [Pf Po Pc Pd Pz Pv Pe Pother Pkept Plast].
  set (out := git verify_repo msg (pushing w)) in *.
  set (status := match push_result out with
                 | [] => ["FAIL"]
                 | flags :: _ => names_from GIT_PUSHINFO_FLAGS flags
                 end).
  assert (Hres : exists r, helper_result out = Ok r /\
                   match r with None => ["FAIL"] | Some flags => flags end = status).
  { unfold helper_result, status. destruct (push_result out) as [|flags rest] eqn:Hp.
    - exists None. split; reflexivity.
    - rewrite (decode_flags_word flags (Hflags flags rest eq_refl)).
      eexists. split; reflexivity. }
  destruct Hres as (r & Hr & Hstatus). rewrite Hr in Hhelp.
  destruct (push_run_world git randint msg user_id w w1 r Hhelp) as (lg & Hpush).
  rewrite Hstatus in Hpush.
  eexists. split; [exact Hpush|]. cbn [files ops draws db].
  split; [exact Pf|]. split; [exact Po|]. split; [exact Pd|].
  rewrite record_pushed_db, Pc.
  split; [apply lookup_union_Some_l; reflexivity|].
  split; [apply lookup_union_Some_l; reflexivity|].
  split.
  { intros ev Hlast. destruct (Plast ev Hlast) as (Hm & Hc & Hx).
    rewrite !lookup_union_r by reflexivity. repeat split; assumption. }
  split.
  { intros fld Hf Hs He. rewrite lookup_union_r.
    - exact (Pkept fld Hf).
    - rewrite lookup_insert_ne by congruence. apply lookup_singleton_ne. congruence. }
  unfold pushed_db. eapply expires_expire_hash.
  cbn [delete_key hashes hset_mapping].
  rewrite lookup_delete_ne by (intros H; exact (status_key_ne_save_key _ (eq_sym H))).
  apply lookup_insert_eq.
Qed.

(** X13.  When the first flag word cannot be decoded (the decoder raises
    [e]), [push] raises [e] after the progress events: it has written no
    outcome and no end time into the status record, has not deleted the save
    key of the user, and has set no expiry. *)
Theorem push_undecodable_leaves_pending
    (git : repo -> string -> world -> git_outcome) (randint : nat -> Z)
    msg user_id (w : world) flags rest e :
  Forall (fun ev => 0 <= op_code ev < 2 ^ 9)
         (progress_events (git verify_repo msg (pushing w))) ->
  push_result (git verify_repo msg (pushing w)) = flags :: rest ->
  decode_flags 0 (format_0b 11 flags) [] = Raise e ->
  exists w',
    push git randint msg user_id w = (w', Raise e) /\
    record (status_key user_id) (db w') !! "status"
      = record (status_key user_id) (db w) !! "status" /\
    record (status_key user_id) (db w') !! "end"
      = record (status_key user_id) (db w) !! "end" /\
    hashes (db w') !! save_key user_id = hashes (db w) !! save_key user_id /\
    zsets (db w') = zsets (db w) /\
    values (db w') = values (db w) /\
    expires (db w') = expires (db w) /\
    files w' = files w /\ ops w' = ops w.
Proof.
  intros Hev Hres Hd.
  destruct (push_helper_with_progress git randint verify_repo msg user_id
              (pushing w) Hev) as (w1 & Hhelp & P).
  apply progressed_pushing in P.
  destruct P as [Pf Po Pc Pd Pz Pv Pe Pother Pkept Plast].
  unfold helper_result in Hhelp. rewrite Hres, Hd in Hhelp.
  cbn [mbind result_bind] in Hhelp.
  exists w1. split.
  { unfold push. rewrite (bind_run (logger (Info "pushing!")) _ w _ tt eq_refl).
    fold (pushing w). exact (bind_raise _ _ _ _ _ Hhelp). }
  split; [apply Pkept; unfold progress_fields; set_solver|].
  split; [apply Pkept; unfold progress_fields; set_solver|].
  split; [apply Pother; intros H; exact (status_key_ne_save_key _ (eq_sym H))|].
  repeat split; assumption.
Qed.

(** One progress event (WRITING and END, 3 of 7), then FAST_FORWARD and
    NEW_HEAD. *)
Definition progress_git (r : repo) (msg : string) (w : world) : git_outcome :=
  GitOutcome [ProgressEvent 18 (JNum 3) (JNum 7) "writing"] [258].

(** The same event, then a flag word of 12 bits with bit 0 set. *)
Definition wide_git (r : repo) (msg : string) (w : world) : git_outcome :=
  GitOutcome [ProgressEvent 18 (JNum 3) (JNum 7) "writing"] [2049].

Lemma push_completes_and_keeps_progress_witness :
  Forall (fun ev => 0 <= op_code ev < 2 ^ 9)
         (progress_events (progress_git verify_repo "update" (pushing pending_world))) /\
  (forall flags rest,
     push_result (progress_git verify_repo "update" (pushing pending_world))
       = flags :: rest -> 0 <= flags < 2 ^ 11) /\
  exists w',
    push progress_git (fun _ => 4) "update" "42" pending_world = (w', Ok tt) /\
    files w' = files pending_world /\ ops w' = ops pending_world /\
    draws w' = (draws pending_world + length (progress_events
                  (progress_git verify_repo "update" (pushing pending_world))))%nat /\
    record (status_key "42") (db w') !! "status" =
      Some (FJson (JList
        (match push_result (progress_git verify_repo "update" (pushing pending_world)) with
         | [] => ["FAIL"]
         | flags :: _ => names_from GIT_PUSHINFO_FLAGS flags
         end))) /\
    record (status_key "42") (db w') !! "end" = Some (FInt (clock pending_world)) /\
    (forall ev, last (progress_events
                        (progress_git verify_repo "update" (pushing pending_world)))
                = Some ev ->
       record (status_key "42") (db w') !! "message"
         = Some (FJson (JStr (message ev))) /\
       record (status_key "42") (db w') !! "cur_count"
         = Some (FJson (cur_count ev)) /\
       record (status_key "42") (db w') !! "max_count"
         = Some (FJson (max_count ev))) /\
    (forall fld, fld ∉ progress_fields -> fld <> "status" -> fld <> "end" ->
       record (status_key "42") (db w') !! fld
       = record (status_key "42") (db pending_world) !! fld) /\
    expires (db w') !! status_key "42" = Some 60.
Proof.
  assert (H1 : Forall (fun ev => 0 <= op_code ev < 2 ^ 9)
                 (progress_events
                    (progress_git verify_repo "update" (pushing pending_world)))).
  { repeat constructor; cbn; lia. }
  assert (H2 : forall flags rest,
             push_result (progress_git verify_repo "update" (pushing pending_world))
               = flags :: rest -> 0 <= flags < 2 ^ 11).
  { intros flags rest H. injection H as <- _. lia. }
  split; [exact H1|]. split; [exact H2|].
  exact (push_completes_and_keeps_progress progress_git (fun _ => 4) "update" "42"
           pending_world H1 H2).
Defined.

Lemma push_undecodable_leaves_pending_witness :
  Forall (fun ev => 0 <= op_code ev < 2 ^ 9)
         (progress_events (wide_git verify_repo "update" (pushing pending_world))) /\
  push_result (wide_git verify_repo "update" (pushing pending_world)) = [2049] /\
  decode_flags 0 (format_0b 11 2049) [] = Raise IndexError /\
  exists w',
    push wide_git (fun _ => 4) "update" "42" pending_world = (w', Raise IndexError) /\
    record (status_key "42") (db w') !! "status"
      = record (status_key "42") (db pending_world) !! "status" /\
    record (status_key "42") (db w') !! "end"
      = record (status_key "42") (db pending_world) !! "end" /\
    hashes (db w') !! save_key "42" = hashes (db pending_world) !! save_key "42" /\
    zsets (db w') = zsets (db pending_world) /\
    values (db w') = values (db pending_world) /\
    expires (db w') = expires (db pending_world) /\
    files w' = files pending_world /\ ops w' = ops pending_world.
Proof.
  assert (H1 : Forall (fun ev => 0 <= op_code ev < 2 ^ 9)
                 (progress_events (wide_git verify_repo "update" (pushing pending_world)))).
  { repeat constructor; cbn; lia. }
  assert (H2 : push_result (wide_git verify_repo "update" (pushing pending_world))
               = [2049]) by reflexivity.
  assert (H3 : decode_flags 0 (format_0b 11 2049) [] = Raise IndexError)
    by reflexivity.
  split; [exact H1|]. split; [exact H2|]. split; [exact H3|].
  exact (push_undecodable_leaves_pending wide_git (fun _ => 4) "update" "42"
           pending_world 2049 [] IndexError H1 H2 H3).
Defined.

End PushExtra.


(** * More on the verification reconciler *)

Module ReconcilerExtra.
Import GitTasks GitProps.

(** ** Votes after a removal by score *)

(** The votes that [zremrangebyscore key 3 "+inf"] leaves. *)
Definition kept (o : option Z) : option Z :=
  match o with
  | Some score => if bool_decide (3 <= score) then None else Some score
  | None => None
  end.

Lemma votes_zrem key lo r image :
  votes key image (zremrangebyscore key lo r) =
  match votes key image r with
  | Some score => if bool_decide (lo <= score) then None else Some score
  | None => None
  end.
Proof.
  unfold votes, zremrangebyscore.
  set (m := default ∅ (zsets r !! key)).
  assert (Hf : filter (fun kv : string * Z => ~ lo <= kv.2) m !! image =
               match m !! image with
               | Some score => if bool_decide (lo <= score) then None else Some score
               | None => None
               end).
  { destruct (m !! image) as [score|] eqn:Hm.
    - case_bool_decide as Hs.
      + apply map_lookup_filter_None. right. intros x Hx. cbn.
        assert (x = score) as -> by congruence. tauto.
      + apply map_lookup_filter_Some. split; [exact Hm | exact Hs].
    - apply map_lookup_filter_None. left. exact Hm. }
  case_bool_decide as He; cbn [zsets].
  - rewrite lookup_delete_eq. cbn. rewrite lookup_empty.
    rewrite He, lookup_empty in Hf. exact Hf.
  - rewrite lookup_insert_eq. cbn. exact Hf.
Qed.

Lemma votes_zrem_ne key key' lo r image :
  key <> key' -> votes key image (zremrangebyscore key' lo r) = votes key image r.
Proof.
  intros Hne. unfold votes, zremrangebyscore.
  destruct (bool_decide _); cbn [zsets].
  - rewrite lookup_delete_ne by congruence. reflexivity.
  - rewrite lookup_insert_ne by congruence. reflexivity.
Qed.

Lemma hashes_zrem key lo r : hashes (zremrangebyscore key lo r) = hashes r.
Proof. unfold zremrangebyscore. destruct (bool_decide _); reflexivity. Qed.

Lemma values_zrem key lo r : values (zremrangebyscore key lo r) = values r.
Proof. unfold zremrangebyscore. destruct (bool_decide _); reflexivity. Qed.

Lemma zsets_zrem_ne key key' lo r :
  key <> key' -> zsets (zremrangebyscore key' lo r) !! key = zsets r !! key.
Proof.
  intros Hne. unfold zremrangebyscore. destruct (bool_decide _); cbn [zsets].
  - apply lookup_delete_ne. congruence.
  - apply lookup_insert_ne. congruence.
Qed.

Lemma zrangebyscore_nil key lo r :
  zrangebyscore key lo r = [] <->
  forall image score, votes key image r = Some score -> score < lo.
Proof.
  split.
  - intros Hnil image score Hv.
    destruct (Z.lt_ge_cases score lo) as [|Hge]; [assumption|]. exfalso.
    assert (Hin : image ∈ zrangebyscore key lo r)
      by (apply elem_of_zrangebyscore; exists score; split; [exact Hv | lia]).
    rewrite Hnil in Hin. inversion Hin.
  - intros H. destruct (zrangebyscore key lo r) as [|image l] eqn:Hz; [reflexivity|].
    assert (Hin : image ∈ zrangebyscore key lo r) by (rewrite Hz; left).
    apply elem_of_zrangebyscore in Hin as (score & Hv & Hs).
    specialize (H image score Hv). lia.
Qed.

Lemma zrangebyscore_zrem key lo r : zrangebyscore key lo (zremrangebyscore key lo r) = [].
Proof.
  apply zrangebyscore_nil. intros image score Hv. rewrite votes_zrem in Hv.
  destruct (votes key image r) as [s|]; [|discriminate].
  case_bool_decide; [discriminate|]. injection Hv as <-. lia.
Qed.

Lemma kept_small o : (forall score, o = Some score -> score < 3) -> kept o = o.
Proof.
  intros H. destruct o as [score|]; [|reflexivity]. cbn.
  rewrite bool_decide_eq_false_2; [reflexivity|]. specialize (H score eq_refl). lia.
Qed.

Lemma list_to_set_empty_nil (l : list string) :
  (list_to_set l : gset string) = ∅ -> l = [].
Proof.
  destruct l as [|x l]; [reflexivity|]. intros H. exfalso.
  assert (Hin : x ∈ (list_to_set (x :: l) : gset string))
    by (apply elem_of_list_to_set; left).
  rewrite H in Hin. set_solver.
Qed.

(** The store the reconciler leaves: votes at 3 or more are removed from
    [invalid] and [duplicate] when [delete] is not empty, and from [valid]
    when [valid] is not empty. *)
Definition reconciled (r : redis) : redis :=
  let r1 :=
    if bool_decide (delete_set r ≠ ∅) then
      zremrangebyscore "sciolyid.verify.images:duplicate" 3
        (zremrangebyscore "sciolyid.verify.images:invalid" 3 r)
    else r in
  if bool_decide (valid_set r ≠ ∅) then
    zremrangebyscore "sciolyid.verify.images:valid" 3 r1
  else r1.

Lemma reconciled_votes r image :
  votes "sciolyid.verify.images:invalid" image (reconciled r)
    = kept (votes "sciolyid.verify.images:invalid" image r) /\
  votes "sciolyid.verify.images:duplicate" image (reconciled r)
    = kept (votes "sciolyid.verify.images:duplicate" image r) /\
  votes "sciolyid.verify.images:valid" image (reconciled r)
    = kept (votes "sciolyid.verify.images:valid" image r).
Proof.
  unfold reconciled.
  assert (HD : delete_set r = ∅ ->
            (forall score, votes "sciolyid.verify.images:invalid" image r = Some score
                           -> score < 3) /\
            (forall score, votes "sciolyid.verify.images:duplicate" image r = Some score
                           -> score < 3)).
  { intros He. unfold delete_set in He. apply list_to_set_empty_nil in He.
    apply app_eq_nil in He as [H1 H2].
    split; intros score Hv;
      [exact (proj1 (zrangebyscore_nil _ _ _) H1 image score Hv)
      |exact (proj1 (zrangebyscore_nil _ _ _) H2 image score Hv)]. }
  assert (HV : valid_set r = ∅ ->
            forall score, votes "sciolyid.verify.images:valid" image r = Some score
                          -> score < 3).
  { intros He. unfold valid_set in He. apply list_to_set_empty_nil in He.
    intros score Hv. exact (proj1 (zrangebyscore_nil _ _ _) He image score Hv). }
  case_bool_decide as Hv; case_bool_decide as Hd;
    repeat (first [ rewrite votes_zrem_ne by discriminate | rewrite votes_zrem ]).
  - repeat split; reflexivity.
  - destruct (HD Hd) as [H1 H2].
    repeat split; try reflexivity; symmetry; apply kept_small; assumption.
  - repeat split; try reflexivity. symmetry. apply kept_small, HV, Hv.
  - destruct (HD Hd) as [H1 H2].
    repeat split; symmetry; apply kept_small; auto.
Qed.

Lemma reconciled_other r :
  hashes (reconciled r) = hashes r /\ values (reconciled r) = values r /\
  forall key,
    key <> "sciolyid.verify.images:invalid" ->
    key <> "sciolyid.verify.images:duplicate" ->
    key <> "sciolyid.verify.images:valid" ->
    zsets (reconciled r) !! key = zsets r !! key.
Proof.
  unfold reconciled.
  repeat case_bool_decide; rewrite ?hashes_zrem, ?values_zrem;
    (split; [reflexivity|]; split; [reflexivity|]);
    intros key H1 H2 H3; rewrite ?zsets_zrem_ne by assumption; reflexivity.
Qed.

(** ** The phases of a pass *)

Section Pass.
Variable git : repo -> string -> world -> git_outcome.
Variable filename_lookup : string -> gset string -> gmap string string.
Variable root : string.
Variable item_of : string -> string.
Variable get_category : string -> string.
Variable image_dir : string.
Variable path_join : string -> string -> string.

Local Abbreviation destination :=
  (GitProps.destination item_of get_category image_dir path_join).
Local Abbreviation move_one :=
  (GitTasks.move_one item_of get_category image_dir path_join).
Local Abbreviation move_images :=
  (GitTasks.move_images git filename_lookup root item_of get_category
     image_dir path_join).

(** The file operations of one move: the copy, then the removal. *)
Definition move_ops (path : string) : list fs_op :=
  [Copy path (destination path); Remove path].

Lemma push_helper_db r msg (w w' : world) res :
  _push_helper git r msg None w = (w', res) -> db w' = db w.
Proof.
  unfold _push_helper, mbind, M_bind, get_world, mret, M_ret, lift, logger, raise.
  intros H. repeat case_match; try discriminate; inversion H; subst; reflexivity.
Qed.

Lemma report_db name res (w w' : world) r :
  report name res w = (w', r) -> db w' = db w.
Proof.
  unfold report, logger. intros H. destruct res; inversion H; subst; reflexivity.
Qed.

(** The loop over [valid], when it completes: the images that are not in
    [delete] had a path each, and each path was copied and then removed, in
    the order of the loop. *)
Lemma move_loop_exact lookup (delete : gset string) (l : list string) :
  forall w w' : world,
  for_each (move_one lookup delete) l w = (w', Ok tt) ->
  db w' = db w /\
  exists moved,
    Forall2 (fun image path => lookup !! image = Some path)
            (filter (fun image => image ∉ delete) l) moved /\
    ops w' = ops w ++ concat (move_ops <$> moved) /\
    files w' = files w ∖ list_to_set moved.
Proof.
  induction l as [|image l IH]; intros w w' H.
  - injection H as <-. split; [reflexivity|]. exists [].
    split; [constructor|]. split; [symmetry; apply app_nil_r|]. cbn. set_solver.
  - cbn [for_each] in H. apply bind_inv in H as (w1 & [] & Hone & Hrest).
    destruct (IH _ _ Hrest) as (Hdb & moved & HF & Hops & Hfiles).
    unfold GitTasks.move_one in Hone. case_bool_decide as Hdel.
    + injection Hone as <-. split; [exact Hdb|]. exists moved.
      rewrite filter_cons_False by (intros Hn; exact (Hn Hdel)).
      split; [exact HF|]. split; assumption.
    + unfold dict_get in Hone.
      destruct (lookup !! image) as [path|] eqn:Hl; [|discriminate].
      rewrite (bind_run _ _ w w path eq_refl) in Hone.
      apply bind_inv in Hone as (w2 & [] & Hcp & Hrm).
      unfold shutil_copy in Hcp. case_bool_decide as Hin; [|discriminate].
      injection Hcp as <-.
      unfold os_remove in Hrm. cbn [files] in Hrm.
      rewrite bool_decide_eq_true_2 in Hrm by exact Hin.
      injection Hrm as <-.
      cbn [db ops files] in Hdb, Hops, Hfiles.
      split; [exact Hdb|]. exists (path :: moved).
      rewrite filter_cons_True by exact Hdel.
      split; [constructor; assumption|].
      split; [rewrite Hops, <- !app_assoc; reflexivity|].
      rewrite Hfiles. cbn. set_solver.
Qed.

(** The first phase: the removals. *)
Lemma delete_phase lookup (delete : gset string) (w wc : world) :
  (if bool_decide (delete ≠ ∅) then
     with_db (zremrangebyscore "sciolyid.verify.images:invalid" 3);;
     with_db (zremrangebyscore "sciolyid.verify.images:duplicate" 3);;
     for_each (delete_one lookup) (elements delete)
   else mret tt) w = (wc, Ok tt) ->
  db wc = (if bool_decide (delete ≠ ∅) then
             zremrangebyscore "sciolyid.verify.images:duplicate" 3
               (zremrangebyscore "sciolyid.verify.images:invalid" 3 (db w))
           else db w) /\
  exists removed,
    Forall2 (fun image path => lookup !! image = Some path) (elements delete) removed /\
    ops wc = ops w ++ (Remove <$> removed) /\
    files wc = files w ∖ list_to_set removed.
Proof.
  case_bool_decide as Hd; intros H.
  - apply bind_inv in H as (w1 & [] & Hz1 & H).
    apply bind_inv in H as (w2 & [] & Hz2 & H).
    inversion Hz1. subst w1. inversion Hz2. subst w2. clear Hz1 Hz2.
    apply (delete_loop filename_lookup item_of get_category path_join) in H
      as (Hdb & removed & HF & Hops & Hfiles).
    split; [exact Hdb|]. exists removed. repeat split; assumption.
  - injection H as <-. split; [reflexivity|]. exists [].
    rewrite Hd, elements_empty. split; [constructor|].
    split; [symmetry; apply app_nil_r|]. cbn. set_solver.
Qed.

(** The second phase: the moves. *)
Lemma valid_phase lookup (delete valid : gset string) (w wc : world) :
  (if bool_decide (valid ≠ ∅) then
     with_db (zremrangebyscore "sciolyid.verify.images:valid" 3);;
     for_each (move_one lookup delete) (elements valid)
   else mret tt) w = (wc, Ok tt) ->
  db wc = (if bool_decide (valid ≠ ∅) then
             zremrangebyscore "sciolyid.verify.images:valid" 3 (db w)
           else db w) /\
  exists moved,
    Forall2 (fun image path => lookup !! image = Some path)
            (filter (fun image => image ∉ delete) (elements valid)) moved /\
    ops wc = ops w ++ concat (move_ops <$> moved) /\
    files wc = files w ∖ list_to_set moved.
Proof.
  case_bool_decide as Hv; intros H.
  - apply bind_inv in H as (w1 & [] & Hz1 & H).
    inversion Hz1. subst w1. clear Hz1.
    apply move_loop_exact in H as (Hdb & moved & HF & Hops & Hfiles).
    split; [exact Hdb|]. exists moved. repeat split; assumption.
  - injection H as <-. split; [reflexivity|]. exists [].
    rewrite Hv, elements_empty. split; [constructor|].
    split; [symmetry; apply app_nil_r|]. cbn. set_solver.
Qed.

(** The last phase: the two pushes and their reports, or one log entry. *)
Lemma push_phase (b : bool) (w w' : world) res :
  (if b then
     verify_push ← _push_helper git verify_repo "Update through verification!" None;
     image_push ← _push_helper git image_repo "Update through verification!" None;
     report "verify repo" verify_push;;
     report "image repo" image_push
   else logger (Info "no changes to update!")) w = (w', res) ->
  same_disk w w' /\ db w' = db w.
Proof.
  destruct b; intros H.
  - apply bind_cases in H as [(w1 & v & H1 & H)|(e & H1 & _)].
    + apply bind_cases in H as [(w2 & i & H2 & H)|(e & H2 & _)].
      * apply bind_cases in H as [(w3 & [] & H3 & H4)|(e & H3 & _)].
        -- split.
           ++ eapply same_disk_trans; [exact (push_helper_same_disk git _ _ _ _ _ H1)|].
              eapply same_disk_trans; [exact (push_helper_same_disk git _ _ _ _ _ H2)|].
              eapply same_disk_trans; [exact (report_same_disk _ _ _ _ _ H3)|].
              exact (report_same_disk _ _ _ _ _ H4).
           ++ rewrite (report_db _ _ _ _ _ H4), (report_db _ _ _ _ _ H3),
                (push_helper_db _ _ _ _ _ H2), (push_helper_db _ _ _ _ _ H1).
              reflexivity.
        -- split.
           ++ eapply same_disk_trans; [exact (push_helper_same_disk git _ _ _ _ _ H1)|].
              eapply same_disk_trans; [exact (push_helper_same_disk git _ _ _ _ _ H2)|].
              exact (report_same_disk _ _ _ _ _ H3).
           ++ rewrite (report_db _ _ _ _ _ H3),
                (push_helper_db _ _ _ _ _ H2), (push_helper_db _ _ _ _ _ H1).
              reflexivity.
      * split.
        -- eapply same_disk_trans; [exact (push_helper_same_disk git _ _ _ _ _ H1)|].
           exact (push_helper_same_disk git _ _ _ _ _ H2).
        -- rewrite (push_helper_db _ _ _ _ _ H2), (push_helper_db _ _ _ _ _ H1).
           reflexivity.
    + split; [exact (push_helper_same_disk git _ _ _ _ _ H1)
             | exact (push_helper_db _ _ _ _ _ H1)].
  - inversion H. subst. split; [split; reflexivity | reflexivity].
Qed.

Lemma valid_set_delete_phase r :
  valid_set (if bool_decide (delete_set r ≠ ∅) then
               zremrangebyscore "sciolyid.verify.images:duplicate" 3
                 (zremrangebyscore "sciolyid.verify.images:invalid" 3 r)
             else r) = valid_set r.
Proof.
  unfold valid_set. destruct (bool_decide _); [|reflexivity].
  rewrite !zrangebyscore_zrem_ne by discriminate. reflexivity.
Qed.

(** A completed pass, whatever the votes. *)
Lemma move_images_complete (w w' : world) :
  move_images w = (w', Ok tt) ->
  db w' = reconciled (db w) /\
  exists removed moved,
    Forall2 (fun image path => filename_lookup root (files w) !! image = Some path)
            (elements (delete_set (db w))) removed /\
    Forall2 (fun image path => filename_lookup root (files w) !! image = Some path)
            (filter (fun image => image ∉ delete_set (db w))
                    (elements (valid_set (db w)))) moved /\
    ops w' = ops w ++ (Remove <$> removed) ++ concat (move_ops <$> moved) /\
    files w' = files w ∖ list_to_set (removed ++ moved).
Proof.
  intros H. unfold GitTasks.move_images in H.
  apply bind_inv in H as (wa & [] & Hlog & H).
  destruct (logger_run (Info "checking for move") w) as (wa' & Hlog' & [Hfa Hoa] & Hda).
  rewrite Hlog' in Hlog. injection Hlog as ->.
  apply bind_inv in H as (wb & w0 & Hget & H).
  apply get_world_inv in Hget as [-> ->]. cbv zeta in H.
  rewrite Hfa, Hda in H. fold (delete_set (db w)) in H.
  apply bind_inv in H as (wc & [] & Hdel & H).
  apply delete_phase in Hdel as (Hdbc & removed & HF1 & Hopsc & Hfilesc).
  apply bind_inv in H as (wd & w3 & Hget & H).
  apply get_world_inv in Hget as [-> ->].
  fold (valid_set (db wc)) in H.
  assert (Hvalid : valid_set (db wc) = valid_set (db w)).
  { rewrite Hdbc, Hda. apply valid_set_delete_phase. }
  rewrite Hvalid in H.
  apply bind_inv in H as (we & [] & Hmove & H).
  apply valid_phase in Hmove as (Hdbe & moved & HF2 & Hopse & Hfilese).
  apply push_phase in H as ([Hf Ho] & Hdb).
  split.
  { rewrite Hdb, Hdbe, Hdbc, Hda. unfold reconciled. reflexivity. }
  exists removed, moved. split; [exact HF1|]. split; [exact HF2|]. split.
  - rewrite Ho, Hopse, Hopsc, Hoa, <- app_assoc. reflexivity.
  - rewrite Hf, Hfilese, Hfilesc, Hfa, list_to_set_app_L. set_solver.
Qed.

(** The loop over [delete] when one of its images has no path: it raises,
    having made only removals. *)
Lemma delete_loop_missing lookup (l : list string) image :
  image ∈ l -> lookup !! image = None ->
  forall w : world,
  exists (w' : world) e removed,
    for_each (delete_one lookup) l w = (w', Raise e) /\
    db w' = db w /\
    ops w' = ops w ++ (Remove <$> removed) /\
    files w' = files w ∖ list_to_set removed.
Proof.
  intros Hin Hnone. induction l as [|a l IH]; intros w; [inversion Hin|].
  cbn [for_each].
  assert (Hone : delete_one lookup a w =
                 match lookup !! a with
                 | Some path => os_remove path w
                 | None => (w, Raise (KeyError a))
                 end).
  { unfold delete_one, dict_get. destruct (lookup !! a); reflexivity. }
  destruct (lookup !! a) as [path|] eqn:Hl.
  - assert (Hin' : image ∈ l).
    { apply elem_of_cons in Hin as [->|Hin]; [congruence | exact Hin]. }
    unfold os_remove in Hone. case_bool_decide as Hp.
    + rewrite (bind_run _ _ _ _ _ Hone).
      destruct (IH Hin' (World (db w) (files w ∖ {[path]}) (ops w ++ [Remove path])
                           (draws w) (clock w) (log w)))
        as (w' & e & removed & Hrun & Hdb & Hops & Hfiles).
      exists w', e, (path :: removed). split; [exact Hrun|].
      cbn [db ops files] in Hdb, Hops, Hfiles.
      split; [exact Hdb|]. split; [rewrite Hops, <- app_assoc; reflexivity|].
      rewrite Hfiles. cbn. set_solver.
    + rewrite (bind_raise _ _ _ _ _ Hone).
      exists w, (FileNotFoundError path), []. split; [reflexivity|].
      split; [reflexivity|]. split; [symmetry; apply app_nil_r|]. cbn. set_solver.
  - rewrite (bind_raise _ _ _ _ _ Hone).
    exists w, (KeyError a), []. split; [reflexivity|].
    split; [reflexivity|]. split; [symmetry; apply app_nil_r|]. cbn. set_solver.
Qed.

Lemma delete_set_zrem r :
  delete_set (zremrangebyscore "sciolyid.verify.images:duplicate" 3
                (zremrangebyscore "sciolyid.verify.images:invalid" 3 r)) = ∅.
Proof.
  unfold delete_set.
  rewrite (zrangebyscore_zrem_ne "sciolyid.verify.images:invalid"
             "sciolyid.verify.images:duplicate") by discriminate.
  rewrite !zrangebyscore_zrem. reflexivity.
Qed.

(** X14.  When no image has three votes or more in any of the three sorted
    sets, a pass changes nothing: it returns, leaves the store and the files
    as they are, makes no file operation, and logs "checking for move" and
    "no changes to update!". *)
Theorem move_images_nothing_to_do (w : world) :
  (forall key image score,
     key ∈ ["sciolyid.verify.images:invalid"; "sciolyid.verify.images:duplicate";
            "sciolyid.verify.images:valid"] ->
     votes key image (db w) = Some score -> score < 3) ->
  move_images w =
    (World (db w) (files w) (ops w) (draws w) (clock w)
           (log w ++ [Info "checking for move"; Info "no changes to update!"]),
     Ok tt).
Proof.
  intros Hlow.
  assert (Hz : forall key,
            key ∈ ["sciolyid.verify.images:invalid"; "sciolyid.verify.images:duplicate";
                   "sciolyid.verify.images:valid"] ->
            zrangebyscore key 3 (db w) = []).
  { intros key Hk. apply zrangebyscore_nil. intros image score.
    exact (Hlow key image score Hk). }
  assert (HD : delete_set (db w) = ∅).
  { unfold delete_set. rewrite !Hz by set_solver. reflexivity. }
  assert (HV : valid_set (db w) = ∅).
  { unfold valid_set. rewrite Hz by set_solver. reflexivity. }
  unfold GitTasks.move_images.
  rewrite (bind_run (logger (Info "checking for move")) _ w _ tt eq_refl).
  rewrite (bind_run get_world _ _ _ _ eq_refl). cbv zeta. cbn [logger fst db files].
  fold (delete_set (db w)). rewrite HD.
  rewrite bool_decide_eq_false_2 by (intros H; exact (H eq_refl)).
  rewrite (bind_run (mret tt) _ _ _ tt eq_refl).
  rewrite (bind_run get_world _ _ _ _ eq_refl). cbn [db].
  fold (valid_set (db w)). rewrite HV.
  rewrite bool_decide_eq_false_2 by (intros H; exact (H eq_refl)).
  rewrite (bind_run (mret tt) _ _ _ tt eq_refl).
  cbn [orb]. unfold logger. cbn [db files ops draws clock log].
  rewrite <- app_assoc. reflexivity.
Qed.


(** X16.  A pass that completes consumes the votes it acted on and no
    others: in each of the three sorted sets an image keeps its votes when
    it has fewer than three and has none afterwards otherwise; the hashes,
    the plain keys and the other sorted sets are untouched. *)
Theorem move_images_consumes_votes (w w' : world) :
  move_images w = (w', Ok tt) ->
  (forall key image,
     key ∈ ["sciolyid.verify.images:invalid"; "sciolyid.verify.images:duplicate";
            "sciolyid.verify.images:valid"] ->
     votes key image (db w') = kept (votes key image (db w))) /\
  (forall key,
     key ∉ ["sciolyid.verify.images:invalid"; "sciolyid.verify.images:duplicate";
            "sciolyid.verify.images:valid"] ->
     zsets (db w') !! key = zsets (db w) !! key) /\
  hashes (db w') = hashes (db w) /\
  values (db w') = values (db w).
Proof.
  intros H. destruct (move_images_complete w w' H) as [-> _].
  destruct (reconciled_other (db w)) as (Hh & Hv & Hz).
  split; [|split; [|split; assumption]].
  - intros key image Hk.
    destruct (reconciled_votes (db w) image) as (H1 & H2 & H3).
    repeat (apply elem_of_cons in Hk as [->|Hk]; [assumption|]). inversion Hk.
  - intros key Hk. apply Hz; intros ->; apply Hk; set_solver.
Qed.

(** X17.  The votes are consumed before the files are touched: when an image
    of [delete] has no path in the lookup, the pass raises, and yet it has
    already removed every vote at three or more from [invalid] and
    [duplicate], so that [delete] is empty for the next pass; it has made
    removals only, and has not touched the votes in [valid]. *)
Theorem move_images_abort_loses_votes (w : world) image :
  image ∈ delete_set (db w) ->
  filename_lookup root (files w) !! image = None ->
  exists (w' : world) e removed,
    move_images w = (w', Raise e) /\
    db w' = zremrangebyscore "sciolyid.verify.images:duplicate" 3
              (zremrangebyscore "sciolyid.verify.images:invalid" 3 (db w)) /\
    delete_set (db w') = ∅ /\
    valid_set (db w') = valid_set (db w) /\
    ops w' = ops w ++ (Remove <$> removed) /\
    files w' = files w ∖ list_to_set removed.
Proof.
  intros HD Hnone.
  assert (HDne : delete_set (db w) <> ∅) by set_solver.
  set (wa := World (zremrangebyscore "sciolyid.verify.images:duplicate" 3
                      (zremrangebyscore "sciolyid.verify.images:invalid" 3 (db w)))
               (files w) (ops w) (draws w) (clock w)
               (log w ++ [Info "checking for move"])).
  destruct (delete_loop_missing (filename_lookup root (files w))
              (elements (delete_set (db w))) image
              ltac:(apply elem_of_elements; exact HD) Hnone wa)
    as (w' & e & removed & Hrun & Hdb & Hops & Hfiles).
  exists w', e, removed.
  split.
  { unfold GitTasks.move_images.
    rewrite (bind_run (logger (Info "checking for move")) _ w _ tt eq_refl).
    rewrite (bind_run get_world _ _ _ _ eq_refl). cbv zeta. cbn [logger fst db files].
    fold (delete_set (db w)).
    rewrite bool_decide_eq_true_2 by exact HDne.
    apply bind_raise.
    rewrite (bind_run (with_db _) _ _ _ tt eq_refl).
    rewrite (bind_run (with_db _) _ _ _ tt eq_refl).
    exact Hrun. }
  cbn [wa db ops files] in Hdb, Hops, Hfiles.
  split; [exact Hdb|]. rewrite Hdb.
  split; [apply delete_set_zrem|].
  split; [|split; assumption].
  unfold valid_set. rewrite !zrangebyscore_zrem_ne by discriminate. reflexivity.
Qed.

End Pass.

(** A store where no image has three votes. *)
Definition quiet_world : world :=
  World (Redis ∅ {[ "sciolyid.verify.images:valid" := {[ "a.jpg" := 2 ]} ]} ∅ ∅)
        {[ "verify/blue jay/a.jpg" ]} [] 0 1600000000 [].

(** A store where [a.jpg] has three votes as invalid, and a lookup that
    finds no file. *)
Definition orphan_world : world :=
  World (Redis ∅ {[ "sciolyid.verify.images:invalid" := {[ "a.jpg" := 3 ]} ]} ∅ ∅)
        ∅ [] 0 1600000000 [].

Definition no_lookup (root : string) (present : gset string) : gmap string string := ∅.

Lemma move_images_nothing_to_do_witness :
  (forall key image score,
     key ∈ ["sciolyid.verify.images:invalid"; "sciolyid.verify.images:duplicate";
            "sciolyid.verify.images:valid"] ->
     votes key image (db quiet_world) = Some score -> score < 3) /\
  example_move_images quiet_world =
    (World (db quiet_world) (files quiet_world) (ops quiet_world)
           (draws quiet_world) (clock quiet_world)
           (log quiet_world ++ [Info "checking for move"; Info "no changes to update!"]),
     Ok tt).
Proof.
  assert (H : forall key image score,
            key ∈ ["sciolyid.verify.images:invalid"; "sciolyid.verify.images:duplicate";
                   "sciolyid.verify.images:valid"] ->
            votes key image (db quiet_world) = Some score -> score < 3).
  { intros key image score Hk Hv. unfold votes, quiet_world in Hv. cbn [db zsets] in Hv.
    repeat (apply elem_of_cons in Hk as [->|Hk]); [| | |inversion Hk].
    - rewrite lookup_singleton_ne in Hv by discriminate. cbn in Hv.
      rewrite lookup_empty in Hv. discriminate.
    - rewrite lookup_singleton_ne in Hv by discriminate. cbn in Hv.
      rewrite lookup_empty in Hv. discriminate.
    - rewrite lookup_singleton_eq in Hv. cbn in Hv.
      apply lookup_singleton_Some in Hv as [_ <-]. lia. }
  split; [exact H|].
  exact (move_images_nothing_to_do example_git example_lookup "verify"
           (fun _ => "bird") (fun _ => "birds") "images" example_join quiet_world H).
Defined.


Lemma move_images_consumes_votes_witness :
  example_move_images voted_world = ((example_move_images voted_world).1, Ok tt) /\
  (forall key image,
     key ∈ ["sciolyid.verify.images:invalid"; "sciolyid.verify.images:duplicate";
            "sciolyid.verify.images:valid"] ->
     votes key image (db (example_move_images voted_world).1)
     = kept (votes key image (db voted_world))) /\
  (forall key,
     key ∉ ["sciolyid.verify.images:invalid"; "sciolyid.verify.images:duplicate";
            "sciolyid.verify.images:valid"] ->
     zsets (db (example_move_images voted_world).1) !! key
     = zsets (db voted_world) !! key) /\
  hashes (db (example_move_images voted_world).1) = hashes (db voted_world) /\
  values (db (example_move_images voted_world).1) = values (db voted_world).
Proof.
  assert (Hrun : example_move_images voted_world
                 = ((example_move_images voted_world).1, Ok tt)).
  { vm_compute. reflexivity. }
  split; [exact Hrun|].
  exact (move_images_consumes_votes example_git example_lookup "verify"
           (fun _ => "bird") (fun _ => "birds") "images" example_join
           voted_world _ Hrun).
Defined.

Lemma move_images_abort_loses_votes_witness :
  "a.jpg" ∈ delete_set (db orphan_world) /\
  no_lookup "verify" (files orphan_world) !! "a.jpg" = None /\
  exists (w' : world) e removed,
    move_images example_git no_lookup "verify" (fun _ => "bird") (fun _ => "birds")
      "images" example_join orphan_world = (w', Raise e) /\
    db w' = zremrangebyscore "sciolyid.verify.images:duplicate" 3
              (zremrangebyscore "sciolyid.verify.images:invalid" 3 (db orphan_world)) /\
    delete_set (db w') = ∅ /\
    valid_set (db w') = valid_set (db orphan_world) /\
    ops w' = ops orphan_world ++ (Remove <$> removed) /\
    files w' = files orphan_world ∖ list_to_set removed.
Proof.
  assert (H1 : "a.jpg" ∈ delete_set (db orphan_world)).
  { apply elem_of_delete_set. left. exists 3. split; [vm_compute; reflexivity | lia]. }
  assert (H2 : no_lookup "verify" (files orphan_world) !! "a.jpg" = None)
    by reflexivity.
  split; [exact H1|]. split; [exact H2|].
  exact (move_images_abort_loses_votes example_git no_lookup "verify"
           (fun _ => "bird") (fun _ => "birds") "images" example_join
           orphan_world "a.jpg" H1 H2).
Defined.

End ReconcilerExtra.


(** * Delivery: [send_image] of core.py with [error_skip] of functions.py *)

Module Delivery.
Import Core CoreProps FetchProps FetchExtra SelectorExtra.

(** What the bot does in the channel of the context: [ctx.send(text)],
    [ctx.send(file=discord.File(path, filename=...))], the deletion of a
    message it sent (named by its content), [ctx.trigger_typing()].  The
    calls are taken to complete. *)
Inductive chat_event : Type :=
| Send (content : string)
| SendFile (path filename : string)
| DeleteMessage (content : string)
| TriggerTyping.

#[global] Instance chat_event_eq_dec : EqDecision chat_event.
Proof. solve_decision. Defined.

(** The newline of ["\n"]. *)
Definition nl : string := String (ascii_of_nat 10) "".

Definition fetching : string := "**Fetching.** This may take a while.".

Definition too_large : string :=
  "**Oops! File too large :(**" +:+ nl +:+ "*Please try again.*".

(** [error_skip(ctx)] of functions.py: the log and the store it leaves.  The
    string ["1"] is the rendering of the integer 1. *)
Definition error_skip (channel_id : string)
    (db : gmap string (gmap string field))
  : list log_entry * gmap string (gmap string field) :=
  ([Info "ok"],
   hset (hset db ("channel:" +:+ channel_id) "item" (FStr ""))
        ("channel:" +:+ channel_id) "answered" (FInt 1)).

(** [if on_error is not None: on_error(ctx)] *)
Definition run_on_error
    (on_error : option (string -> gmap string (gmap string field)
                        -> list log_entry * gmap string (gmap string field)))
    (channel_id : string) (db : gmap string (gmap string field))
  : list log_entry * gmap string (gmap string field) :=
  match on_error with
  | Some f => f channel_id db
  | None => ([], db)
  end.

Section Sender.
(** The state of the disk and of the remote repository, as for [get_files]. *)
Context {world : Type}.
Variable listdir : world -> string -> option (list string).
Variable get_category : string -> string.
Variables _clone _pull : world -> world.
Variable download_dir : string.
(** [str.lower] *)
Variable str_lower : string -> string.
(** [os.stat(path).st_size] *)
Variable st_size : world -> string -> Z.
(** [config.options['id_type']] *)
Variable id_type : string.
(** [str(e)] for [GenericError(message, code)] of sciolyid.data. *)
Variable str_of_error : string -> Z -> string.

(** What a call of [send_image] did and left. *)
Record delivery : Type := Delivered {
  chat : list chat_event;
  logged : list log_entry;
  store : gmap string (gmap string field);
  disk : world;
  ended : result unit
}.

(** [get_image(ctx, item)]: [get_files(item)], then the selection. *)
Definition get_image (channel_id item : string)
    (db : gmap string (gmap string field)) (w : world)
  : list log_entry * world
    * result (gmap string (gmap string field) * (string * string)) :=
  let '(lg1, w1, images) :=
    get_files listdir get_category _clone _pull download_dir str_lower item 0 w in
  let '(lg2, r) := Core.get_image (st_size w1) images channel_id db in
  (lg1 ++ lg2, w1, r).

Definition send_image (channel_id item : string)
    (on_error : option (string -> gmap string (gmap string field)
                        -> list log_entry * gmap string (gmap string field)))
    (message : option string)
    (db : gmap string (gmap string field)) (w : world) : delivery :=
  if bool_decide (item = "") then
    let '(lg, db') := run_on_error on_error channel_id db in
    Delivered
      [Send ("**There was an error fetching " +:+ id_type +:+ ".**" +:+ nl
             +:+ "*Please try again.*")]
      (Error ("error - " +:+ id_type +:+ " is blank") :: lg) db' w (Ok tt)
  else
    let pre := [Send fetching; TriggerTyping] in
    match get_image channel_id item db w with
    | (lg, w1, Raise (GenericError msg code)) =>
        let '(lg', db') := run_on_error on_error channel_id db in
        Delivered
          (pre ++ [DeleteMessage fetching;
                   Send ("**An error has occurred while fetching images.**" +:+ nl
                         +:+ "*Please try again.*" +:+ nl +:+ "**Reason:** "
                         +:+ str_of_error msg code)])
          (lg ++ [Error (str_of_error msg code)] ++ lg') db' w1 (Ok tt)
    | (lg, w1, Raise e) => Delivered pre lg db w1 (Raise e)
    | (lg, w1, Ok (db1, (filename, extension))) =>
        if 4000000 <? st_size w1 filename then
          Delivered (pre ++ [DeleteMessage fetching; Send too_large]) lg db1 w1 (Ok tt)
        else
          Delivered
            (pre ++ match message with Some m => [Send m] | None => [] end
                 ++ [SendFile filename ("image." +:+ extension);
                     DeleteMessage fetching])
            lg db1 w1 (Ok tt)
    end.

Local Abbreviation sync := (FetchProps.sync listdir _clone _pull download_dir).
Local Abbreviation listing_fails :=
  (FetchProps.listing_fails listdir get_category str_lower).
Local Abbreviation directory := (FetchExtra.directory get_category str_lower).
Local Abbreviation paths_of := (FetchExtra.paths_of get_category str_lower).

(** The candidates of a call and the state in which they are examined. *)
Definition candidates (item : string) (w : world) : list string :=
  (get_files listdir get_category _clone _pull download_dir str_lower item 0 w).2.

Definition examined_in (item : string) (w : world) : world :=
  (get_files listdir get_category _clone _pull download_dir str_lower item 0 w).1.2.

Lemma get_image_eq channel_id item db w :
  (get_image channel_id item db w).1.2 = examined_in item w /\
  (get_image channel_id item db w).2 =
    (Core.get_image (st_size (examined_in item w)) (candidates item w) channel_id db).2.
Proof.
  unfold get_image, examined_in, candidates.
  destruct (get_files _ _ _ _ _ _ item 0 w) as [[lg1 w1] images]. cbn [fst snd].
  destruct (Core.get_image _ _ _ _) as [lg2 r]. split; reflexivity.
Qed.

(** The candidates are the listing, in the state the call leaves after its
    [k] syncs, of the directory the last attempt built (that of the item
    lower-cased once by each call so far), or there is none. *)
Lemma candidates_listed item w :
  candidates item w = [] \/
  exists (k : nat) files_dir,
    (k <= 3)%nat /\ examined_in item w = Nat.iter k sync w /\
    listdir (examined_in item w) (directory (Nat.iter k str_lower item))
      = Some files_dir /\
    files_dir <> [] /\
    candidates item w = paths_of (Nat.iter k str_lower item) files_dir.
Proof.
  unfold candidates, examined_in.
  destruct (get_files_outcome listdir get_category _clone _pull download_dir
              str_lower 3 item 0 w eq_refl)
    as (k & lg & files & E & _ & Hk & _ & Hres).
  rewrite E. cbn [fst snd].
  destruct Hres as [(-> & _)|(fd & Hl & Hne & ->)]; [left; reflexivity|].
  right. exists k, fd. auto.
Qed.

(** The run of [send_image] on an item that is not blank, by the way
    [get_image] ended. *)
Lemma send_image_run channel_id item on_error message db w :
  item <> "" ->
  let w1 := examined_in item w in
  let out := send_image channel_id item on_error message db w in
  disk out = w1 /\
  match (Core.get_image (st_size w1) (candidates item w) channel_id db).2 with
  | Raise (GenericError msg code) =>
      chat out =
        [Send fetching; TriggerTyping; DeleteMessage fetching;
         Send ("**An error has occurred while fetching images.**" +:+ nl
               +:+ "*Please try again.*" +:+ nl +:+ "**Reason:** "
               +:+ str_of_error msg code)] /\
      store out = (run_on_error on_error channel_id db).2 /\
      ended out = Ok tt
  | Raise e =>
      chat out = [Send fetching; TriggerTyping] /\ store out = db /\
      ended out = Raise e
  | Ok (db1, (filename, extension)) =>
      store out = db1 /\ ended out = Ok tt /\
      chat out =
        if 4000000 <? st_size w1 filename then
          [Send fetching; TriggerTyping; DeleteMessage fetching; Send too_large]
        else
          [Send fetching; TriggerTyping]
            ++ match message with Some m => [Send m] | None => [] end
            ++ [SendFile filename ("image." +:+ extension); DeleteMessage fetching]
  end.
Proof.
  intros Hne w1 out. subst w1 out.
  destruct (get_image_eq channel_id item db w) as [Hw Hr].
  unfold send_image. rewrite bool_decide_eq_false_2 by exact Hne.
  destruct (get_image channel_id item db w) as [[lg w1] r]. cbn [fst snd] in Hw, Hr.
  subst w1. rewrite <- Hr.
  destruct r as [[db1 [filename extension]]|e].
  - destruct (4000000 <? _); repeat split; reflexivity.
  - destruct e; try (repeat split; reflexivity).
    destruct (run_on_error on_error channel_id db) as [lg' db'].
    repeat split; reflexivity.
Qed.

Lemma get_image_ok_inv st images channel_id db db1 path ext :
  (Core.get_image st images channel_id db).2 = Ok (db1, (path, ext)) ->
  exists prevJ, hget db ("channel:" +:+ channel_id) "prevJ" = Some (FInt prevJ).
Proof.
  unfold Core.get_image.
  destruct (get_image_locals st images channel_id db) as [lg [[d v]|e]] eqn:E;
    [|discriminate].
  intros _. destruct (get_image_locals_ok_inv _ _ _ _ _ _ _ E) as (p & Hp & _).
  exists p. exact Hp.
Qed.


Lemma hget_hset_ne db key fld fld' v :
  fld <> fld' -> hget (hset db key fld' v) key fld = hget db key fld.
Proof.
  intros Hne. unfold hget, hset. rewrite lookup_insert_eq. cbn.
  rewrite lookup_insert_ne by congruence.
  destruct (db !! key); [reflexivity|]. cbn. apply lookup_empty.
Qed.

Lemma lookup_hset_ne (db : gmap string (gmap string field)) key key' fld v :
  key <> key' -> hset db key' fld v !! key = db !! key.
Proof. intros Hne. unfold hset. apply lookup_insert_ne. congruence. Qed.

(** X18.  A file that [send_image] sends is one of the entries of the
    directory the last attempt of the call listed (after [k <= 3] syncs,
    that of the item lower-cased once by each call so far), as the call
    leaves it; it has at most 4,000,000 bytes, and is attached under the
    name ["image."] followed by its own extension; the call then sent
    exactly that one file, after the optional message, deleted its
    "Fetching" message, and returned. *)
Theorem send_image_sent_file channel_id item on_error message db w path name :
  SendFile path name ∈ chat (send_image channel_id item on_error message db w) ->
  item <> "" /\
  ended (send_image channel_id item on_error message db w) = Ok tt /\
  st_size (disk (send_image channel_id item on_error message db w)) path <= 4000000 /\
  name = "image." +:+ extension_of path /\
  (exists (k : nat) files_dir,
     (k <= 3)%nat /\
     disk (send_image channel_id item on_error message db w) = Nat.iter k sync w /\
     listdir (disk (send_image channel_id item on_error message db w))
             (directory (Nat.iter k str_lower item)) = Some files_dir /\
     path ∈ paths_of (Nat.iter k str_lower item) files_dir) /\
  chat (send_image channel_id item on_error message db w) =
    [Send fetching; TriggerTyping]
      ++ match message with Some m => [Send m] | None => [] end
      ++ [SendFile path name; DeleteMessage fetching].
Proof.
  intros Hin.
  destruct (decide (item = "")) as [->|Hne].
  { exfalso. unfold send_image in Hin.
    rewrite bool_decide_eq_true_2 in Hin by reflexivity.
    destruct (run_on_error on_error channel_id db) as [lg db']. cbn [chat] in Hin.
    apply list_elem_of_singleton in Hin. discriminate. }
  split; [exact Hne|].
  destruct (send_image_run channel_id item on_error message db w Hne) as [Hdisk Hrun].
  rewrite Hdisk.
  destruct (Core.get_image _ _ _ _).2 as [[db1 [filename extension]]|e] eqn:Hget.
  - destruct Hrun as (_ & Hend & Hchat). rewrite Hchat in Hin |- *.
    destruct (get_image_ok_inv _ _ _ _ _ _ _ Hget) as (prevJ & Hdb).
    pose proof (get_image_cases (st_size (examined_in item w)) (candidates item w)
                  channel_id db prevJ Hdb) as Hcases.
    rewrite Hget in Hcases. destruct Hcases as (_ & Hcand & Hext & _).
    destruct (Z.ltb_spec 4000000 (st_size (examined_in item w) filename)) as [Hbig|Hok].
    + exfalso. repeat (apply elem_of_cons in Hin as [Hin|Hin]; [discriminate|]).
      inversion Hin.
    + assert (Heq : path = filename /\ name = "image." +:+ extension).
      { do 2 (apply elem_of_cons in Hin as [Hin|Hin]; [discriminate|]).
        apply elem_of_app in Hin as [Hin|Hin].
        - destruct message; [|inversion Hin].
          apply list_elem_of_singleton in Hin. discriminate.
        - apply elem_of_cons in Hin as [Hin|Hin]; [injection Hin; auto|].
          apply list_elem_of_singleton in Hin. discriminate. }
      destruct Heq as [-> ->]. subst extension.
      split; [exact Hend|]. split; [exact Hok|]. split; [reflexivity|].
      split; [|reflexivity].
      destruct (candidates_listed item w) as [Hnil|(k & fd & Hk & Hw & Hl & _ & Hc)].
      * rewrite Hnil in Hcand. inversion Hcand.
      * exists k, fd. split; [exact Hk|]. split; [exact Hw|]. split; [exact Hl|].
        rewrite <- Hc. exact Hcand.
  - exfalso. destruct e; destruct Hrun as (Hchat & _); rewrite Hchat in Hin;
      repeat (apply elem_of_cons in Hin as [Hin|Hin]; [discriminate|]);
      inversion Hin.
Qed.


(** X20.  The defect of the selector reaches the user: when no candidate
    passes the filter and [prevJ] is not an index of the list (as on a
    channel just set up, where it is 20), [send_image] returns normally and
    either sends a file that fails the filter or, if that file has more than
    4,000,000 bytes, the "too large" notice; it never reports that no valid
    image was found. *)
Theorem send_image_sends_invalid_file channel_id item on_error message db w prevJ :
  item <> "" ->
  hget db ("channel:" +:+ channel_id) "prevJ" = Some (FInt prevJ) ->
  candidates item w <> [] ->
  ~ 0 <= prevJ < Z.of_nat (length (candidates item w)) ->
  (forall img, img ∈ candidates item w ->
               valid_image (st_size (examined_in item w)) img = false) ->
  exists path,
    path ∈ candidates item w /\
    valid_image (st_size (examined_in item w)) path = false /\
    ended (send_image channel_id item on_error message db w) = Ok tt /\
    chat (send_image channel_id item on_error message db w) =
      if 4000000 <? st_size (examined_in item w) path then
        [Send fetching; TriggerTyping; DeleteMessage fetching; Send too_large]
      else
        [Send fetching; TriggerTyping]
          ++ match message with Some m => [Send m] | None => [] end
          ++ [SendFile path ("image." +:+ extension_of path); DeleteMessage fetching].
Proof.
  intros Hne Hdb Hcne Hout Hall.
  destruct (send_image_run channel_id item on_error message db w Hne) as [_ Hrun].
  pose proof (get_image_cases (st_size (examined_in item w)) (candidates item w)
                channel_id db prevJ Hdb) as Hcases.
  destruct (Core.get_image _ _ _ _).2 as [[db1 [filename extension]]|e].
  - destruct Hcases as (_ & Hcand & -> & _).
    destruct Hrun as (_ & Hend & Hchat).
    exists filename. split; [exact Hcand|]. split; [exact (Hall _ Hcand)|].
    split; assumption.
  - exfalso. destruct Hcases as [(_ & Hnil)|(_ & _ & Hrange & _)];
      [exact (Hcne Hnil) | exact (Hout Hrange)].
Qed.

(** X21.  When the listing fails at each of the four attempts (each for the
    directory built there: that of the item lower-cased once by each call
    so far), [send_image] with [error_skip] as [on_error] makes three
    syncs, tells the user that no images were found, sends no file, and
    skips the item: the channel has [item] blank and [answered] 1, its
    [prevJ] is as before, and no other key of the store has changed. *)
Theorem send_image_skips_on_error channel_id item message db w prevJ :
  item <> "" ->
  hget db ("channel:" +:+ channel_id) "prevJ" = Some (FInt prevJ) ->
  (forall i : nat, (i <= 3)%nat ->
     listing_fails (Nat.iter i sync w) (Nat.iter i str_lower item)) ->
  chat (send_image channel_id item (Some error_skip) message db w) =
    [Send fetching; TriggerTyping; DeleteMessage fetching;
     Send ("**An error has occurred while fetching images.**" +:+ nl
           +:+ "*Please try again.*" +:+ nl +:+ "**Reason:** "
           +:+ str_of_error "No Images Found" 100)] /\
  ended (send_image channel_id item (Some error_skip) message db w) = Ok tt /\
  disk (send_image channel_id item (Some error_skip) message db w)
    = Nat.iter 3 sync w /\
  hget (store (send_image channel_id item (Some error_skip) message db w))
       ("channel:" +:+ channel_id) "item" = Some (FStr "") /\
  hget (store (send_image channel_id item (Some error_skip) message db w))
       ("channel:" +:+ channel_id) "answered" = Some (FInt 1) /\
  hget (store (send_image channel_id item (Some error_skip) message db w))
       ("channel:" +:+ channel_id) "prevJ" = Some (FInt prevJ) /\
  (forall key, key <> "channel:" +:+ channel_id ->
     store (send_image channel_id item (Some error_skip) message db w) !! key
     = db !! key).
Proof.
  intros Hne Hdb Hfail.
  destruct (send_image_run channel_id item (Some error_skip) message db w Hne)
    as [Hdisk Hrun].
  assert (Hfiles : candidates item w = [] /\ examined_in item w = Nat.iter 3 sync w).
  { unfold candidates, examined_in.
    destruct (get_files_outcome listdir get_category _clone _pull download_dir
                str_lower 3 item 0 w eq_refl)
      as (k & lg & files & E & _ & Hk & _ & Hres).
    rewrite E. cbn [fst snd].
    destruct Hres as [(-> & -> & _)|(fd & Hl & Hfd & _)]; [split; reflexivity|].
    exfalso. unfold FetchExtra.directory in Hl.
    destruct (Hfail k Hk) as [Hn|Hn]; rewrite Hl in Hn;
      [discriminate | injection Hn as ->; exact (Hfd eq_refl)]. }
  destruct Hfiles as [Hnil Hw1]. rewrite Hnil in Hrun.
  assert (Hget : (Core.get_image (st_size (examined_in item w)) [] channel_id db).2
                 = Raise (GenericError "No Images Found" 100)).
  { unfold Core.get_image, get_image_locals. rewrite Hdb. reflexivity. }
  rewrite Hget in Hrun. destruct Hrun as (Hchat & Hstore & Hend).
  rewrite Hdisk, Hw1, Hchat, Hstore. cbn [run_on_error error_skip snd].
  split; [reflexivity|]. split; [exact Hend|]. split; [reflexivity|].
  split; [rewrite hget_hset_ne by discriminate; apply hget_hset|].
  split; [apply hget_hset|].
  split; [rewrite !hget_hset_ne by discriminate; exact Hdb|].
  intros key Hkey. rewrite !lookup_hset_ne by exact Hkey. reflexivity.
Qed.

(** X22.  Only [GenericError] is caught: on a channel that has no [prevJ]
    (one that was never set up), [send_image] raises [ValueError] after the
    files were fetched; it has not run [on_error], has left the store as it
    was, and its "Fetching" message stays in the channel. *)
Theorem send_image_unset_channel_raises channel_id item on_error message db w :
  item <> "" ->
  hget db ("channel:" +:+ channel_id) "prevJ" = None ->
  ended (send_image channel_id item on_error message db w) = Raise ValueError /\
  chat (send_image channel_id item on_error message db w)
    = [Send fetching; TriggerTyping] /\
  store (send_image channel_id item on_error message db w) = db /\
  disk (send_image channel_id item on_error message db w) = examined_in item w.
Proof.
  intros Hne Hdb.
  destruct (send_image_run channel_id item on_error message db w Hne) as [Hdisk Hrun].
  assert (Hget : (Core.get_image (st_size (examined_in item w)) (candidates item w)
                    channel_id db).2 = Raise ValueError).
  { unfold Core.get_image, get_image_locals. rewrite Hdb. reflexivity. }
  rewrite Hget in Hrun. destruct Hrun as (Hchat & Hstore & Hend).
  repeat split; assumption.
Qed.

End Sender.

(** A disk, given by the number of syncs made, on which every directory
    lists the same entries, each of 100 bytes; and one without directories. *)
Definition listed (names : list string) (w : nat) (directory : string)
  : option (list string) := Some names.

Definition small_sizes (w : nat) (path : string) : Z := 100.

Definition no_directory (w : nat) (directory : string) : option (list string) := None.

(** [send_image] for the item "Robin" on channel 7, on these disks. *)
Definition send_robin (listdir : nat -> string -> option (list string))
    on_error (db : gmap string (gmap string field)) : delivery :=
  send_image listdir (fun _ => "birds") S S "github_download" lower small_sizes "bird"
    (fun msg _ => msg) "7" "Robin" on_error None db 0%nat.

Definition robin_candidates (listdir : nat -> string -> option (list string))
  : list string :=
  candidates listdir (fun _ => "birds") S S "github_download" lower "Robin" 0%nat.

Definition robin_examined_in (listdir : nat -> string -> option (list string)) : nat :=
  examined_in listdir (fun _ => "birds") S S "github_download" lower "Robin" 0%nat.

Lemma send_image_sent_file_witness :
  SendFile "github_download/birds/robin/b.png" "image.png"
    ∈ chat (send_robin (listed ["b.png"]) None fresh_channel) /\
  "Robin" <> "" /\
  ended (send_robin (listed ["b.png"]) None fresh_channel) = Ok tt /\
  small_sizes (disk (send_robin (listed ["b.png"]) None fresh_channel))
    "github_download/birds/robin/b.png" <= 4000000 /\
  "image.png" = "image." +:+ extension_of "github_download/birds/robin/b.png" /\
  (exists (k : nat) files_dir,
     (k <= 3)%nat /\
     disk (send_robin (listed ["b.png"]) None fresh_channel)
       = Nat.iter k (FetchProps.sync (listed ["b.png"]) S S "github_download") 0%nat /\
     listed ["b.png"] (disk (send_robin (listed ["b.png"]) None fresh_channel))
       (FetchExtra.directory (fun _ => "birds") lower (Nat.iter k lower "Robin"))
       = Some files_dir /\
     "github_download/birds/robin/b.png"
       ∈ FetchExtra.paths_of (fun _ => "birds") lower (Nat.iter k lower "Robin")
           files_dir) /\
  chat (send_robin (listed ["b.png"]) None fresh_channel) =
    [Send fetching; TriggerTyping] ++ []
      ++ [SendFile "github_download/birds/robin/b.png" "image.png";
          DeleteMessage fetching].
Proof.
  assert (H : SendFile "github_download/birds/robin/b.png" "image.png"
                ∈ chat (send_robin (listed ["b.png"]) None fresh_channel)).
  { apply (bool_decide_unpack _). vm_compute. reflexivity. }
  split; [exact H|].
  exact (send_image_sent_file (listed ["b.png"]) (fun _ => "birds") S S
           "github_download" lower small_sizes "bird" (fun msg _ => msg)
           "7" "Robin" None None fresh_channel 0%nat _ _ H).
Defined.


Lemma send_image_sends_invalid_file_witness :
  "Robin" <> "" /\
  hget fresh_channel ("channel:" +:+ "7") "prevJ" = Some (FInt 20) /\
  robin_candidates (listed ["a.txt"]) <> [] /\
  ~ 0 <= 20 < Z.of_nat (length (robin_candidates (listed ["a.txt"]))) /\
  (forall img, img ∈ robin_candidates (listed ["a.txt"]) ->
     valid_image (small_sizes (robin_examined_in (listed ["a.txt"]))) img = false) /\
  exists path,
    path ∈ robin_candidates (listed ["a.txt"]) /\
    valid_image (small_sizes (robin_examined_in (listed ["a.txt"]))) path = false /\
    ended (send_robin (listed ["a.txt"]) None fresh_channel) = Ok tt /\
    chat (send_robin (listed ["a.txt"]) None fresh_channel) =
      if 4000000 <? small_sizes (robin_examined_in (listed ["a.txt"])) path then
        [Send fetching; TriggerTyping; DeleteMessage fetching; Send too_large]
      else
        [Send fetching; TriggerTyping] ++ []
          ++ [SendFile path ("image." +:+ extension_of path); DeleteMessage fetching].
Proof.
  assert (Hc : robin_candidates (listed ["a.txt"]) = ["github_download/birds/robin/a.txt"])
    by (vm_compute; reflexivity).
  assert (H1 : "Robin" <> "") by discriminate.
  assert (H2 : hget fresh_channel ("channel:" +:+ "7") "prevJ" = Some (FInt 20))
    by (vm_compute; reflexivity).
  assert (H3 : robin_candidates (listed ["a.txt"]) <> [])
    by (rewrite Hc; discriminate).
  assert (H4 : ~ 0 <= 20 < Z.of_nat (length (robin_candidates (listed ["a.txt"]))))
    by (rewrite Hc; cbn; lia).
  assert (H5 : forall img, img ∈ robin_candidates (listed ["a.txt"]) ->
             valid_image (small_sizes (robin_examined_in (listed ["a.txt"]))) img = false).
  { intros img Hin. rewrite Hc in Hin. apply list_elem_of_singleton in Hin as ->.
    vm_compute. reflexivity. }
  split; [exact H1|]. split; [exact H2|]. split; [exact H3|]. split; [exact H4|].
  split; [exact H5|].
  exact (send_image_sends_invalid_file (listed ["a.txt"]) (fun _ => "birds") S S
           "github_download" lower small_sizes "bird" (fun msg _ => msg)
           "7" "Robin" None None fresh_channel 0%nat 20 H1 H2 H3 H4 H5).
Defined.

Lemma send_image_skips_on_error_witness :
  "Robin" <> "" /\
  hget fresh_channel ("channel:" +:+ "7") "prevJ" = Some (FInt 20) /\
  (forall i : nat, (i <= 3)%nat ->
     FetchProps.listing_fails no_directory (fun _ => "birds") lower
       (Nat.iter i (FetchProps.sync no_directory S S "github_download") 0%nat)
       (Nat.iter i lower "Robin")) /\
  chat (send_robin no_directory (Some error_skip) fresh_channel) =
    [Send fetching; TriggerTyping; DeleteMessage fetching;
     Send ("**An error has occurred while fetching images.**" +:+ nl
           +:+ "*Please try again.*" +:+ nl +:+ "**Reason:** "
           +:+ "No Images Found")] /\
  ended (send_robin no_directory (Some error_skip) fresh_channel) = Ok tt /\
  disk (send_robin no_directory (Some error_skip) fresh_channel)
    = Nat.iter 3 (FetchProps.sync no_directory S S "github_download") 0%nat /\
  hget (store (send_robin no_directory (Some error_skip) fresh_channel))
       ("channel:" +:+ "7") "item" = Some (FStr "") /\
  hget (store (send_robin no_directory (Some error_skip) fresh_channel))
       ("channel:" +:+ "7") "answered" = Some (FInt 1) /\
  hget (store (send_robin no_directory (Some error_skip) fresh_channel))
       ("channel:" +:+ "7") "prevJ" = Some (FInt 20) /\
  (forall key, key <> "channel:" +:+ "7" ->
     store (send_robin no_directory (Some error_skip) fresh_channel) !! key
     = fresh_channel !! key).
Proof.
  assert (H1 : "Robin" <> "") by discriminate.
  assert (H2 : hget fresh_channel ("channel:" +:+ "7") "prevJ" = Some (FInt 20))
    by (vm_compute; reflexivity).
  assert (H3 : forall i : nat, (i <= 3)%nat ->
     FetchProps.listing_fails no_directory (fun _ => "birds") lower
       (Nat.iter i (FetchProps.sync no_directory S S "github_download") 0%nat)
       (Nat.iter i lower "Robin")).
  { intros i _. left. reflexivity. }
  split; [exact H1|]. split; [exact H2|]. split; [exact H3|].
  exact (send_image_skips_on_error no_directory (fun _ => "birds") S S
           "github_download" lower small_sizes "bird" (fun msg _ => msg)
           "7" "Robin" None fresh_channel 0%nat 20 H1 H2 H3).
Defined.

Lemma send_image_unset_channel_raises_witness :
  "Robin" <> "" /\
  hget (∅ : gmap string (gmap string field)) ("channel:" +:+ "7") "prevJ" = None /\
  ended (send_robin (listed ["b.png"]) (Some error_skip) ∅) = Raise ValueError /\
  chat (send_robin (listed ["b.png"]) (Some error_skip) ∅)
    = [Send fetching; TriggerTyping] /\
  store (send_robin (listed ["b.png"]) (Some error_skip) ∅) = ∅ /\
  disk (send_robin (listed ["b.png"]) (Some error_skip) ∅)
    = robin_examined_in (listed ["b.png"]).
Proof.
  assert (H1 : "Robin" <> "") by discriminate.
  assert (H2 : hget (∅ : gmap string (gmap string field)) ("channel:" +:+ "7") "prevJ"
               = None) by reflexivity.
  split; [exact H1|]. split; [exact H2|].
  exact (send_image_unset_channel_raises (listed ["b.png"]) (fun _ => "birds") S S
           "github_download" lower small_sizes "bird" (fun msg _ => msg)
           "7" "Robin" (Some error_skip) None ∅ 0%nat H1 H2).
Defined.

End Delivery.


(** * functions.py: score keeping *)

Module Functions.
Import GitTasks.

(** What the functions read of the Discord context: [ctx.channel.id] and
    [ctx.author.id], rendered, and [ctx.guild.id] when [ctx.guild] is not
    [None]. *)
Record ctx : Type := Ctx {
  channel_id : string;
  author_id : string;
  guild_id : option string
}.

(** ** Sorted sets.  Scores are integers here: the code only adds integer
    amounts to 0. *)

(** [database.zscore(key, member)] *)
Definition zscore (key member : string) (r : redis) : option Z :=
  default ∅ (zsets r !! key) !! member.

(** [database.zadd(key, {member: score})] *)
Definition zadd (key member : string) (score : Z) (r : redis) : redis :=
  Redis (hashes r)
        (<[key := <[member := score]> (default ∅ (zsets r !! key))]> (zsets r))
        (values r) (expires r).

(** [database.zincrby(key, amount, member)]: a missing member counts as 0. *)
Definition zincrby (key : string) (amount : Z) (member : string) (r : redis) : redis :=
  zadd key member (default 0 (zscore key member r) + amount) r.

(** How a call ends: it returns, or raises [TypeError] (as [int(None)]
    does), [DataError] (as the client does for a score that is [None]), or
    another exception. *)
Inductive ending (A : Type) : Type :=
| Returns (a : A)
| TypeError
| DataError
| Raises (e : exn).
Arguments Returns {A} a.
Arguments TypeError {A}.
Arguments DataError {A}.
Arguments Raises {A} e.

(** ** [session_increment] *)

(** [int(database.hget(key, item))]: [int(None)] raises [TypeError]. *)
Definition int_of_field (o : option field) : ending Z :=
  match o with
  | None => TypeError
  | Some (FInt z) => Returns z
  | Some _ => Raises ValueError
  end.

Definition session_increment (c : ctx) (item : string) (amount : Z) (r : redis)
  : list log_entry * ending redis :=
  let key := "session.data:" +:+ author_id c in
  ([InfoZ ("incrementing " +:+ item +:+ " by ") amount],
   match int_of_field (h ← hashes r !! key; h !! item) with
   | Returns value =>
       Returns (hset_mapping key {[ item := FInt (value + amount) ]} r)
   | TypeError => TypeError
   | DataError => DataError
   | Raises e => Raises e
   end).

(** ** [score_increment] *)

Definition score_increment (c : ctx) (amount : Z) (r : redis)
  : list log_entry * redis :=
  ([InfoZ "incrementing score by " amount],
   zincrby "users:global" amount (author_id c)
     (zincrby "score:global" amount (channel_id c) r)).

Section Items.
(** [string.capwords] *)
Variable capwords : string -> string.

(** The pattern of [item_setup]:
    [if zscore(key, member) is not None: info(ok)]
    [else: zadd(key, {member: 0}); info(added)]. *)
Definition ensure_member (key member ok added : string) (r : redis)
  : list log_entry * redis :=
  match zscore key member r with
  | Some _ => ([Info ok], r)
  | None => ([Info added], zadd key member 0 r)
  end.

Definition item_setup (c : ctx) (item : string) (r : redis)
  : list log_entry * redis :=
  let '(lg1, r1) :=
    ensure_member "incorrect:global" (capwords item)
      "item global ok" "item global added" r in
  let '(lg2, r2) :=
    ensure_member ("incorrect.user:" +:+ author_id c) (capwords item)
      "item user ok" "item user added" r1 in
  let '(lg3, r3) :=
    match guild_id c with
    | Some g =>
        let '(lg, r') :=
          ensure_member ("incorrect.server:" +:+ g) (capwords item)
            "item server ok" "item server added" r2 in
        (Info "no dm" :: lg, r')
    | None => ([Info "dm context"], r2)
    end in
  let '(lg4, r4) :=
    if exists_key ("session.data:" +:+ author_id c) r3 then
      let '(lg, r') :=
        ensure_member ("session.incorrect:" +:+ author_id c) (capwords item)
          "item session ok" "item session added" r3 in
      (Info "session in session" :: lg, r')
    else ([Info "no session"], r3) in
  (Info "checking item data" :: lg1 ++ lg2 ++ lg3 ++ lg4, r4).

Definition incorrect_increment (c : ctx) (item : string) (amount : Z) (r : redis)
  : list log_entry * redis :=
  let r1 := zincrby "incorrect:global" amount (capwords item) r in
  let r2 := zincrby ("incorrect.user:" +:+ author_id c) amount (capwords item) r1 in
  let '(lg3, r3) :=
    match guild_id c with
    | Some g =>
        ([Info "no dm"],
         zincrby ("incorrect.server:" +:+ g) amount (capwords item) r2)
    | None => ([Info "dm context"], r2)
    end in
  let '(lg4, r4) :=
    if exists_key ("session.data:" +:+ author_id c) r3 then
      ([Info "session in session"],
       zincrby ("session.incorrect:" +:+ author_id c) amount (capwords item) r3)
    else ([Info "no session"], r3) in
  (InfoZ ("incrementing incorrect " +:+ item +:+ " by ") amount :: lg3 ++ lg4, r4).

(** The sorted sets in which the two functions keep the item for a context
    in a store: the global one, the one of the user, the one of the server
    outside direct messages, the one of the session when there is one. *)
Definition tracked (c : ctx) (r : redis) : list string :=
  ["incorrect:global"; "incorrect.user:" +:+ author_id c]
    ++ match guild_id c with Some g => ["incorrect.server:" +:+ g] | None => [] end
    ++ (if exists_key ("session.data:" +:+ author_id c) r
        then ["session.incorrect:" +:+ author_id c] else []).

End Items.

(** ** [user_setup] *)

Section Users.
(** [a is b] on two scores read from the store. *)
Variable same_object : Z -> Z -> bool.

Definition user_setup (c : ctx) (r : redis)
  : list string * list log_entry * ending redis :=
  let a := author_id c in
  let '(sent, lg1, r1) :=
    match zscore "users:global" a r with
    | Some _ => ([], [Info "user global ok"], r)
    | None =>
        (["Welcome <@" +:+ a +:+ ">!"], [Info "user global added"],
         zadd "users:global" a 0 r)
    end in
  let '(lg2, r2) :=
    match zscore "streak:global" a r1, zscore "streak.max:global" a r1 with
    | Some _, Some _ => ([Info "user streak in already"], r1)
    | _, _ =>
        ([Info "added streak"],
         zadd "streak.max:global" a 0 (zadd "streak:global" a 0 r1))
    end in
  let lg0 := Info "checking user data" :: lg1 ++ lg2 in
  match guild_id c with
  | Some g =>
      match zscore ("users.server:" +:+ g) a r2 with
      | Some server_score =>
          match zscore "users:global" a r2 with
          | Some global_score =>
              if same_object server_score global_score then
                (sent, lg0 ++ [Info "no dm"; Info "user server ok"], Returns r2)
              else
                (sent, lg0 ++ [Info "no dm"],
                 Returns (zadd ("users.server:" +:+ g) a global_score r2))
          | None =>
              (* [zadd] refuses the score [None] *)
              (sent, lg0 ++ [Info "no dm"], DataError)
          end
      | None =>
          match zscore "users:global" a r2 with
          | Some score =>
              (sent, lg0 ++ [Info "no dm"; Info "user server added"],
               Returns (zadd ("users.server:" +:+ g) a score r2))
          | None => (sent, lg0 ++ [Info "no dm"], TypeError)
          end
      end
  | None => (sent, lg0 ++ [Info "dm context"], Returns r2)
  end.

End Users.

End Functions.

(** * Properties of the score keeping *)

Module FunctionsProps.
Import GitTasks Functions.

(** ** Sorted sets *)

Lemma zscore_zadd key member score r :
  zscore key member (zadd key member score r) = Some score.
Proof.
  unfold zscore, zadd. cbn [zsets]. rewrite lookup_insert_eq. cbn.
  apply lookup_insert_eq.
Qed.

Lemma zscore_zadd_ne key member key' member' score r :
  key <> key' \/ member <> member' ->
  zscore key member (zadd key' member' score r) = zscore key member r.
Proof.
  intros Hne. unfold zscore, zadd. cbn [zsets].
  destruct (decide (key = key')) as [->|Hk].
  - rewrite lookup_insert_eq. cbn. apply lookup_insert_ne.
    destruct Hne as [H|H]; congruence.
  - rewrite lookup_insert_ne by congruence. reflexivity.
Qed.

Lemma exists_key_zadd_ne key key' member score r :
  key <> key' -> exists_key key (zadd key' member score r) = exists_key key r.
Proof.
  intros Hne. unfold exists_key, zadd. cbn [hashes zsets values].
  rewrite lookup_insert_ne by congruence. reflexivity.
Qed.

(** A change of the score of [name] in the sorted set [key], by [g], that
    leaves everything else. *)
Definition changes_score (g : option Z -> Z) (name : string)
    (upd : string -> redis -> redis) : Prop :=
  forall key r,
    zscore key name (upd key r) = Some (g (zscore key name r)) /\
    (forall k m, k <> key \/ m <> name -> zscore k m (upd key r) = zscore k m r) /\
    hashes (upd key r) = hashes r /\ values (upd key r) = values r /\
    (forall k, k <> key -> exists_key k (upd key r) = exists_key k r).

Lemma changes_score_foldl g name upd (keys : list string) :
  changes_score g name upd -> NoDup keys ->
  forall r,
    let r' := foldl (fun acc key => upd key acc) r keys in
    (forall key, key ∈ keys -> zscore key name r' = Some (g (zscore key name r))) /\
    (forall k m, k ∉ keys \/ m <> name -> zscore k m r' = zscore k m r) /\
    hashes r' = hashes r /\ values r' = values r /\
    (forall k, k ∉ keys -> exists_key k r' = exists_key k r).
Proof.
  intros Hupd. induction keys as [|key keys IH]; intros Hnd r; cbn [foldl].
  - repeat split; try reflexivity. intros key Hin. inversion Hin.
  - apply NoDup_cons in Hnd as [Hnotin Hnd].
    destruct (Hupd key r) as (Hs & Ho & Hh & Hv & He).
    destruct (IH Hnd (upd key r)) as (IHs & IHo & IHh & IHv & IHe).
    cbv zeta in *.
    split; [|split; [|split; [|split]]].
    + intros k Hin. apply elem_of_cons in Hin as [->|Hin].
      * rewrite IHo by (left; exact Hnotin). exact Hs.
      * rewrite (IHs k Hin). f_equal. f_equal. apply Ho. left.
        intros ->. exact (Hnotin Hin).
    + intros k m Hkm. rewrite IHo.
      * apply Ho. destruct Hkm as [Hk|Hm]; [left|right; exact Hm].
        intros ->. apply Hk. left.
      * destruct Hkm as [Hk|Hm]; [left|right; exact Hm].
        intros Hin. apply Hk. right. exact Hin.
    + rewrite IHh. exact Hh.
    + rewrite IHv. exact Hv.
    + intros k Hk. rewrite IHe by (intros Hin; apply Hk; right; exact Hin).
      apply He. intros ->. apply Hk. left.
Qed.

Lemma changes_score_zincrby amount name :
  changes_score (fun o => default 0 o + amount) name
                (fun key => zincrby key amount name).
Proof.
  intros key r. unfold zincrby. split; [apply zscore_zadd|].
  split; [intros k m Hne; apply zscore_zadd_ne; exact Hne|].
  split; [reflexivity|]. split; [reflexivity|].
  intros k Hne. apply exists_key_zadd_ne. exact Hne.
Qed.

(** The store [ensure_member] leaves. *)
Definition ensure_store (name key : string) (r : redis) : redis :=
  match zscore key name r with
  | Some _ => r
  | None => zadd key name 0 r
  end.

Lemma ensure_member_store key name ok added r :
  (ensure_member key name ok added r).2 = ensure_store name key r.
Proof. unfold ensure_member, ensure_store. destruct (zscore key name r); reflexivity. Qed.

Lemma changes_score_ensure name :
  changes_score (fun o => default 0 o) name (ensure_store name).
Proof.
  intros key r. unfold ensure_store.
  destruct (zscore key name r) as [s|] eqn:Hz.
  - rewrite Hz. repeat split; reflexivity.
  - split; [apply zscore_zadd|].
    split; [intros k m Hne; apply zscore_zadd_ne; exact Hne|].
    split; [reflexivity|]. split; [reflexivity|].
    intros k Hne. apply exists_key_zadd_ne. exact Hne.
Qed.

(** ** The items *)

Section Items.
Variable capwords : string -> string.

Local Abbreviation item_setup := (Functions.item_setup capwords).
Local Abbreviation incorrect_increment := (Functions.incorrect_increment capwords).

Ltac step_ensure :=
  match goal with
  | |- context [ensure_member ?k ?n ?ok ?ad ?r] =>
      let lg := fresh "lg" in
      let r1 := fresh "r" in
      let E := fresh "E" in
      destruct (ensure_member k n ok ad r) as [lg r1] eqn:E;
      apply (f_equal snd) in E; cbn [snd] in E;
      rewrite ensure_member_store in E; subst r1
  end.

Lemma NoDup_tracked c r : NoDup (tracked c r).
Proof.
  unfold tracked. destruct (guild_id c), (exists_key _ r); cbn [app];
    repeat (apply NoDup_cons; split;
            [rewrite ?elem_of_cons, elem_of_nil; intros H;
             repeat (destruct H as [H|H]; [discriminate H|]); exact H|]);
    apply NoDup_nil; exact I.
Qed.

Lemma session_data_not_tracked c (r : redis) :
  ("session.data:" +:+ author_id c) ∉ tracked c r.
Proof.
  unfold tracked. destruct (guild_id c), (exists_key _ r); cbn [app];
    rewrite ?elem_of_cons, elem_of_nil; intros H;
    repeat (destruct H as [H|H]; [discriminate H|]); exact H.
Qed.

(** The sorted sets written before the session is looked up. *)
Definition tracked_first (c : ctx) : list string :=
  ["incorrect:global"; "incorrect.user:" +:+ author_id c]
    ++ match guild_id c with
       | Some g => ["incorrect.server:" +:+ g]
       | None => []
       end.

Lemma session_data_not_first c : ("session.data:" +:+ author_id c) ∉ tracked_first c.
Proof.
  unfold tracked_first. destruct (guild_id c); cbn [app];
    rewrite ?elem_of_cons, elem_of_nil; intros H;
    repeat (destruct H as [H|H]; [discriminate H|]); exact H.
Qed.

Lemma NoDup_tracked_first c : NoDup (tracked_first c).
Proof.
  unfold tracked_first. destruct (guild_id c); cbn [app];
    repeat (apply NoDup_cons; split;
            [rewrite ?elem_of_cons, elem_of_nil; intros H;
             repeat (destruct H as [H|H]; [discriminate H|]); exact H|]);
    apply NoDup_nil; exact I.
Qed.

(** The checks of the session are made in a store that differs from the
    first one in sorted sets only. *)
Lemma exists_session_foldl g name upd c r (keys : list string) :
  changes_score g name upd -> NoDup keys ->
  ("session.data:" +:+ author_id c) ∉ keys ->
  exists_key ("session.data:" +:+ author_id c)
             (foldl (fun acc key => upd key acc) r keys)
  = exists_key ("session.data:" +:+ author_id c) r.
Proof.
  intros Hupd Hnd Hnotin.
  destruct (changes_score_foldl g name upd keys Hupd Hnd r) as (_ & _ & _ & _ & He).
  apply He. exact Hnotin.
Qed.

Lemma item_setup_store c item r :
  (item_setup c item r).2 =
  foldl (fun acc key => ensure_store (capwords item) key acc) r (tracked c r).
Proof.
  unfold Functions.item_setup, tracked.
  pose proof (exists_session_foldl _ _ _ c r _ (changes_score_ensure (capwords item))
                (NoDup_tracked_first c) (session_data_not_first c)) as He.
  unfold tracked_first in He.
  do 2 step_ensure.
  destruct (guild_id c) as [g|]; cbn [app foldl] in He |- *.
  - step_ensure. rewrite He.
    destruct (exists_key _ r); [step_ensure|]; reflexivity.
  - rewrite He. destruct (exists_key _ r); [step_ensure|]; reflexivity.
Qed.

Lemma incorrect_increment_store c item amount r :
  (incorrect_increment c item amount r).2 =
  foldl (fun acc key => zincrby key amount (capwords item) acc) r (tracked c r).
Proof.
  unfold Functions.incorrect_increment, tracked.
  pose proof (exists_session_foldl _ _ _ c r _
                (changes_score_zincrby amount (capwords item))
                (NoDup_tracked_first c) (session_data_not_first c)) as He.
  unfold tracked_first in He. cbv zeta.
  destruct (guild_id c) as [g|]; cbn [app foldl] in He |- *;
    rewrite He; destruct (exists_key _ r); reflexivity.
Qed.

Lemma tracked_same c r r' :
  exists_key ("session.data:" +:+ author_id c) r'
  = exists_key ("session.data:" +:+ author_id c) r ->
  tracked c r' = tracked c r.
Proof. intros H. unfold tracked. rewrite H. reflexivity. Qed.

Lemma ensure_store_present name (keys : list string) : forall r,
  (forall key, key ∈ keys -> is_Some (zscore key name r)) ->
  foldl (fun acc key => ensure_store name key acc) r keys = r.
Proof.
  induction keys as [|key keys IH]; intros r H; [reflexivity|].
  cbn [foldl]. assert (Hk : ensure_store name key r = r).
  { unfold ensure_store. destruct (H key ltac:(left)) as [s ->]. reflexivity. }
  rewrite Hk. apply IH. intros k Hin. apply H. right. exact Hin.
Qed.

(** X24.  After [item_setup] the item has a score in each sorted set that
    tracks it for the context (global, user, server outside direct
    messages, session when there is one): the score it had, or 0 when it had
    none.  No existing score is reset, no other member, sorted set or hash
    changes, and a second call changes nothing. *)
Theorem item_setup_registers_item c item r :
  (forall key, key ∈ tracked c r ->
     zscore key (capwords item) (item_setup c item r).2
     = Some (default 0 (zscore key (capwords item) r))) /\
  (forall key member, key ∉ tracked c r \/ member <> capwords item ->
     zscore key member (item_setup c item r).2 = zscore key member r) /\
  hashes (item_setup c item r).2 = hashes r /\
  values (item_setup c item r).2 = values r /\
  (item_setup c item (item_setup c item r).2).2 = (item_setup c item r).2.
Proof.
  pose proof (session_data_not_tracked c r) as Hs.
  destruct (changes_score_foldl _ _ _ (tracked c r)
              (changes_score_ensure (capwords item)) (NoDup_tracked c r) r)
    as (H1 & H2 & H3 & H4 & H5).
  cbv zeta in *. rewrite <- item_setup_store in *.
  split; [exact H1|]. split; [exact H2|]. split; [exact H3|]. split; [exact H4|].
  rewrite (item_setup_store c item (item_setup c item r).2).
  rewrite (tracked_same c r _ (H5 _ Hs)).
  apply ensure_store_present. intros key Hin. rewrite (H1 key Hin). eauto.
Qed.

(** X25.  [incorrect_increment] adds [amount] to the score of the item in
    each sorted set that tracks it for the context, a missing score counting
    as 0, and changes nothing else; so two calls in a row add the sum of
    their amounts. *)
Theorem incorrect_increment_adds c item a b r :
  (forall key, key ∈ tracked c r ->
     zscore key (capwords item) (incorrect_increment c item a r).2
     = Some (default 0 (zscore key (capwords item) r) + a)) /\
  (forall key member, key ∉ tracked c r \/ member <> capwords item ->
     zscore key member (incorrect_increment c item a r).2 = zscore key member r) /\
  hashes (incorrect_increment c item a r).2 = hashes r /\
  values (incorrect_increment c item a r).2 = values r /\
  (forall key, key ∈ tracked c r ->
     zscore key (capwords item)
            (incorrect_increment c item b (incorrect_increment c item a r).2).2
     = Some (default 0 (zscore key (capwords item) r) + a + b)).
Proof.
  pose proof (session_data_not_tracked c r) as Hs.
  destruct (changes_score_foldl _ _ _ (tracked c r)
              (changes_score_zincrby a (capwords item)) (NoDup_tracked c r) r)
    as (H1 & H2 & H3 & H4 & H5).
  cbv zeta in *. rewrite <- incorrect_increment_store in *.
  split; [exact H1|]. split; [exact H2|]. split; [exact H3|]. split; [exact H4|].
  intros key Hin.
  pose proof (tracked_same c r _ (H5 _ Hs)) as Ht.
  destruct (changes_score_foldl _ _ _ (tracked c (incorrect_increment c item a r).2)
              (changes_score_zincrby b (capwords item)) (NoDup_tracked c _)
              (incorrect_increment c item a r).2) as (K1 & _).
  cbv zeta in K1. rewrite <- incorrect_increment_store in K1.
  rewrite (K1 key ltac:(rewrite Ht; exact Hin)), (H1 key Hin). reflexivity.
Qed.

End Items.

(** ** The session counters *)

(** [database.hget(key, fld)] on the store of the tasks. *)
Definition hget (key fld : string) (r : redis) : option field :=
  h ← hashes r !! key; h !! fld.

Lemma hget_hset_mapping key fld v r :
  hget key fld (hset_mapping key {[ fld := v ]} r) = Some v.
Proof.
  unfold hget, hset_mapping. cbn [hashes]. rewrite lookup_insert_eq. cbn.
  apply lookup_union_Some_l. apply lookup_singleton_eq.
Qed.

Lemma hget_hset_mapping_ne key fld key' fld' v r :
  key <> key' \/ fld <> fld' ->
  hget key fld (hset_mapping key' {[ fld' := v ]} r) = hget key fld r.
Proof.
  intros Hne. unfold hget, hset_mapping. cbn [hashes].
  destruct (decide (key = key')) as [->|Hk].
  - rewrite lookup_insert_eq. cbn.
    assert (Hf : fld <> fld') by (destruct Hne; congruence).
    rewrite lookup_union_r by (apply lookup_singleton_ne; congruence).
    destruct (hashes r !! key'); [reflexivity|]. cbn. apply lookup_empty.
  - rewrite lookup_insert_ne by congruence. reflexivity.
Qed.

Lemma session_increment_run c item amount r v :
  hget ("session.data:" +:+ author_id c) item r = Some (FInt v) ->
  (session_increment c item amount r).2 =
    Returns (hset_mapping ("session.data:" +:+ author_id c)
               {[ item := FInt (v + amount) ]} r).
Proof.
  intros H. unfold session_increment. cbn [snd]. unfold hget in H. rewrite H.
  reflexivity.
Qed.

(** X23.  On a session whose counter [item] holds the integer [v],
    [session_increment] returns and leaves [v + amount] in the counter,
    changing no other field or key; two increments in a row leave [v + a + b].
    When the counter is missing (no session, or no such field) the call raises
    [TypeError] and writes nothing. *)
Theorem session_increment_adds c item a b r v :
  hget ("session.data:" +:+ author_id c) item r = Some (FInt v) ->
  exists r1 r2,
    (session_increment c item a r).2 = Returns r1 /\
    (session_increment c item b r1).2 = Returns r2 /\
    hget ("session.data:" +:+ author_id c) item r1 = Some (FInt (v + a)) /\
    hget ("session.data:" +:+ author_id c) item r2 = Some (FInt (v + a + b)) /\
    (forall key fld, key <> "session.data:" +:+ author_id c \/ fld <> item ->
       hget key fld r1 = hget key fld r /\ hget key fld r2 = hget key fld r) /\
    zsets r2 = zsets r /\ values r2 = values r /\
    (forall r0 : redis,
       hget ("session.data:" +:+ author_id c) item r0 = None ->
       (session_increment c item a r0).2 = TypeError).
Proof.
  intros H.
  pose proof (session_increment_run c item a r v H) as E1.
  set (r1 := hset_mapping ("session.data:" +:+ author_id c)
               {[ item := FInt (v + a) ]} r) in *.
  assert (H1 : hget ("session.data:" +:+ author_id c) item r1 = Some (FInt (v + a)))
    by apply hget_hset_mapping.
  pose proof (session_increment_run c item b r1 (v + a) H1) as E2.
  exists r1. eexists. split; [exact E1|]. split; [exact E2|].
  split; [exact H1|]. split; [apply hget_hset_mapping|].
  split; [|split; [reflexivity|split; [reflexivity|]]].
  - intros key fld Hne. split.
    + apply hget_hset_mapping_ne. exact Hne.
    + rewrite hget_hset_mapping_ne by exact Hne.
      apply hget_hset_mapping_ne. exact Hne.
  - intros r0 H0. unfold session_increment. cbn [snd].
    unfold hget in H0. rewrite H0. reflexivity.
Qed.

(** ** The users *)

Section Users.
Variable same_object : Z -> Z -> bool.

Local Abbreviation user_setup := (Functions.user_setup same_object).

(** The store after the first two blocks of [user_setup]. *)
Definition with_user (a : string) (r : redis) : redis :=
  match zscore "users:global" a r with
  | Some _ => r
  | None => zadd "users:global" a 0 r
  end.

Definition with_streak (a : string) (r : redis) : redis :=
  match zscore "streak:global" a r, zscore "streak.max:global" a r with
  | Some _, Some _ => r
  | _, _ => zadd "streak.max:global" a 0 (zadd "streak:global" a 0 r)
  end.

Lemma zscore_with_user a r :
  zscore "users:global" a (with_user a r)
  = Some (default 0 (zscore "users:global" a r)) /\
  (forall k m, k <> "users:global" \/ m <> a ->
     zscore k m (with_user a r) = zscore k m r) /\
  hashes (with_user a r) = hashes r /\ values (with_user a r) = values r.
Proof.
  unfold with_user. destruct (zscore "users:global" a r) as [s|] eqn:Hz.
  - rewrite Hz. repeat split; reflexivity.
  - split; [apply zscore_zadd|]. split; [|split; reflexivity].
    intros k m Hne. apply zscore_zadd_ne. exact Hne.
Qed.

Lemma zscore_with_streak a r :
  (forall k m, (k <> "streak:global" /\ k <> "streak.max:global") \/ m <> a ->
     zscore k m (with_streak a r) = zscore k m r) /\
  (match zscore "streak:global" a r, zscore "streak.max:global" a r with
   | Some s, Some m =>
       zscore "streak:global" a (with_streak a r) = Some s /\
       zscore "streak.max:global" a (with_streak a r) = Some m
   | _, _ =>
       zscore "streak:global" a (with_streak a r) = Some 0 /\
       zscore "streak.max:global" a (with_streak a r) = Some 0
   end) /\
  hashes (with_streak a r) = hashes r /\ values (with_streak a r) = values r.
Proof.
  unfold with_streak.
  assert (Hreset :
    (forall k m, (k <> "streak:global" /\ k <> "streak.max:global") \/ m <> a ->
       zscore k m (zadd "streak.max:global" a 0 (zadd "streak:global" a 0 r))
       = zscore k m r) /\
    zscore "streak:global" a (zadd "streak.max:global" a 0 (zadd "streak:global" a 0 r))
      = Some 0 /\
    zscore "streak.max:global" a (zadd "streak.max:global" a 0 (zadd "streak:global" a 0 r))
      = Some 0).
  { split; [|split].
    - intros k m Hne. rewrite !zscore_zadd_ne; [reflexivity| |]; tauto.
    - rewrite zscore_zadd_ne by (left; discriminate). apply zscore_zadd.
    - apply zscore_zadd. }
  destruct Hreset as (R1 & R2 & R3).
  destruct (zscore "streak:global" a r) as [s|] eqn:Hs;
    [destruct (zscore "streak.max:global" a r) as [m|] eqn:Hm|].
  - repeat split; first [reflexivity | assumption].
  - repeat split; assumption.
  - repeat split; assumption.
Qed.

(** The way [user_setup] ends, from the store the first two blocks leave. *)
Lemma user_setup_run c r :
  (user_setup c r).2 =
    (let r2 := with_streak (author_id c) (with_user (author_id c) r) in
     match guild_id c with
    | Some g =>
        match zscore ("users.server:" +:+ g) (author_id c) r2,
              zscore "users:global" (author_id c) r2 with
        | Some server_score, Some global_score =>
            if same_object server_score global_score then Returns r2
            else Returns (zadd ("users.server:" +:+ g) (author_id c) global_score r2)
        | Some _, None => DataError
        | None, Some score =>
            Returns (zadd ("users.server:" +:+ g) (author_id c) score r2)
        | None, None => TypeError
        end
    | None => Returns r2
    end) /\
  (user_setup c r).1.1 =
    match zscore "users:global" (author_id c) r with
    | Some _ => []
    | None => ["Welcome <@" +:+ author_id c +:+ ">!"]
    end.
Proof.
  unfold Functions.user_setup, with_user, with_streak. cbv zeta.
  destruct (zscore "users:global" (author_id c) r) as [s0|];
    (match goal with
     | |- context [zscore "streak:global" ?a ?r1] =>
         destruct (zscore "streak:global" a r1);
         [destruct (zscore "streak.max:global" a r1)|]
     end);
    (destruct (guild_id c) as [g|]; [|split; reflexivity]);
    (match goal with
     | |- context [zscore ("users.server:" +:+ g) ?a ?r2] =>
         destruct (zscore ("users.server:" +:+ g) a r2);
         destruct (zscore "users:global" a r2)
     end);
    try (split; reflexivity);
    destruct (same_object _ _); split; reflexivity.
Qed.

(** What [user_setup] leaves, for an identity test that holds of equal
    scores only. *)
Lemma user_setup_outcome c r :
  (forall x y, same_object x y = true -> x = y) ->
  exists r',
    (user_setup c r).2 = Returns r' /\
    zscore "users:global" (author_id c) r'
      = Some (default 0 (zscore "users:global" (author_id c) r)) /\
    (forall g, guild_id c = Some g ->
       zscore ("users.server:" +:+ g) (author_id c) r'
       = zscore "users:global" (author_id c) r') /\
    (match zscore "streak:global" (author_id c) r,
           zscore "streak.max:global" (author_id c) r with
     | Some s, Some m =>
         zscore "streak:global" (author_id c) r' = Some s /\
         zscore "streak.max:global" (author_id c) r' = Some m
     | _, _ =>
         zscore "streak:global" (author_id c) r' = Some 0 /\
         zscore "streak.max:global" (author_id c) r' = Some 0
     end) /\
    (user_setup c r).1.1 =
      match zscore "users:global" (author_id c) r with
      | Some _ => []
      | None => ["Welcome <@" +:+ author_id c +:+ ">!"]
      end /\
    hashes r' = hashes r.
Proof.
  intros Hsame. destruct (user_setup_run c r) as [Hrun Hsent]. cbv zeta in Hrun.
  set (a := author_id c) in *.
  destruct (zscore_with_user a r) as (U1 & U2 & U3 & U4).
  destruct (zscore_with_streak a (with_user a r)) as (S1 & S2 & S3 & S4).
  set (r2 := with_streak a (with_user a r)) in *.
  assert (G2 : zscore "users:global" a r2 = Some (default 0 (zscore "users:global" a r))).
  { rewrite S1 by (left; split; discriminate). exact U1. }
  assert (T2 : match zscore "streak:global" a r, zscore "streak.max:global" a r with
               | Some s, Some m =>
                   zscore "streak:global" a r2 = Some s /\
                   zscore "streak.max:global" a r2 = Some m
               | _, _ =>
                   zscore "streak:global" a r2 = Some 0 /\
                   zscore "streak.max:global" a r2 = Some 0
               end).
  { rewrite (U2 "streak:global" a) in S2 by (left; discriminate).
    rewrite (U2 "streak.max:global" a) in S2 by (left; discriminate). exact S2. }
  assert (Hh : hashes r2 = hashes r) by (rewrite S3; exact U3).
  assert (Hzadd : forall g score,
            zscore "users:global" a (zadd ("users.server:" +:+ g) a score r2)
              = zscore "users:global" a r2 /\
            zscore "streak:global" a (zadd ("users.server:" +:+ g) a score r2)
              = zscore "streak:global" a r2 /\
            zscore "streak.max:global" a (zadd ("users.server:" +:+ g) a score r2)
              = zscore "streak.max:global" a r2).
  { intros g score. repeat split; apply zscore_zadd_ne; left; discriminate. }
  destruct (guild_id c) as [g|] eqn:Hg.
  - rewrite G2 in Hrun.
    destruct (zscore ("users.server:" +:+ g) a r2) as [server_score|] eqn:Hserver.
    + destruct (same_object server_score _) eqn:Hobj.
      * apply Hsame in Hobj. exists r2. split; [exact Hrun|]. split; [exact G2|].
        split; [|split; [exact T2|split; [exact Hsent | exact Hh]]].
        intros g' Hg'. injection Hg' as <-. rewrite Hserver, G2, Hobj. reflexivity.
      * eexists. split; [exact Hrun|].
        destruct (Hzadd g (default 0 (zscore "users:global" a r))) as (Z1 & Z2 & Z3).
        rewrite Z1, Z2, Z3.
        split; [exact G2|].
        split; [|split; [exact T2|split; [exact Hsent | exact Hh]]].
        intros g' Hg'. injection Hg' as <-. rewrite zscore_zadd, G2. reflexivity.
    + eexists. split; [exact Hrun|].
      destruct (Hzadd g (default 0 (zscore "users:global" a r))) as (Z1 & Z2 & Z3).
      rewrite Z1, Z2, Z3.
      split; [exact G2|].
      split; [|split; [exact T2|split; [exact Hsent | exact Hh]]].
      intros g' Hg'. injection Hg' as <-. rewrite zscore_zadd, G2. reflexivity.
  - exists r2. split; [exact Hrun|]. split; [exact G2|].
    split; [intros g' Hg'; discriminate|].
    split; [exact T2|]. split; [exact Hsent | exact Hh].
Qed.

(** X26.  [user_setup] always returns (the score it converts or copies is
    never [None]).  Afterwards the user has a global score, the one it had
    or 0; a streak and a maximal streak, the ones it had when it had both and
    0 for both otherwise; and, outside direct messages, a server score equal
    to the global score.  The welcome message is sent exactly to a user who
    had no global score. *)
Theorem user_setup_synchronises c r :
  (forall x y, same_object x y = true -> x = y) ->
  exists r',
    (user_setup c r).2 = Returns r' /\
    zscore "users:global" (author_id c) r'
      = Some (default 0 (zscore "users:global" (author_id c) r)) /\
    (forall g, guild_id c = Some g ->
       zscore ("users.server:" +:+ g) (author_id c) r'
       = zscore "users:global" (author_id c) r') /\
    (match zscore "streak:global" (author_id c) r,
           zscore "streak.max:global" (author_id c) r with
     | Some s, Some m =>
         zscore "streak:global" (author_id c) r' = Some s /\
         zscore "streak.max:global" (author_id c) r' = Some m
     | _, _ =>
         zscore "streak:global" (author_id c) r' = Some 0 /\
         zscore "streak.max:global" (author_id c) r' = Some 0
     end) /\
    (user_setup c r).1.1 =
      match zscore "users:global" (author_id c) r with
      | Some _ => []
      | None => ["Welcome <@" +:+ author_id c +:+ ">!"]
      end /\
    hashes r' = hashes r.
Proof. exact (user_setup_outcome c r). Qed.

Lemma zscore_score_increment c amount r :
  zscore "users:global" (author_id c) (score_increment c amount r).2
    = Some (default 0 (zscore "users:global" (author_id c) r) + amount) /\
  zscore "score:global" (channel_id c) (score_increment c amount r).2
    = Some (default 0 (zscore "score:global" (channel_id c) r) + amount) /\
  (forall k m,
     (k <> "users:global" \/ m <> author_id c) ->
     (k <> "score:global" \/ m <> channel_id c) ->
     zscore k m (score_increment c amount r).2 = zscore k m r) /\
  hashes (score_increment c amount r).2 = hashes r.
Proof.
  unfold score_increment, zincrby. cbn [snd].
  split; [|split; [|split; [|reflexivity]]].
  - rewrite zscore_zadd. rewrite zscore_zadd_ne by (left; discriminate). reflexivity.
  - rewrite zscore_zadd_ne by (left; discriminate). apply zscore_zadd.
  - intros k m H1 H2. rewrite !zscore_zadd_ne by assumption. reflexivity.
Qed.

(** X27.  [score_increment] adds [amount] to the global score of the user
    and to the score of the channel, a missing score counting as 0, and
    leaves the server score of the user as it was; the next [user_setup] in
    that server brings the server score to the new global score. *)
Theorem score_increment_then_user_setup c amount r g :
  (forall x y, same_object x y = true -> x = y) ->
  guild_id c = Some g ->
  zscore "users:global" (author_id c) (score_increment c amount r).2
    = Some (default 0 (zscore "users:global" (author_id c) r) + amount) /\
  zscore "score:global" (channel_id c) (score_increment c amount r).2
    = Some (default 0 (zscore "score:global" (channel_id c) r) + amount) /\
  zscore ("users.server:" +:+ g) (author_id c) (score_increment c amount r).2
    = zscore ("users.server:" +:+ g) (author_id c) r /\
  exists r',
    (user_setup c (score_increment c amount r).2).2 = Returns r' /\
    zscore "users:global" (author_id c) r'
      = Some (default 0 (zscore "users:global" (author_id c) r) + amount) /\
    zscore ("users.server:" +:+ g) (author_id c) r'
      = Some (default 0 (zscore "users:global" (author_id c) r) + amount).
Proof.
  intros Hsame Hg.
  destruct (zscore_score_increment c amount r) as (H1 & H2 & H3 & _).
  split; [exact H1|]. split; [exact H2|].
  split; [apply H3; left; discriminate|].
  destruct (user_setup_outcome c (score_increment c amount r).2 Hsame)
    as (r' & Hrun & Hglobal & Hserver & _).
  exists r'. split; [exact Hrun|]. rewrite H1 in Hglobal. cbn [default] in Hglobal.
  split; [exact Hglobal|]. rewrite (Hserver g Hg). exact Hglobal.
Qed.

End Users.

(** A user in a server, an empty store, and a session with one counter. *)
Definition example_ctx : ctx := Ctx "7" "42" (Some "1").

Definition empty_store : redis := Redis ∅ ∅ ∅ ∅.

Definition session_store : redis :=
  Redis {[ "session.data:42" := {[ "correct" := FInt 5 ]} ]} ∅ ∅ ∅.

(** Two scores read from the store are never the same object. *)
Definition never_same (x y : Z) : bool := false.

Lemma session_increment_adds_witness :
  hget ("session.data:" +:+ author_id example_ctx) "correct" session_store
    = Some (FInt 5) /\
  exists r1 r2,
    (session_increment example_ctx "correct" 1 session_store).2 = Returns r1 /\
    (session_increment example_ctx "correct" 2 r1).2 = Returns r2 /\
    hget ("session.data:" +:+ author_id example_ctx) "correct" r1 = Some (FInt (5 + 1)) /\
    hget ("session.data:" +:+ author_id example_ctx) "correct" r2
      = Some (FInt (5 + 1 + 2)) /\
    (forall key fld,
       key <> "session.data:" +:+ author_id example_ctx \/ fld <> "correct" ->
       hget key fld r1 = hget key fld session_store /\
       hget key fld r2 = hget key fld session_store) /\
    zsets r2 = zsets session_store /\ values r2 = values session_store /\
    (forall r0 : redis,
       hget ("session.data:" +:+ author_id example_ctx) "correct" r0 = None ->
       (session_increment example_ctx "correct" 1 r0).2 = TypeError).
Proof.
  assert (H : hget ("session.data:" +:+ author_id example_ctx) "correct" session_store
              = Some (FInt 5)) by (vm_compute; reflexivity).
  split; [exact H|].
  exact (session_increment_adds example_ctx "correct" 1 2 session_store 5 H).
Defined.

Lemma user_setup_synchronises_witness :
  (forall x y, never_same x y = true -> x = y) /\
  exists r',
    (user_setup never_same example_ctx empty_store).2 = Returns r' /\
    zscore "users:global" (author_id example_ctx) r'
      = Some (default 0 (zscore "users:global" (author_id example_ctx) empty_store)) /\
    (forall g, guild_id example_ctx = Some g ->
       zscore ("users.server:" +:+ g) (author_id example_ctx) r'
       = zscore "users:global" (author_id example_ctx) r') /\
    (match zscore "streak:global" (author_id example_ctx) empty_store,
           zscore "streak.max:global" (author_id example_ctx) empty_store with
     | Some s, Some m =>
         zscore "streak:global" (author_id example_ctx) r' = Some s /\
         zscore "streak.max:global" (author_id example_ctx) r' = Some m
     | _, _ =>
         zscore "streak:global" (author_id example_ctx) r' = Some 0 /\
         zscore "streak.max:global" (author_id example_ctx) r' = Some 0
     end) /\
    (user_setup never_same example_ctx empty_store).1.1 =
      match zscore "users:global" (author_id example_ctx) empty_store with
      | Some _ => []
      | None => ["Welcome <@" +:+ author_id example_ctx +:+ ">!"]
      end /\
    hashes r' = hashes empty_store.
Proof.
  assert (H : forall x y, never_same x y = true -> x = y)
    by (intros x y Hxy; discriminate Hxy).
  split; [exact H|].
  exact (user_setup_synchronises never_same example_ctx empty_store H).
Defined.

Lemma score_increment_then_user_setup_witness :
  (forall x y, never_same x y = true -> x = y) /\
  guild_id example_ctx = Some "1" /\
  zscore "users:global" (author_id example_ctx)
         (score_increment example_ctx 1 empty_store).2
    = Some (default 0 (zscore "users:global" (author_id example_ctx) empty_store) + 1) /\
  zscore "score:global" (channel_id example_ctx)
         (score_increment example_ctx 1 empty_store).2
    = Some (default 0 (zscore "score:global" (channel_id example_ctx) empty_store) + 1) /\
  zscore ("users.server:" +:+ "1") (author_id example_ctx)
         (score_increment example_ctx 1 empty_store).2
    = zscore ("users.server:" +:+ "1") (author_id example_ctx) empty_store /\
  exists r',
    (user_setup never_same example_ctx (score_increment example_ctx 1 empty_store).2).2
      = Returns r' /\
    zscore "users:global" (author_id example_ctx) r'
      = Some (default 0 (zscore "users:global" (author_id example_ctx) empty_store) + 1) /\
    zscore ("users.server:" +:+ "1") (author_id example_ctx) r'
      = Some (default 0 (zscore "users:global" (author_id example_ctx) empty_store) + 1).
Proof.
  assert (H : forall x y, never_same x y = true -> x = y)
    by (intros x y Hxy; discriminate Hxy).
  assert (Hg : guild_id example_ctx = Some "1") by reflexivity.
  split; [exact H|]. split; [exact Hg|].
  exact (score_increment_then_user_setup never_same example_ctx 1 empty_store "1" H Hg).
Defined.

End FunctionsProps.


(** * functions.py: choices, owners, spelling *)

Module Choices.
Import Functions SelectorExtra.

(** ** [build_id_list] *)

Section Groups.
(** [str.lower] and [str.strip] *)
Variable str_lower : string -> string.
Variable strip : string -> string.
(** Whether [config.options["id_groups"]] is true; [groups] and [id_list]
    of sciolyid.data. *)
Variable id_groups : bool.
Variable groups : gmap string (list string).
Variable id_list : list string.
(** The order in which Python iterates the set it built for a request: each
    element once, in an order that the hashes and the history of the set
    fix, not its elements alone. *)
Variable iteration : string -> gset string -> list string.
Hypothesis iteration_elements :
  forall group_str (s : gset string), iteration group_str s ≡ₚ elements s.

(** [set(groups.keys()).intersection({category.lower() for category in
    categories})] *)
Definition group_args (group_str : string) : gset string :=
  dom groups ∩ list_to_set (str_lower <$> split " " group_str).

(** [" ".join(group_args)] and [for group in group_args] iterate the same
    set, which nothing changes in between: in the same order. *)
Definition build_id_list (group_str : string) : list string * string :=
  if negb id_groups then (id_list, "None")
  else
    let order := iteration group_str (group_args group_str) in
    let category_output := strip (String.concat " " order) in
    let id_choices :=
      mjoin ((fun group => default [] (groups !! group)) <$> order) in
    match id_choices with
    | [] => (id_list, strip "None")
    | _ :: _ => (id_choices, strip category_output)
    end.

Lemma elem_of_iteration group_str g :
  g ∈ iteration group_str (group_args group_str) <->
  exists word ids, word ∈ split " " group_str /\ g = str_lower word /\
                   groups !! g = Some ids.
Proof.
  rewrite (iteration_elements group_str), elem_of_elements. unfold group_args.
  rewrite elem_of_intersection, elem_of_dom, elem_of_list_to_set, list_elem_of_fmap.
  split.
  - intros [[ids Hids] (word & -> & Hword)]. exists word, ids. auto.
  - intros (word & ids & Hword & -> & Hids). split; eauto.
Qed.

(** X28.  [build_id_list] reads its argument as a set of lower-cased words
    that it iterates in an order of Python's choosing: two requests with
    the same set get the same identifiers, possibly in another order; the
    category it returns joins, in the order of the loop and stripped, the
    names of the groups it took the identifiers from.  Every identifier it
    returns is in [id_list] or in a group whose name is the lower-cased form
    of a word of the request; it returns all of [id_list], under the
    category "None" stripped, when no word names a group and when the
    groups named are all empty, and under "None" when groups are disabled;
    so the list it returns is empty only if [id_list] is. *)
Theorem build_id_list_choices group_str :
  (forall other,
     (list_to_set (str_lower <$> split " " other) : gset string)
       = list_to_set (str_lower <$> split " " group_str) ->
     (build_id_list other).1 ≡ₚ (build_id_list group_str).1) /\
  ((build_id_list group_str).1 = id_list \/
   exists order,
     order ≡ₚ elements (group_args group_str) /\
     (build_id_list group_str).1 =
       mjoin ((fun group => default [] (groups !! group)) <$> order) /\
     (build_id_list group_str).2 = strip (strip (String.concat " " order))) /\
  (forall id, id ∈ (build_id_list group_str).1 ->
     id ∈ id_list \/
     exists word ids, word ∈ split " " group_str /\
                      groups !! str_lower word = Some ids /\ id ∈ ids) /\
  (id_groups = false -> build_id_list group_str = (id_list, "None")) /\
  ((forall word, word ∈ split " " group_str -> groups !! str_lower word = None) ->
   build_id_list group_str = (id_list, if id_groups then strip "None" else "None")) /\
  ((forall word ids, word ∈ split " " group_str ->
                     groups !! str_lower word = Some ids -> ids = []) ->
   build_id_list group_str = (id_list, if id_groups then strip "None" else "None")) /\
  ((build_id_list group_str).1 = [] -> id_list = []).
Proof.
  assert (Hnil : (forall word ids, word ∈ split " " group_str ->
                    groups !! str_lower word = Some ids -> ids = []) ->
                 mjoin ((fun group => default [] (groups !! group))
                          <$> iteration group_str (group_args group_str)) = []).
  { intros Hall.
    pose proof (fun g => proj1 (elem_of_iteration group_str g)) as Hmem.
    induction (iteration group_str (group_args group_str)) as [|g l IH];
      [reflexivity|].
    cbn [fmap list_fmap mjoin list_join].
    destruct (Hmem g ltac:(left)) as (word & ids & Hw & -> & Hids).
    rewrite Hids. cbn [default]. rewrite (Hall word ids Hw Hids). cbn [app].
    apply IH. intros g' Hg'. apply Hmem. right. exact Hg'. }
  split; [|split; [|split; [|split; [|split; [|split]]]]].
  - intros other Hset. unfold build_id_list.
    destruct id_groups; cbn [negb]; [|reflexivity].
    assert (Hargs : group_args other = group_args group_str)
      by (unfold group_args; rewrite Hset; reflexivity).
    assert (Hperm : mjoin ((fun group => default [] (groups !! group))
                             <$> iteration other (group_args other))
                    ≡ₚ mjoin ((fun group => default [] (groups !! group))
                                <$> iteration group_str (group_args group_str))).
    { rewrite (iteration_elements other), (iteration_elements group_str), Hargs.
      reflexivity. }
    cbv zeta.
    destruct (mjoin ((fun group => default [] (groups !! group))
                       <$> iteration other (group_args other))) as [|x l];
      destruct (mjoin ((fun group => default [] (groups !! group))
                         <$> iteration group_str (group_args group_str))) as [|y k];
      cbn [fst].
    + reflexivity.
    + apply Permutation_nil_l in Hperm. discriminate.
    + apply Permutation_nil_r in Hperm. discriminate.
    + exact Hperm.
  - unfold build_id_list. destruct id_groups; cbn [negb]; [|left; reflexivity].
    cbv zeta.
    destruct (mjoin _) as [|x l] eqn:Hc; [left; reflexivity|]. right.
    exists (iteration group_str (group_args group_str)).
    split; [apply iteration_elements|]. cbn [fst snd]. rewrite Hc.
    split; reflexivity.
  - intros id Hid. unfold build_id_list in Hid.
    destruct id_groups; cbn [negb] in Hid; [|left; exact Hid].
    cbv zeta in Hid.
    destruct (mjoin _) as [|x l] eqn:Hc; [left; exact Hid|]. right.
    cbn [fst] in Hid. rewrite <- Hc in Hid.
    apply list_elem_of_join in Hid as (ids' & Hin & Hl).
    apply list_elem_of_fmap in Hl as (g & -> & Hg).
    apply elem_of_iteration in Hg as (word & ids & Hw & -> & Hids).
    rewrite Hids in Hin. exists word, ids. auto.
  - intros H. unfold build_id_list. rewrite H. reflexivity.
  - intros Hnone. unfold build_id_list. destruct id_groups; [|reflexivity].
    cbn [negb]. cbv zeta. rewrite Hnil; [reflexivity|].
    intros word ids Hw Hids. rewrite (Hnone word Hw) in Hids. discriminate.
  - intros Hall. unfold build_id_list. destruct id_groups; [|reflexivity].
    cbn [negb]. cbv zeta. rewrite (Hnil Hall). reflexivity.
  - unfold build_id_list. destruct id_groups; cbn [negb]; [|intros H; exact H].
    cbv zeta. destruct (mjoin _) as [|x l]; [intros H; exact H | discriminate].
Qed.

End Groups.

(** Two groups, and the iteration in the order of [elements]. *)
Definition example_groups : gmap string (list string) :=
  {[ "birds" := ["robin"; "blue jay"]; "trees" := ["oak"] ]}.

Lemma build_id_list_choices_witness :
  (forall (group_str : string) (s : gset string), elements s ≡ₚ elements s) /\
  (forall other,
     (list_to_set (lower <$> split " " other) : gset string)
       = list_to_set (lower <$> split " " "Birds") ->
     (build_id_list lower id true example_groups ["robin"; "blue jay"; "oak"]
        (fun _ s => elements s) other).1
     ≡ₚ (build_id_list lower id true example_groups ["robin"; "blue jay"; "oak"]
           (fun _ s => elements s) "Birds").1) /\
  ((build_id_list lower id true example_groups ["robin"; "blue jay"; "oak"]
      (fun _ s => elements s) "Birds").1 = ["robin"; "blue jay"; "oak"] \/
   exists order,
     order ≡ₚ elements (group_args lower example_groups "Birds") /\
     (build_id_list lower id true example_groups ["robin"; "blue jay"; "oak"]
        (fun _ s => elements s) "Birds").1 =
       mjoin ((fun group => default [] (example_groups !! group)) <$> order) /\
     (build_id_list lower id true example_groups ["robin"; "blue jay"; "oak"]
        (fun _ s => elements s) "Birds").2 = id (id (String.concat " " order))) /\
  (forall i, i ∈ (build_id_list lower id true example_groups ["robin"; "blue jay"; "oak"]
                    (fun _ s => elements s) "Birds").1 ->
     i ∈ ["robin"; "blue jay"; "oak"] \/
     exists word ids, word ∈ split " " "Birds" /\
                      example_groups !! lower word = Some ids /\ i ∈ ids) /\
  (true = false ->
   build_id_list lower id true example_groups ["robin"; "blue jay"; "oak"]
     (fun _ s => elements s) "Birds" = (["robin"; "blue jay"; "oak"], "None")) /\
  ((forall word, word ∈ split " " "Birds" -> example_groups !! lower word = None) ->
   build_id_list lower id true example_groups ["robin"; "blue jay"; "oak"]
     (fun _ s => elements s) "Birds"
   = (["robin"; "blue jay"; "oak"], if true then id "None" else "None")) /\
  ((forall word ids, word ∈ split " " "Birds" ->
                     example_groups !! lower word = Some ids -> ids = []) ->
   build_id_list lower id true example_groups ["robin"; "blue jay"; "oak"]
     (fun _ s => elements s) "Birds"
   = (["robin"; "blue jay"; "oak"], if true then id "None" else "None")) /\
  ((build_id_list lower id true example_groups ["robin"; "blue jay"; "oak"]
      (fun _ s => elements s) "Birds").1 = [] ->
   ["robin"; "blue jay"; "oak"] = []).
Proof.
  assert (H : forall (group_str : string) (s : gset string), elements s ≡ₚ elements s)
    by reflexivity.
  split; [exact H|].
  exact (build_id_list_choices lower id true example_groups ["robin"; "blue jay"; "oak"]
           (fun _ s => elements s) H "Birds").
Defined.

Example build_id_list_birds :
  build_id_list lower id true example_groups ["robin"; "blue jay"; "oak"]
    (fun _ s => elements s) "Birds" = (["robin"; "blue jay"], "birds").
Proof. vm_compute. reflexivity. Qed.

(** ** [owner_check] *)

(** [str(os.getenv("ids"))]: an unset variable renders as ["None"]. *)
Definition ids_of (getenv : option string) : string :=
  match getenv with
  | Some s => s
  | None => "None"
  end.

Definition owner_check (getenv : option string) (c : ctx) : bool :=
  let owners : gset string := list_to_set (split "," (ids_of getenv)) in
  bool_decide (author_id c ∈ owners).

Lemma split_app_sep sep x s :
  occurs sep x = false -> split sep (x +:+ String sep s) = x :: split sep s.
Proof.
  induction x as [|ch x IH]; intros H.
  - rewrite GitProps.append_empty. cbn [split]. rewrite Ascii.eqb_refl. reflexivity.
  - cbn [occurs] in H. apply orb_false_iff in H as [Hc Hx].
    rewrite GitProps.append_cons. cbn [split]. rewrite Hc, (IH Hx). reflexivity.
Qed.

Lemma split_concat sep (l : list string) :
  l <> [] -> Forall (fun x => occurs sep x = false) l ->
  split sep (String.concat (String sep "") l) = l.
Proof.
  induction l as [|x l IH]; intros Hne Hall; [congruence|].
  apply Forall_cons in Hall as [Hx Hall].
  destruct l as [|y l].
  - cbn [String.concat]. apply split_no_sep. exact Hx.
  - change (String.concat (String sep "") (x :: y :: l))
      with (x +:+ (String sep "" +:+ String.concat (String sep "") (y :: l))).
    rewrite GitProps.append_cons, GitProps.append_empty.
    rewrite (split_app_sep sep x _ Hx), IH by (discriminate || exact Hall).
    reflexivity.
Qed.

(** X29.  When the variable [ids] holds identifiers joined by commas, none
    of which contains a comma, [owner_check] accepts exactly the authors
    whose identifier is one of them, compared as written (a space after a
    comma belongs to the identifier).  When the variable is not set, the
    only identifier accepted is the word "None". *)
Theorem owner_check_reads_ids (owners : list string) c :
  owners <> [] ->
  Forall (fun x => occurs "," x = false) owners ->
  owner_check (Some (String.concat "," owners)) c = bool_decide (author_id c ∈ owners) /\
  owner_check None c = bool_decide (author_id c = "None").
Proof.
  intros Hne Hall. unfold owner_check, ids_of. split.
  - rewrite (split_concat "," owners Hne Hall).
    apply bool_decide_ext. apply elem_of_list_to_set.
  - change (split "," "None") with ["None"].
    apply bool_decide_ext. rewrite elem_of_list_to_set. apply list_elem_of_singleton.
Qed.

Lemma owner_check_reads_ids_witness :
  ["42"; " 43"] <> [] /\
  Forall (fun x => occurs "," x = false) ["42"; " 43"] /\
  owner_check (Some (String.concat "," ["42"; " 43"])) (Ctx "7" "43" None)
    = bool_decide (author_id (Ctx "7" "43" None) ∈ ["42"; " 43"]) /\
  owner_check None (Ctx "7" "43" None)
    = bool_decide (author_id (Ctx "7" "43" None) = "None").
Proof.
  assert (H1 : ["42"; " 43"] <> []) by discriminate.
  assert (H2 : Forall (fun x => occurs "," x = false) ["42"; " 43"])
    by (repeat constructor).
  split; [exact H1|]. split; [exact H2|].
  exact (owner_check_reads_ids ["42"; " 43"] (Ctx "7" "43" None) H1 H2).
Defined.

(** ** [spellcheck] and [spellcheck_list] *)

Section Spelling.
(** [str.lower] *)
Variable str_lower : string -> string.
(** [len(list(difflib.Differ().compare(a, b)))] *)
Variable differ_length : string -> string -> Z.

Definition spellcheck (worda wordb : string) (cutoff : Z) : bool :=
  let worda := str_lower worda in
  let wordb := str_lower wordb in
  (* [min(worda, wordb, key=len)]: the first of the two when they tie *)
  let shorterword :=
    if (String.length worda <=? String.length wordb)%nat then worda else wordb in
  if bool_decide (worda <> wordb) then
    if cutoff <=? differ_length worda wordb - Z.of_nat (String.length shorterword)
    then false else true
  else true.

(** The loop of [spellcheck_list]; [relative_cutoff] is [None] as long as
    the variable is not bound. *)
Fixpoint spellcheck_loop (relative_cutoff : option Z) (word_to_check : string)
    (correct_list : list string) (abs_cutoff : option Z) : result bool :=
  match correct_list with
  | [] => Ok false
  | correct_word :: rest =>
      let relative_cutoff :=
        match abs_cutoff with
        | None => Some (Z.of_nat (String.length correct_word) / 3)
        | Some _ => relative_cutoff
        end in
      match relative_cutoff with
      | None => Raise UnboundLocalError
      | Some cutoff =>
          if spellcheck word_to_check correct_word cutoff then Ok true
          else spellcheck_loop relative_cutoff word_to_check rest abs_cutoff
      end
  end.

Definition spellcheck_list (word_to_check : string) (correct_list : list string)
    (abs_cutoff : option Z) : result bool :=
  spellcheck_loop None word_to_check correct_list abs_cutoff.

Lemma spellcheck_loop_relative rc word (l : list string) :
  spellcheck_loop rc word l None =
  Ok (existsb (fun correct_word =>
                 spellcheck word correct_word
                   (Z.of_nat (String.length correct_word) / 3)) l).
Proof.
  revert rc. induction l as [|cw l IH]; intros rc; [reflexivity|].
  cbn [spellcheck_loop existsb].
  destruct (spellcheck word cw _); [reflexivity|]. apply IH.
Qed.

Lemma spellcheck_same_lower worda wordb cutoff :
  str_lower worda = str_lower wordb -> spellcheck worda wordb cutoff = true.
Proof.
  intros H. unfold spellcheck. rewrite H.
  rewrite bool_decide_eq_false_2 by (intros Hne; exact (Hne eq_refl)). reflexivity.
Qed.

(** X30.  [spellcheck_list] cannot be used with [abs_cutoff]: on a list that
    is not empty the call raises [UnboundLocalError], whatever the words.
    Without it the call returns: true exactly when [spellcheck] accepts the
    word against some word of the list with a third of that word's length
    (rounded down) as cutoff; in particular a word that equals a word of the
    list up to case is accepted, whatever the lengths. *)
Theorem spellcheck_list_cutoffs word (correct_list : list string) :
  (forall cutoff, correct_list <> [] ->
     spellcheck_list word correct_list (Some cutoff) = Raise UnboundLocalError) /\
  (forall cutoff, spellcheck_list word [] (Some cutoff) = Ok false) /\
  spellcheck_list word correct_list None =
    Ok (existsb (fun correct_word =>
                   spellcheck word correct_word
                     (Z.of_nat (String.length correct_word) / 3)) correct_list) /\
  (forall correct_word,
     correct_word ∈ correct_list -> str_lower word = str_lower correct_word ->
     spellcheck_list word correct_list None = Ok true).
Proof.
  split; [|split; [|split]].
  - intros cutoff Hne. destruct correct_list as [|cw l]; [congruence|]. reflexivity.
  - reflexivity.
  - apply spellcheck_loop_relative.
  - intros cw Hin Hlow. unfold spellcheck_list. rewrite spellcheck_loop_relative.
    f_equal. apply existsb_exists. exists cw. split.
    + apply list_elem_of_In. exact Hin.
    + apply spellcheck_same_lower. exact Hlow.
Qed.

End Spelling.

End Choices.
